(** * FLTK, GDI graphics driver: rectangle, line and clipping routines

    A shallow embedding of [src/drivers/GDI/Fl_GDI_Graphics_Driver_rect.cxx]
    together with the part of the Win32 GDI interface it calls.

    C++ [int] values are modelled as [Z]; signed overflow is undefined
    behaviour in C++, so the development speaks about runs without it.
    GDI itself is not part of the repository: regions are modelled by the
    set of pixels they denote (a finite union of rectangles), the drawing
    calls by the list of requests a device context receives. *)

From Stdlib Require Import ZArith QArith Qround Lia Lqa Bool Ascii.
From stdpp Require Import base list gmap strings.

Local Open Scope Z_scope.

(** ** Win32 GDI: rectangles and regions *)

Abbreviation POINT := (Z * Z)%type.

Record RECT := mkRECT { left : Z; top : Z; right : Z; bottom : Z }.

(** A pixel belongs to a [RECT] when it is inside the half-open box: GDI
    excludes the right and the bottom edge. *)
Definition PtInRect (rc : RECT) (p : POINT) : bool :=
  (left rc <=? p.1) && (p.1 <? right rc) && (top rc <=? p.2) && (p.2 <? bottom rc).

Definition IsRectEmpty (rc : RECT) : bool :=
  (right rc <=? left rc) || (bottom rc <=? top rc).

Definition IntersectRect (a b : RECT) : RECT :=
  mkRECT (Z.max (left a) (left b)) (Z.max (top a) (top b))
         (Z.min (right a) (right b)) (Z.min (bottom a) (bottom b)).

Definition UnionRect (a b : RECT) : RECT :=
  mkRECT (Z.min (left a) (left b)) (Z.min (top a) (top b))
         (Z.max (right a) (right b)) (Z.max (bottom a) (bottom b)).

(** GDI puts the corners of a rectangle in order before using them. *)
Definition order_rect (rc : RECT) : RECT :=
  mkRECT (Z.min (left rc) (right rc)) (Z.min (top rc) (bottom rc))
         (Z.max (left rc) (right rc)) (Z.max (top rc) (bottom rc)).

(** A region handle denotes a finite union of rectangles (a composite
    region has several). *)
Abbreviation HRGN := (list RECT).

Definition PtInRegion (r : HRGN) (p : POINT) : bool :=
  existsb (fun rc => PtInRect rc p) r.

Definition region_is_empty (r : HRGN) : bool := forallb IsRectEmpty r.

Definition CreateRectRgn (l t r b : Z) : HRGN := [order_rect (mkRECT l t r b)].

(** The pieces of [a] that lie outside [b]: the band above [b], the band
    below it, and what is left and right of [b] in between. *)
Definition rect_minus (a b : RECT) : HRGN :=
  [ mkRECT (left a) (top a) (right a) (Z.min (bottom a) (top b));
    mkRECT (left a) (Z.max (top a) (bottom b)) (right a) (bottom a);
    mkRECT (left a) (Z.max (top a) (top b))
           (Z.min (right a) (left b)) (Z.min (bottom a) (bottom b));
    mkRECT (Z.max (left a) (right b)) (Z.max (top a) (top b))
           (right a) (Z.min (bottom a) (bottom b)) ].

Definition region_minus_rect (r : HRGN) (b : RECT) : HRGN :=
  flat_map (fun a => rect_minus a b) r.

Definition region_diff (r1 r2 : HRGN) : HRGN :=
  fold_left region_minus_rect r2 r1.

Definition region_and (r1 r2 : HRGN) : HRGN :=
  flat_map (fun a => map (IntersectRect a) r2) r1.

(** [EqualRgn]: GDI keeps regions in a canonical form, so two handles are
    equal exactly when they cover the same pixels. *)
Definition EqualRgn (r1 r2 : HRGN) : bool :=
  region_is_empty (region_diff r1 r2) && region_is_empty (region_diff r2 r1).

Fixpoint rgn_box (r : HRGN) : option RECT :=
  match r with
  | [] => None
  | rc :: r' =>
      if IsRectEmpty rc then rgn_box r'
      else Some (match rgn_box r' with
                 | None => rc
                 | Some bx => UnionRect rc bx
                 end)
  end.

(** [GetRgnBox]: the bounding rectangle, all zero for an empty region. *)
Definition GetRgnBox (r : HRGN) : RECT :=
  default (mkRECT 0 0 0 0) (rgn_box r).

Inductive RegionType := ERROR | NULLREGION | SIMPLEREGION | COMPLEXREGION.

Definition region_type (r : HRGN) : RegionType :=
  if region_is_empty r then NULLREGION
  else if EqualRgn r [GetRgnBox r] then SIMPLEREGION
  else COMPLEXREGION.

(** [CombineRgn(dst, src1, src2, RGN_AND)]: the new contents of [dst] and
    the returned complexity code. *)
Definition CombineRgn_AND (src1 src2 : HRGN) : HRGN * RegionType :=
  let d := region_and src1 src2 in (d, region_type d).

(** [RectInRegion]: does any part of the rectangle lie in the region. *)
Definition RectInRegion (r : HRGN) (rc : RECT) : bool :=
  negb (region_is_empty (region_and [order_rect rc] r)).

(** *** Bounding boxes *)

(** [bx] is the bounding box of the pixel set [S]: it contains [S], and
    every rectangle that contains [S] contains [bx]. *)
Definition is_bounding_box (bx : RECT) (S : POINT -> bool) : Prop :=
  (forall p, S p = true -> PtInRect bx p = true) /\
  (forall rc, (forall p, S p = true -> PtInRect rc p = true) ->
     left rc <= left bx /\ top rc <= top bx /\
     right bx <= right rc /\ bottom bx <= bottom rc).

(** Each side of [bx] is reached by a pixel of [S]. *)
Definition touches (S : POINT -> bool) (bx : RECT) : Prop :=
  (exists p, S p = true /\ p.1 = left bx) /\
  (exists p, S p = true /\ p.1 = right bx - 1) /\
  (exists p, S p = true /\ p.2 = top bx) /\
  (exists p, S p = true /\ p.2 = bottom bx - 1).

(** ** Win32 GDI: pens, brushes and device contexts *)

Abbreviation COLORREF := Z (only parsing).

(** Object handles; [0] is [NULL]. *)
Abbreviation HGDIOBJ := N (only parsing).
Definition NULL : HGDIOBJ := 0%N.

Definition PS_SOLID : Z := 0.
Definition PS_DOT : Z := 2.
Definition PS_ENDCAP_FLAT : Z := 512.
Definition PS_JOIN_ROUND : Z := 0.
Definition PS_GEOMETRIC : Z := 65536.
Definition BS_SOLID : Z := 0.

Record LOGBRUSH := mkLOGBRUSH { lbStyle : Z; lbColor : COLORREF; lbHatch : Z }.

Record EXTLOGPEN := mkPEN { elpPenStyle : Z; elpWidth : Z; elpBrush : LOGBRUSH }.

Inductive GDIOBJ :=
| Pen (p : EXTLOGPEN)
| Brush (b : LOGBRUSH).

(** What a device context was asked to draw. *)
Inductive DrawOp :=
| OpLine (from to : POINT) (pen : HGDIOBJ)
| OpPixel (p : POINT) (c : COLORREF)
| OpFill (rc : RECT) (brush : HGDIOBJ).

(** A device context: current position, selected pen and brush, selected
    clip region ([None] when clipping is cleared), the requests received so
    far (oldest first) and the logical/device coordinate transform. *)
Record DC := mkDC {
  dc_pos : POINT;
  dc_pen : HGDIOBJ;
  dc_brush : HGDIOBJ;
  dc_clip : option HRGN;
  dc_ops : list DrawOp;
  dc_LPtoDP : POINT -> POINT;
  dc_DPtoLP : POINT -> POINT
}.

Definition MoveToEx (p : POINT) (dc : DC) : DC :=
  mkDC p (dc_pen dc) (dc_brush dc) (dc_clip dc) (dc_ops dc)
       (dc_LPtoDP dc) (dc_DPtoLP dc).

Definition emit (op : DrawOp) (dc : DC) : DC :=
  mkDC (dc_pos dc) (dc_pen dc) (dc_brush dc) (dc_clip dc) (dc_ops dc ++ [op])
       (dc_LPtoDP dc) (dc_DPtoLP dc).

(** [LineTo] strokes from the current position with the selected pen and
    moves the current position to the end point. *)
Definition LineTo (p : POINT) (dc : DC) : DC :=
  MoveToEx p (emit (OpLine (dc_pos dc) p (dc_pen dc)) dc).

Definition SetPixel (p : POINT) (c : COLORREF) (dc : DC) : DC :=
  emit (OpPixel p c) dc.

Definition FillRect (rc : RECT) (brush : HGDIOBJ) (dc : DC) : DC :=
  emit (OpFill rc brush) dc.

(** [SelectClipRgn] copies the region into the context; [NULL] clears the
    clipping. *)
Definition SelectClipRgn (r : option HRGN) (dc : DC) : DC :=
  mkDC (dc_pos dc) (dc_pen dc) (dc_brush dc) r (dc_ops dc)
       (dc_LPtoDP dc) (dc_DPtoLP dc).

Definition select_pen (h : HGDIOBJ) (dc : DC) : DC :=
  mkDC (dc_pos dc) h (dc_brush dc) (dc_clip dc) (dc_ops dc)
       (dc_LPtoDP dc) (dc_DPtoLP dc).

Definition select_brush (h : HGDIOBJ) (dc : DC) : DC :=
  mkDC (dc_pos dc) (dc_pen dc) h (dc_clip dc) (dc_ops dc)
       (dc_LPtoDP dc) (dc_DPtoLP dc).

(** *** Pixels covered by a request

    A stroke of the one-pixel solid pen covers the pixels from its start up
    to, but without, its end point: one pixel per step along the longer
    axis, the other coordinate rounded to the nearest pixel. *)
Definition line_pixels (a b : POINT) : list POINT :=
  let dx := b.1 - a.1 in
  let dy := b.2 - a.2 in
  let n := Z.max (Z.abs dx) (Z.abs dy) in
  map (fun i => (a.1 + (2 * i * dx + n) / (2 * n),
                 a.2 + (2 * i * dy + n) / (2 * n)))
      (seqZ 0 n).

Definition rect_pixels (rc : RECT) : list POINT :=
  flat_map (fun py => map (fun px => (px, py))
                          (seqZ (left rc) (right rc - left rc)))
           (seqZ (top rc) (bottom rc - top rc)).

Definition op_pixels (op : DrawOp) : list POINT :=
  match op with
  | OpLine a b _ => line_pixels a b
  | OpPixel p _ => [p]
  | OpFill rc _ => rect_pixels rc
  end.

Definition pixels (ops : list DrawOp) : list POINT := flat_map op_pixels ops.

(** ** The driver state *)

(** [Fl_Region]: a region handle, [None] for the [NULL] handle that stands
    for "no clipping". *)
Abbreviation Fl_Region := (option HRGN).

Definition FL_WHITE : Z := 255.
Definition FL_SOLID : Z := 0.
Definition FL_DOT : Z := 2.

(** The members of [Fl_GDI_Graphics_Driver] the routines use, with the
    process-wide pieces they reach: the table of live GDI objects, the
    messages given to [Fl::warning], [fl_clip_state_number] and whether the
    current surface is the display.  [region_stack_max], [fl_RGB()] and
    [fl_brush()] are declared outside the sources at hand and enter as
    parameters; the scale factor is a rational number. *)
Record Fl_GDI_Graphics_Driver := mkDriver {
  gc_ : option DC;
  gdi_objects : gmap N GDIOBJ;
  rstack : list Fl_Region;
  rstackptr : Z;
  region_stack_max : Z;
  scale : Q;
  color : Z;
  fl_RGB : COLORREF;
  fl_brush : HGDIOBJ;
  fl_clip_state_number : Z;
  surface_is_display : bool;
  warnings : list string
}.

Abbreviation Driver := Fl_GDI_Graphics_Driver.

Definition set_gc (g : option DC) (s : Driver) : Driver :=
  mkDriver g (gdi_objects s) (rstack s) (rstackptr s) (region_stack_max s)
           (scale s) (color s) (fl_RGB s) (fl_brush s)
           (fl_clip_state_number s) (surface_is_display s) (warnings s).

Definition set_gdi_objects (m : gmap N GDIOBJ) (s : Driver) : Driver :=
  mkDriver (gc_ s) m (rstack s) (rstackptr s) (region_stack_max s)
           (scale s) (color s) (fl_RGB s) (fl_brush s)
           (fl_clip_state_number s) (surface_is_display s) (warnings s).

Definition set_rstack (l : list Fl_Region) (s : Driver) : Driver :=
  mkDriver (gc_ s) (gdi_objects s) l (rstackptr s) (region_stack_max s)
           (scale s) (color s) (fl_RGB s) (fl_brush s)
           (fl_clip_state_number s) (surface_is_display s) (warnings s).

Definition set_rstackptr (n : Z) (s : Driver) : Driver :=
  mkDriver (gc_ s) (gdi_objects s) (rstack s) n (region_stack_max s)
           (scale s) (color s) (fl_RGB s) (fl_brush s)
           (fl_clip_state_number s) (surface_is_display s) (warnings s).

Definition set_fl_clip_state_number (n : Z) (s : Driver) : Driver :=
  mkDriver (gc_ s) (gdi_objects s) (rstack s) (rstackptr s)
           (region_stack_max s) (scale s) (color s) (fl_RGB s) (fl_brush s)
           n (surface_is_display s) (warnings s).

Definition newline : string := String (Ascii.ascii_of_nat 10) EmptyString.

(** [Fl::warning(msg)] *)
Definition Fl_warning (msg : string) (s : Driver) : Driver :=
  mkDriver (gc_ s) (gdi_objects s) (rstack s) (rstackptr s)
           (region_stack_max s) (scale s) (color s) (fl_RGB s) (fl_brush s)
           (fl_clip_state_number s) (surface_is_display s)
           (warnings s ++ [msg]).

(** A drawing call on [gc_]; GDI rejects the call when the handle is null. *)
Definition on_gc (f : DC -> DC) (s : Driver) : Driver :=
  match gc_ s with
  | Some dc => set_gc (Some (f dc)) s
  | None => s
  end.

(** [rstack[i]]; a slot outside the array reads as [NULL]. *)
Definition rstack_at (s : Driver) (i : Z) : Fl_Region :=
  default None (rstack s !! Z.to_nat i).

(** [rstack[i] = r] *)
Definition rstack_store (i : Z) (r : Fl_Region) (s : Driver) : Driver :=
  set_rstack (<[Z.to_nat i := r]> (rstack s)) s.

(** [LPtoDP] and [DPtoLP] on one point; without a context the call fails
    and leaves the point as it is. *)
Definition LPtoDP (g : option DC) (p : POINT) : POINT :=
  match g with Some dc => dc_LPtoDP dc p | None => p end.

Definition DPtoLP (g : option DC) (p : POINT) : POINT :=
  match g with Some dc => dc_DPtoLP dc p | None => p end.

(** [ExtCreatePen]: a new pen under a handle that is not in use. *)
Definition ExtCreatePen (style width : Z) (lb : LOGBRUSH) (s : Driver)
  : HGDIOBJ * Driver :=
  let h := fresh ({[NULL]} ∪ dom (gdi_objects s)) in
  (h, set_gdi_objects (<[h := Pen (mkPEN style width lb)]> (gdi_objects s)) s).

(** [SelectObject(gc_, h)]: selects the object and returns the handle it
    replaces, or [NULL] when the call fails. *)
Definition SelectObject (h : HGDIOBJ) (s : Driver) : HGDIOBJ * Driver :=
  match gc_ s, gdi_objects s !! h with
  | Some dc, Some (Pen _) => (dc_pen dc, set_gc (Some (select_pen h dc)) s)
  | Some dc, Some (Brush _) => (dc_brush dc, set_gc (Some (select_brush h dc)) s)
  | _, _ => (NULL, s)
  end.

Definition DeleteObject (h : HGDIOBJ) (s : Driver) : Driver :=
  set_gdi_objects (delete h (gdi_objects s)) s.

(** ** Scaling *)

(** Modelled from the spec: [floor(x)] of the scalable driver (its
    definition is not in the sources at hand) maps a logical coordinate to
    the device pixel [floor(x * scale)]. *)
Definition floor (s : Driver) (x : Z) : Z := Qfloor (scale s * inject_Z x).

(** Modelled from the spec: [line_style_unscaled] (not in the sources at
    hand) replaces the pen of the context by one of the given style and
    width in the current colour. *)
Definition line_style_unscaled (style width : Z) (s : Driver) : Driver :=
  let '(newpen, s) :=
    ExtCreatePen (Z.lor PS_GEOMETRIC (Z.land style 255)) width
                 (mkLOGBRUSH BS_SOLID (fl_RGB s) 0) s in
  let '(oldpen, s) := SelectObject newpen s in
  DeleteObject oldpen s.

(** ** Line and rectangle drawing with integer coordinates *)

Definition rectf_unscaled (x y w h : Z) (s : Driver) : Driver :=
  let rect := mkRECT x y (x + w) (y + h) in
  on_gc (FillRect rect (fl_brush s)) s.

(** Modelled from the spec: [rectf] of the scalable driver (not in the
    sources at hand) converts the logical rectangle to device bounds, lower
    bound [floor(x)] and upper bound [floor(x + w - 1)], and hands them to
    [rectf_unscaled]. *)
Definition rectf (x y w h : Z) (s : Driver) : Driver :=
  rectf_unscaled (floor s x) (floor s y)
                 (floor s (x + w - 1) - floor s x + 1)
                 (floor s (y + h - 1) - floor s y + 1) s.

Definition point (x y : Z) (s : Driver) : Driver :=
  rectf x y 1 1 s.

Definition overlay_rect (x y w h : Z) (s : Driver) : Driver :=
  let s := line_style_unscaled
             (if color s =? FL_WHITE then FL_SOLID else FL_DOT) 1 s in
  let right := floor s (x + w - 1) in
  let bottom := floor s (y + h - 1) in
  let x := floor s x in
  let y := floor s y in
  let s := on_gc (MoveToEx (x, y)) s in
  let s := on_gc (LineTo (right, y)) s in
  let s := on_gc (LineTo (right, bottom)) s in
  let s := on_gc (LineTo (x, bottom)) s in
  on_gc (LineTo (x, y)) s.

(** A counted [for] loop: [body] runs once for each value the loop
    variable takes, in order. *)
Definition for_each {A : Type} (vals : list Z) (body : Z -> A -> A) (a : A) : A :=
  fold_left (fun acc v => body v acc) vals a.

(** [for (v = lo; v < lo + n; v++)] and [for (v = n; v > 0; v--)]. *)
Definition upto (lo n : Z) : list Z := seqZ lo n.
Definition downto (n : Z) : list Z := reverse (seqZ 1 n).

(** The body shared by the four loops of [focus_rect]:
    [if (i & 1) SetPixel(gc_, px, py, c);] followed by [i++]. *)
Definition dot (c : COLORREF) (p : POINT) (si : Driver * Z) : Driver * Z :=
  let '(s, i) := si in
  ((if Z.land i 1 =? 0 then s else on_gc (SetPixel p c) s), i + 1).

Definition focus_rect (x y w h : Z) (s : Driver) : Driver :=
  let w := floor s (x + w - 1) - floor s x + 1 in
  let h := floor s (y + h - 1) - floor s y + 1 in
  let x := floor s x in
  let y := floor s y in
  let i := 1 in
  let c := fl_RGB s in
  let si := for_each (upto 0 w) (fun xx => dot c (x + xx, y)) (s, i) in
  let si := for_each (upto 0 h) (fun yy => dot c (x + w, y + yy)) si in
  let si := for_each (downto w) (fun xx => dot c (x + xx, y + h)) si in
  let si := for_each (downto h) (fun yy => dot c (x, y + yy)) si in
  si.1.

Definition line_unscaled (x y x1 y1 : Z) (s : Driver) : Driver :=
  let s := on_gc (MoveToEx (x, y)) s in
  let s := on_gc (LineTo (x1, y1)) s in
  on_gc (SetPixel (x1, y1) (fl_RGB s)) s.

Definition line_unscaled3 (x y x1 y1 x2 y2 : Z) (s : Driver) : Driver :=
  let s := on_gc (MoveToEx (x, y)) s in
  let s := on_gc (LineTo (x1, y1)) s in
  let s := on_gc (LineTo (x2, y2)) s in
  on_gc (SetPixel (x2, y2) (fl_RGB s)) s.

Definition change_pen_width (width : Z) (s : Driver) : HGDIOBJ * Driver :=
  let penbrush := mkLOGBRUSH BS_SOLID (fl_RGB s) 0 in
  let '(newpen, s) :=
    ExtCreatePen (Z.lor (Z.lor PS_GEOMETRIC PS_ENDCAP_FLAT) PS_JOIN_ROUND)
                 width penbrush s in
  SelectObject newpen s.

Definition reset_pen_width (data : HGDIOBJ) (s : Driver) : Driver :=
  let '(h, s) := SelectObject data s in
  DeleteObject h s.

Definition xyline_unscaled (x y x1 : Z) (s : Driver) : Driver :=
  let s := on_gc (MoveToEx (x, y)) s in
  on_gc (LineTo (x1 + 1, y)) s.

Definition yxline_unscaled (x y y1 : Z) (s : Driver) : Driver :=
  let s := on_gc (MoveToEx (x, y)) s in
  on_gc (LineTo (x, y1 + 1)) s.

Definition loop_unscaled (x y x1 y1 x2 y2 : Z) (s : Driver) : Driver :=
  let s := on_gc (MoveToEx (x, y)) s in
  let s := on_gc (LineTo (x1, y1)) s in
  let s := on_gc (LineTo (x2, y2)) s in
  on_gc (LineTo (x, y)) s.

Definition loop_unscaled4 (x y x1 y1 x2 y2 x3 y3 : Z) (s : Driver) : Driver :=
  let s := on_gc (MoveToEx (x, y)) s in
  let s := on_gc (LineTo (x1, y1)) s in
  let s := on_gc (LineTo (x2, y2)) s in
  let s := on_gc (LineTo (x3, y3)) s in
  on_gc (LineTo (x, y)) s.

(** ** Clipping *)

(** Modelled from the spec: [XRectangleRegion] (not in the sources at
    hand) turns the requested rectangle into a region.  The regions of the
    stack are kept in device units (in a print context [not_clipped]
    converts its rectangle from logical to device units before it tests it
    against the stack), so the corners go through [LPtoDP] there. *)
Definition XRectangleRegion (x y w h : Z) (s : Driver) : HRGN :=
  if surface_is_display s then CreateRectRgn x y (x + w) (y + h)
  else
    let p0 := LPtoDP (gc_ s) (x, y) in
    let p1 := LPtoDP (gc_ s) (x + w, y + h) in
    CreateRectRgn p0.1 p0.2 p1.1 p1.2.

(** Modelled from the spec: the scaled copy of a clip region has every
    edge of every rectangle sent through [floor], the rule used for drawn
    primitives. *)
Definition scale_region (s : Driver) (r : HRGN) : HRGN :=
  map (fun rc => mkRECT (floor s (left rc)) (floor s (top rc))
                        (floor s (right rc)) (floor s (bottom rc))) r.

(** Modelled from the spec: [scale_clip] (not in the sources at hand) puts
    the scaled copy of the top region in its place and returns the region
    it replaced, [NULL] when the scale leaves the region as it is. *)
Definition scale_clip (s : Driver) : Fl_Region * Driver :=
  match rstack_at s (rstackptr s) with
  | Some r =>
      if Qeq_bool (scale s) 1 then (None, s)
      else (Some r, rstack_store (rstackptr s) (Some (scale_region s r)) s)
  | None => (None, s)
  end.

(** Modelled from the spec: [unscale_clip] (not in the sources at hand)
    puts the saved region back on top of the stack. *)
Definition unscale_clip (r : Fl_Region) (s : Driver) : Driver :=
  match r with
  | Some _ => rstack_store (rstackptr s) r s
  | None => s
  end.

Definition restore_clip (s : Driver) : Driver :=
  let s := set_fl_clip_state_number (fl_clip_state_number s + 1) s in
  match gc_ s with
  | Some _ =>
      let '(r, s) :=
        match rstack_at s (rstackptr s) with
        | Some _ => scale_clip s
        | None => (None, s)
        end in
      let s := on_gc (SelectClipRgn (rstack_at s (rstackptr s))) s in
      match r with
      | Some _ => unscale_clip r s
      | None => s
      end
  | None => s
  end.

(** [fl_restore_clip()] forwards to [restore_clip] of the current driver. *)
Definition fl_restore_clip (s : Driver) : Driver := restore_clip s.

Definition push_clip (x y w h : Z) (s : Driver) : Driver :=
  let r :=
    if (0 <? w) && (0 <? h) then
      let r := XRectangleRegion x y w h s in
      let current := rstack_at s (rstackptr s) in
      match current with
      | Some cur => (CombineRgn_AND r cur).1
      | None => r
      end
    else CreateRectRgn 0 0 0 0 in
  let s :=
    if rstackptr s <? region_stack_max s then
      let s := set_rstackptr (rstackptr s + 1) s in
      rstack_store (rstackptr s) (Some r) s
    else
      Fl_warning
        ("Fl_GDI_Graphics_Driver::push_clip: clip stack overflow!" +:+ newline)
        s in
  fl_restore_clip s.

(** Modelled from the spec: [pop_clip] (base class, not in the sources at
    hand) discards the top entry and reverts to the one below, verbatim.
    Popping the bottom sentinel is a programming error the driver does not
    guard: no result. *)
Definition pop_clip (s : Driver) : option Driver :=
  if 0 <? rstackptr s
  then Some (fl_restore_clip (set_rstackptr (rstackptr s - 1) s))
  else None.

(** The result of [clip_box]: the out-parameters [X], [Y], [W], [H] and
    the returned status.  The temporary regions are released before the
    function returns; the driver state is left as it was. *)
Definition clip_box (x y w h : Z) (s : Driver) : Z * Z * Z * Z * Z :=
  let '(X, Y, W, H) := (x, y, w, h) in
  match rstack_at s (rstackptr s) with
  | None => (X, Y, W, H, 0)
  | Some r =>
      let rr := XRectangleRegion x y w h s in
      let '(temp, code) := CombineRgn_AND rr r in
      match code with
      | NULLREGION => (X, Y, 0, 0, 2)
      | _ =>
          if EqualRgn temp rr then (X, Y, W, H, 0)
          else
            let rect := GetRgnBox temp in
            if negb (surface_is_display s) then
              let pt0 := DPtoLP (gc_ s) (left rect, top rect) in
              let pt1 := DPtoLP (gc_ s) (right rect, bottom rect) in
              (pt0.1, pt0.2, pt1.1 - pt0.1, pt1.2 - pt0.2, 1)
            else
              (left rect, top rect,
               right rect - left rect, bottom rect - top rect, 1)
      end
  end.

Definition not_clipped (x y w h : Z) (s : Driver) : Z :=
  if (x + w <=? 0) || (y + h <=? 0) then 0
  else
    match rstack_at s (rstackptr s) with
    | None => 1
    | Some r =>
        let rect :=
          if negb (surface_is_display s) then
            let pt0 := LPtoDP (gc_ s) (x, y) in
            let pt1 := LPtoDP (gc_ s) (x + w, y + h) in
            mkRECT pt0.1 pt0.2 pt1.1 pt1.2
          else mkRECT x y (x + w) (y + h) in
        if RectInRegion r rect then 1 else 0
    end.

(** ** Specification vocabulary for clipping *)

(** The region [clip_box] and [not_clipped] consult: the top of the stack. *)
Definition current_clip (s : Driver) : Fl_Region := rstack_at s (rstackptr s).

(** Pixels of a clip region; the [NULL] sentinel does not clip. *)
Definition in_clip (r : Fl_Region) (p : POINT) : bool :=
  match r with
  | None => true
  | Some rg => PtInRegion rg p
  end.

(** Pixels of the rectangle [(x, y, w, h)]. *)
Definition in_query (x y w h : Z) (p : POINT) : bool :=
  PtInRect (mkRECT x y (x + w) (y + h)) p.

(** Pixels the query rectangle shares with the current clip. *)
Definition shared (s : Driver) (x y w h : Z) (p : POINT) : bool :=
  in_query x y w h p && in_clip (current_clip s) p.

Definition status (res : Z * Z * Z * Z * Z) : Z := res.2.

Definition out_rect (res : Z * Z * Z * Z * Z) : Z * Z * Z * Z := res.1.

(** A driver on the display at scale 1, nothing pushed, with a stack of
    three slots; the context has a pen and a brush selected. *)
Definition example_dc : DC :=
  mkDC (0, 0) 1%N 2%N None [] (fun p => p) (fun p => p).

Definition example_objects : gmap N GDIOBJ :=
  <[1%N := Pen (mkPEN PS_SOLID 1 (mkLOGBRUSH BS_SOLID 0 0))]>
    (<[2%N := Brush (mkLOGBRUSH BS_SOLID 7 0)]> ∅).

Definition example_driver : Driver :=
  mkDriver (Some example_dc) example_objects [None; None; None] 0 2 1%Q
           0 0 2%N 0 true [].

(** The region [push_clip] builds before it touches the stack. *)
Definition new_clip_region (x y w h : Z) (s : Driver) : HRGN :=
  if (0 <? w) && (0 <? h) then
    match current_clip s with
    | Some cur => region_and (XRectangleRegion x y w h s) cur
    | None => XRectangleRegion x y w h s
    end
  else CreateRectRgn 0 0 0 0.

Definition overflow_message : string :=
  "Fl_GDI_Graphics_Driver::push_clip: clip stack overflow!" +:+ newline.

(** The stack pointer is inside the array [rstack], which has
    [region_stack_max + 1] slots. *)
Definition stack_wf (s : Driver) : Prop :=
  0 <= rstackptr s <= region_stack_max s /\
  Z.of_nat (length (rstack s)) = region_stack_max s + 1.

(** The states the clip stack goes through: it starts at the unclipped
    bottom sentinel and is changed by [push_clip] and by [pop_clip] above
    the bottom. *)
Inductive reachable : Driver -> Prop :=
| reach_init s :
    stack_wf s -> rstackptr s = 0 -> rstack_at s 0 = None -> reachable s
| reach_push s x y w h :
    reachable s -> reachable (push_clip x y w h s)
| reach_pop s s' :
    reachable s -> pop_clip s = Some s' -> reachable s'.

(** [clip_box] and [not_clipped] read the top of the stack, the kind of
    surface and the coordinate transform of the context, nothing else. *)
Definition same_clip_view (s s' : Driver) : Prop :=
  current_clip s' = current_clip s /\
  surface_is_display s' = surface_is_display s /\
  (forall p, LPtoDP (gc_ s') p = LPtoDP (gc_ s) p) /\
  (forall p, DPtoLP (gc_ s') p = DPtoLP (gc_ s) p).

(** ** Specification vocabulary for drawing *)

(** The device pixels a logical extent [(x, w)] is mapped to by
    [overlay_rect] and [focus_rect]: from [floor(x)] to [floor(x + w - 1)]. *)
Definition device_span (s : Driver) (x w : Z) : Z * Z :=
  (floor s x, floor s (x + w - 1)).

(** The requests the context of the driver has received. *)
Definition drawn (s : Driver) : list DrawOp :=
  match gc_ s with
  | Some dc => dc_ops dc
  | None => []
  end.

(** The example driver at scale factor 2. *)
Definition example_driver_2x : Driver :=
  mkDriver (Some example_dc) example_objects [None; None; None] 0 2 2%Q
           0 0 2%N 0 true [].

(** The outline of the device rectangle with the columns [l .. r] and the
    rows [t .. b], both ends included. *)
Definition on_perimeter (l t r b : Z) (p : POINT) : bool :=
  (l <=? p.1) && (p.1 <=? r) && (t <=? p.2) && (p.2 <=? b) &&
  ((p.1 =? l) || (p.1 =? r) || (p.2 =? t) || (p.2 =? b)).

(** The example driver after [push_clip(0, 0, 10, 10)]. *)
Definition example_clipped : Driver := push_clip 0 0 10 10 example_driver.

(** The example driver with its three slots in use. *)
Definition example_full : Driver :=
  push_clip 0 0 8 8 (push_clip 0 0 10 10 example_driver).

(** ** The query rectangle on the device

    The clip regions are kept in device units.  On the display logical
    and device units are the same; in a print context a point goes through
    [LPtoDP] on its way to the device and through [DPtoLP] on its way
    back. *)

Definition to_device (s : Driver) (p : POINT) : POINT :=
  if surface_is_display s then p else LPtoDP (gc_ s) p.

Definition to_logical (s : Driver) (p : POINT) : POINT :=
  if surface_is_display s then p else DPtoLP (gc_ s) p.

(** Device pixels of the query rectangle [(x, y, w, h)]: the rectangle
    from the device image of its corner [(x, y)] to the device image of
    its corner [(x + w, y + h)].  On the display these are the pixels
    [in_query] gives. *)
Definition query_pixels (s : Driver) (x y w h : Z) (p : POINT) : bool :=
  let p0 := to_device s (x, y) in
  let p1 := to_device s (x + w, y + h) in
  PtInRect (mkRECT p0.1 p0.2 p1.1 p1.2) p.

(** Device pixels the query rectangle shares with the current clip. *)
Definition device_shared (s : Driver) (x y w h : Z) (p : POINT) : bool :=
  query_pixels s x y w h p && in_clip (current_clip s) p.

(** A print context whose device units are the logical ones, after
    [push_clip(0, 0, 10, 10)]. *)
Definition example_print_clipped : Driver :=
  push_clip 0 0 10 10
    (mkDriver (Some example_dc) example_objects [None; None; None] 0 2 1%Q
              0 0 2%N 0 false []).

(** A print context with two device units to the logical unit, after
    [push_clip(0, 0, 10, 10)]. *)
Definition example_print_2x_clipped : Driver :=
  push_clip 0 0 10 10
    (mkDriver
       (Some (mkDC (0, 0) 1%N 2%N None []
                   (fun p => (2 * p.1, 2 * p.2))
                   (fun p => (p.1 / 2, p.2 / 2))))
       example_objects [None; None; None] 0 2 1%Q 0 0 2%N 0 false []).

(** ** Vocabulary for the further properties *)

(** Appends a list of requests to what a context has received. *)
Definition emit_all (ops : list DrawOp) (dc : DC) : DC :=
  mkDC (dc_pos dc) (dc_pen dc) (dc_brush dc) (dc_clip dc) (dc_ops dc ++ ops)
       (dc_LPtoDP dc) (dc_DPtoLP dc).

(** The elements of [l] that fall on an odd count when counting starts at
    [i]. *)
Fixpoint odd_from (i : Z) (l : list POINT) : list POINT :=
  match l with
  | [] => []
  | p :: l' => if Z.odd i then p :: odd_from (i + 1) l' else odd_from (i + 1) l'
  end.

(** The walk around the box with the corners [(X, Y)] and [(X + W, Y + H)]:
    top edge left to right, right edge downwards, bottom edge right to
    left, left edge upwards; each edge leaves its last corner to the next. *)
Definition outline_walk (X Y W H : Z) : list POINT :=
  map (fun xx => (X + xx, Y)) (upto 0 W) ++
  map (fun yy => (X + W, Y + yy)) (upto 0 H) ++
  map (fun xx => (X + xx, Y + H)) (downto W) ++
  map (fun yy => (X, Y + yy)) (downto H).

(** * File names (Windows system driver)

    A C string is modelled by the list of its characters up to the
    terminating NUL; a pointer into a string by the part of the string
    that starts there. *)

Definition isdirsep (c : ascii) : bool :=
  Ascii.eqb c "/"%char || Ascii.eqb c "\"%char.

(** The loop of [filename_ext]: [p] is the rest of the string still to be
    read, [q] the candidate found so far ([None] for the null pointer). *)
Fixpoint filename_ext_loop (p : list ascii) (q : option (list ascii))
  : list ascii :=
  match p with
  | [] => match q with
          | Some e => e
          | None => p
          end
  | c :: p' =>
      if isdirsep c then filename_ext_loop p' None
      else if Ascii.eqb c "."%char then filename_ext_loop p' (Some p)
      else filename_ext_loop p' q
  end.

Definition filename_ext (buf : list ascii) : list ascii :=
  filename_ext_loop buf None.

(** [strchr(s, c)]: the string from the first [c] on, or the null pointer;
    the terminating NUL counts as part of the string. *)
Fixpoint strchr (s : list ascii) (c : ascii) : option (list ascii) :=
  match s with
  | [] => if Ascii.eqb c Ascii.zero then Some [] else None
  | a :: s' => if Ascii.eqb a c then Some s else strchr s' c
  end.

Definition next_dir_sep (start : list ascii) : option (list ascii) :=
  match strchr start "/"%char with
  | Some p => Some p
  | None => strchr start "\"%char
  end.

(** * PNG post-processing (Windows system driver)

    The image is a buffer of bytes, four per pixel: red, green, blue,
    alpha. *)

(** The loop body at the pixel that starts at offset [off]:
    [if (!ptr[3]) ptr[0] = ptr[1] = ptr[2] = 0;].  Reading outside the
    buffer is undefined in C++; the model leaves the buffer alone then. *)
Definition png_pixel (off : nat) (buf : list Z) : list Z :=
  match buf !! (off + 3)%nat with
  | Some 0 => <[off := 0]> (<[(off + 1)%nat := 0]> (<[(off + 2)%nat := 0]> buf))
  | _ => buf
  end.

(** [for (int i = w * h; i > 0; i--, ptr += 4)] *)
Fixpoint png_loop (i : nat) (off : nat) (buf : list Z) : list Z :=
  match i with
  | O => buf
  | S i' => png_loop i' (off + 4) (png_pixel off buf)
  end.

Definition png_extra_rgba_processing (ptr : list Z) (w h : Z) : list Z :=
  png_loop (Z.to_nat (w * h)) 0 ptr.

(** * UTF-16 to UTF-8 (Windows system driver)

    [src] is the list of the [srclen] 16-bit units to convert, [dst] the
    destination buffer (one number per byte) and [dstlen] the size the
    caller states for it.  [unsigned] arithmetic wraps at [2 ^ 32]. *)

Definition u32 (z : Z) : Z := z mod 2 ^ 32.

(** The value a [char] keeps of an integer. *)
Definition to_char (z : Z) : Z := z mod 256.

(** [dst[i] = v]; no result when [i] is outside the buffer. *)
Definition poke (dst : list Z) (i v : Z) : option (list Z) :=
  if (0 <=? i) && (i <? Z.of_nat (length dst))
  then Some (<[Z.to_nat i := to_char v]> dst)
  else None.

(** [dst[count++] = b] for each byte [b] in turn. *)
Fixpoint put_bytes (dst : list Z) (count : Z) (bytes : list Z)
  : option (list Z) :=
  match bytes with
  | [] => Some dst
  | b :: bytes' =>
      match poke dst count b with
      | Some dst' => put_bytes dst' (u32 (count + 1)) bytes'
      | None => None
      end
  end.

Definition is_high (u : Z) : bool := (0xd800 <=? u) && (u <=? 0xdbff).
Definition is_low (u : Z) : bool := (0xdc00 <=? u) && (u <=? 0xdfff).

Definition enc2 (ucs : Z) : list Z :=
  [Z.lor 0xc0 (Z.shiftr ucs 6); Z.lor 0x80 (Z.land ucs 0x3F)].

Definition enc3 (ucs : Z) : list Z :=
  [Z.lor 0xe0 (Z.shiftr ucs 12);
   Z.lor 0x80 (Z.land (Z.shiftr ucs 6) 0x3F);
   Z.lor 0x80 (Z.land ucs 0x3F)].

Definition surrogate_pair (ucs ucs2 : Z) : Z :=
  u32 (u32 (0x10000 + Z.shiftl (Z.land ucs 0x3ff) 10) + Z.land ucs2 0x3ff).

Definition enc4 (ucs ucs2 : Z) : list Z :=
  let ucs := surrogate_pair ucs ucs2 in
  [Z.lor 0xf0 (Z.shiftr ucs 18);
   Z.lor 0x80 (Z.land (Z.shiftr ucs 12) 0x3F);
   Z.lor 0x80 (Z.land (Z.shiftr ucs 6) 0x3F);
   Z.lor 0x80 (Z.land ucs 0x3F)].

(** The second loop of [utf8fromwc], which only measures: [src] is what is
    left from index [i] on. *)
Fixpoint utf8_measure (src : list Z) (count : Z) : Z :=
  match src with
  | [] => count
  | ucs :: rest =>
      if ucs <? 0x80 then utf8_measure rest (u32 (count + 1))
      else if ucs <? 0x800 then utf8_measure rest (u32 (count + 2))
      else
        match rest with
        | _ :: ((next :: _) as rest') =>
            if is_high ucs && is_low next
            then utf8_measure rest' (u32 (count + 4))
            else utf8_measure rest (u32 (count + 3))
        | _ => utf8_measure rest (u32 (count + 3))
        end
  end.

(** The common part of the branches for two, three and four bytes:
    [if (count + n >= dstlen) {dst[count] = 0; count += n; break;}] and
    else the [n] stores.  The result says whether the loop was left, and
    gives the new [count] and buffer. *)
Definition put_or_break (dst : list Z) (dstlen count : Z) (bytes : list Z)
  : option (bool * Z * list Z) :=
  let n := Z.of_nat (length bytes) in
  if dstlen <=? u32 (count + n) then
    match poke dst count 0 with
    | Some dst' => Some (true, u32 (count + n), dst')
    | None => None
    end
  else
    match put_bytes dst count bytes with
    | Some dst' => Some (false, u32 (count + n), dst')
    | None => None
    end.

(** The first loop of [utf8fromwc], entered when [dstlen] is not 0; when
    it is left by [break] the measuring loop finishes the count. *)
Fixpoint utf8_fill (src : list Z) (count : Z) (dst : list Z) (dstlen : Z)
  : option (Z * list Z) :=
  match src with
  | [] =>
      match poke dst count 0 with
      | Some dst' => Some (count, dst')
      | None => None
      end
  | ucs :: rest =>
      if ucs <? 0x80 then
        match poke dst count ucs with
        | Some dst1 =>
            let count := u32 (count + 1) in
            if dstlen <=? count then
              match poke dst1 (u32 (count - 1)) 0 with
              | Some dst2 => Some (utf8_measure rest count, dst2)
              | None => None
              end
            else utf8_fill rest count dst1 dstlen
        | None => None
        end
      else if ucs <? 0x800 then
        match put_or_break dst dstlen count (enc2 ucs) with
        | Some (true, count, dst') => Some (utf8_measure rest count, dst')
        | Some (false, count, dst') => utf8_fill rest count dst' dstlen
        | None => None
        end
      else
        match rest with
        | ucs2 :: rest2 =>
            if is_high ucs && is_low ucs2 then
              match put_or_break dst dstlen count (enc4 ucs ucs2) with
              | Some (true, count, dst') => Some (utf8_measure rest2 count, dst')
              | Some (false, count, dst') => utf8_fill rest2 count dst' dstlen
              | None => None
              end
            else
              match put_or_break dst dstlen count (enc3 ucs) with
              | Some (true, count, dst') => Some (utf8_measure rest count, dst')
              | Some (false, count, dst') => utf8_fill rest count dst' dstlen
              | None => None
              end
        | [] =>
            match put_or_break dst dstlen count (enc3 ucs) with
            | Some (true, count, dst') => Some (utf8_measure rest count, dst')
            | Some (false, count, dst') => utf8_fill rest count dst' dstlen
            | None => None
            end
        end
  end.

(** [utf8fromwc(dst, dstlen, src, srclen)]: the returned count and the
    buffer afterwards; no result when a store falls outside [dst]. *)
Definition utf8fromwc (dst : list Z) (dstlen : Z) (src : list Z)
  : option (Z * list Z) :=
  if dstlen =? 0 then Some (utf8_measure src 0, dst)
  else utf8_fill src 0 dst dstlen.

(** The bytes the first loop stores for [src] when nothing stops it. *)
Fixpoint utf8_bytes (src : list Z) : list Z :=
  match src with
  | [] => []
  | ucs :: rest =>
      if ucs <? 0x80 then ucs :: utf8_bytes rest
      else if ucs <? 0x800 then enc2 ucs ++ utf8_bytes rest
      else
        match rest with
        | ucs2 :: rest2 =>
            if is_high ucs && is_low ucs2
            then enc4 ucs ucs2 ++ utf8_bytes rest2
            else enc3 ucs ++ utf8_bytes rest
        | [] => enc3 ucs ++ utf8_bytes rest
        end
  end.

(** [dst'] has the size of [dst] and the same bytes from index [dstlen]
    on. *)
Definition kept_beyond (dstlen : Z) (dst dst' : list Z) : Prop :=
  length dst' = length dst /\
  forall j : nat, dstlen <= Z.of_nat j -> dst' !! j = dst !! j.

(** ** Well-formed UTF-8

    The byte sequences the Unicode standard admits for one code point
    (table 3-7, well-formed UTF-8 byte sequences): no overlong form, no
    surrogate code point, nothing above [0x10FFFF]. *)

Definition in_range (lo hi b : Z) : bool := (lo <=? b) && (b <=? hi).

Definition well_formed_utf8 (bs : list Z) : bool :=
  match bs with
  | [b1] => in_range 0x00 0x7f b1
  | [b1; b2] => in_range 0xc2 0xdf b1 && in_range 0x80 0xbf b2
  | [b1; b2; b3] =>
      ((b1 =? 0xe0) && in_range 0xa0 0xbf b2
       || in_range 0xe1 0xec b1 && in_range 0x80 0xbf b2
       || (b1 =? 0xed) && in_range 0x80 0x9f b2
       || in_range 0xee 0xef b1 && in_range 0x80 0xbf b2)
      && in_range 0x80 0xbf b3
  | [b1; b2; b3; b4] =>
      ((b1 =? 0xf0) && in_range 0x90 0xbf b2
       || in_range 0xf1 0xf3 b1 && in_range 0x80 0xbf b2
       || (b1 =? 0xf4) && in_range 0x80 0x8f b2)
      && in_range 0x80 0xbf b3 && in_range 0x80 0xbf b4
  | _ => false
  end.

(** The code point a sequence of one to four bytes stands for: the low
    bits of the lead byte, then six bits from each byte that follows. *)
Definition utf8_value (bs : list Z) : Z :=
  match bs with
  | [b1] => b1
  | [b1; b2] => (b1 - 0xc0) * 64 + (b2 - 0x80)
  | [b1; b2; b3] => (b1 - 0xe0) * 4096 + (b2 - 0x80) * 64 + (b3 - 0x80)
  | [b1; b2; b3; b4] =>
      (b1 - 0xf0) * 262144 + (b2 - 0x80) * 4096 + (b3 - 0x80) * 64 + (b4 - 0x80)
  | _ => 0
  end.

(** * Proofs *)

(** ** Facts about the region model *)

Lemma PtInRect_iff rc p :
  PtInRect rc p = true <->
  left rc <= p.1 < right rc /\ top rc <= p.2 < bottom rc.
Proof. unfold PtInRect. rewrite !andb_true_iff. lia. Qed.

Lemma PtInRect_empty rc p : IsRectEmpty rc = true -> PtInRect rc p = false.
Proof.
  unfold IsRectEmpty. rewrite orb_true_iff. intros H.
  apply not_true_is_false. rewrite PtInRect_iff. lia.
Qed.

Lemma PtInRect_corner rc :
  IsRectEmpty rc = false -> PtInRect rc (left rc, top rc) = true.
Proof.
  unfold IsRectEmpty. rewrite orb_false_iff. intros H.
  apply PtInRect_iff. simpl. lia.
Qed.

Lemma PtInRect_Intersect a b p :
  PtInRect (IntersectRect a b) p = PtInRect a p && PtInRect b p.
Proof.
  apply eq_true_iff_eq. rewrite andb_true_iff, !PtInRect_iff. simpl. lia.
Qed.

Lemma PtInRegion_iff r p :
  PtInRegion r p = true <-> exists rc, In rc r /\ PtInRect rc p = true.
Proof. unfold PtInRegion. apply existsb_exists. Qed.

Lemma PtInRegion_app r1 r2 p :
  PtInRegion (r1 ++ r2) p = PtInRegion r1 p || PtInRegion r2 p.
Proof. unfold PtInRegion. apply existsb_app. Qed.

Lemma region_is_empty_iff r :
  region_is_empty r = true <-> forall p, PtInRegion r p = false.
Proof.
  unfold region_is_empty. rewrite forallb_forall. split.
  - intros H p. apply not_true_is_false. rewrite PtInRegion_iff.
    intros (rc & Hin & Hp). rewrite (PtInRect_empty rc p (H rc Hin)) in Hp.
    discriminate.
  - intros H rc Hin. destruct (IsRectEmpty rc) eqn:E; [reflexivity|].
    specialize (H (left rc, top rc)). apply not_true_iff_false in H.
    exfalso. apply H, PtInRegion_iff. exists rc. split; [assumption|].
    now apply PtInRect_corner.
Qed.

Lemma PtInRegion_CreateRectRgn l t r b p :
  l <= r -> t <= b ->
  PtInRegion (CreateRectRgn l t r b) p = PtInRect (mkRECT l t r b) p.
Proof.
  intros Hl Ht. unfold CreateRectRgn, PtInRegion, order_rect. simpl.
  rewrite orb_false_r. apply eq_true_iff_eq. rewrite !PtInRect_iff. simpl. lia.
Qed.

Lemma PtInRegion_map_Intersect a r p :
  PtInRegion (map (IntersectRect a) r) p = PtInRect a p && PtInRegion r p.
Proof.
  unfold PtInRegion. induction r as [|b r IH]; simpl.
  - now rewrite andb_false_r.
  - rewrite IH, PtInRect_Intersect. now rewrite andb_orb_distrib_r.
Qed.

Lemma PtInRegion_and r1 r2 p :
  PtInRegion (region_and r1 r2) p = PtInRegion r1 p && PtInRegion r2 p.
Proof.
  unfold region_and. induction r1 as [|a r1 IH]; simpl; [reflexivity|].
  rewrite PtInRegion_app, IH, PtInRegion_map_Intersect.
  now rewrite andb_orb_distrib_l.
Qed.

Lemma PtInRegion_rect_minus a b p :
  PtInRegion (rect_minus a b) p = PtInRect a p && negb (PtInRect b p).
Proof.
  apply eq_true_iff_eq. unfold rect_minus, PtInRegion. simpl.
  rewrite !orb_true_iff, andb_true_iff, negb_true_iff, <- not_true_iff_false.
  rewrite !PtInRect_iff. simpl. lia.
Qed.

Lemma PtInRegion_minus_rect r b p :
  PtInRegion (region_minus_rect r b) p = PtInRegion r p && negb (PtInRect b p).
Proof.
  unfold region_minus_rect. induction r as [|a r IH]; cbn [flat_map];
    [reflexivity|].
  rewrite PtInRegion_app, IH, PtInRegion_rect_minus.
  change (PtInRegion (a :: r) p) with (PtInRect a p || PtInRegion r p).
  now rewrite andb_orb_distrib_l.
Qed.

Lemma PtInRegion_diff r1 r2 p :
  PtInRegion (region_diff r1 r2) p = PtInRegion r1 p && negb (PtInRegion r2 p).
Proof.
  unfold region_diff. revert r1. induction r2 as [|b r2 IH]; intros r1; simpl.
  - now rewrite andb_true_r.
  - rewrite IH, PtInRegion_minus_rect, negb_orb. now rewrite andb_assoc.
Qed.

Lemma region_diff_empty_iff r1 r2 :
  region_is_empty (region_diff r1 r2) = true <->
  forall p, PtInRegion r1 p = true -> PtInRegion r2 p = true.
Proof.
  rewrite region_is_empty_iff. split; intros H p.
  - intros H1. specialize (H p). rewrite PtInRegion_diff, H1 in H.
    simpl in H. now apply negb_false_iff in H.
  - rewrite PtInRegion_diff. destruct (PtInRegion r1 p) eqn:E; [|reflexivity].
    simpl. now rewrite (H p E).
Qed.

Lemma EqualRgn_iff r1 r2 :
  EqualRgn r1 r2 = true <-> forall p, PtInRegion r1 p = PtInRegion r2 p.
Proof.
  unfold EqualRgn. rewrite andb_true_iff, !region_diff_empty_iff. split.
  - intros [H12 H21] p. apply eq_true_iff_eq. split; auto.
  - intros H. split; intros p Hp; [rewrite <- H | rewrite H]; assumption.
Qed.

Lemma rgn_box_None r : rgn_box r = None <-> region_is_empty r = true.
Proof.
  induction r as [|rc r IH]; simpl; [tauto|].
  destruct (IsRectEmpty rc); simpl; [exact IH|].
  split; discriminate.
Qed.

Lemma touches_mono (S T : POINT -> bool) bx :
  (forall p, S p = true -> T p = true) -> touches S bx -> touches T bx.
Proof.
  intros HST (H1 & H2 & H3 & H4).
  repeat split;
    [destruct H1 as (p & ? & ?) | destruct H2 as (p & ? & ?)
    |destruct H3 as (p & ? & ?) | destruct H4 as (p & ? & ?)];
    exists p; auto.
Qed.

Lemma touches_rect rc :
  IsRectEmpty rc = false -> touches (PtInRect rc) rc.
Proof.
  unfold IsRectEmpty. rewrite orb_false_iff. intros H.
  repeat split;
    [exists (left rc, top rc) | exists (right rc - 1, top rc)
    |exists (left rc, top rc) | exists (left rc, bottom rc - 1)];
    (split; [apply PtInRect_iff; simpl; lia | reflexivity]).
Qed.

Lemma touches_union (S : POINT -> bool) a b :
  touches S a -> touches S b -> touches S (UnionRect a b).
Proof.
  intros (A1 & A2 & A3 & A4) (B1 & B2 & B3 & B4).
  unfold touches, UnionRect; simpl. repeat split.
  - destruct (Z.min_spec (left a) (left b)) as [[_ ->]|[_ ->]]; assumption.
  - destruct (Z.max_spec (right a) (right b)) as [[_ ->]|[_ ->]]; assumption.
  - destruct (Z.min_spec (top a) (top b)) as [[_ ->]|[_ ->]]; assumption.
  - destruct (Z.max_spec (bottom a) (bottom b)) as [[_ ->]|[_ ->]]; assumption.
Qed.

Lemma PtInRect_Union_l a b p :
  PtInRect a p = true -> PtInRect (UnionRect a b) p = true.
Proof. rewrite !PtInRect_iff. simpl. lia. Qed.

Lemma PtInRect_Union_r a b p :
  PtInRect b p = true -> PtInRect (UnionRect a b) p = true.
Proof. rewrite !PtInRect_iff. simpl. lia. Qed.

Lemma rgn_box_Some r bx :
  rgn_box r = Some bx ->
  (forall p, PtInRegion r p = true -> PtInRect bx p = true) /\
  touches (PtInRegion r) bx.
Proof.
  revert bx. induction r as [|rc r IH]; intros bx; simpl; [discriminate|].
  destruct (IsRectEmpty rc) eqn:E.
  - intros Hb. destruct (IH bx Hb) as [Hin Ht]. split.
    + intros p. rewrite (PtInRect_empty rc p E). simpl. apply Hin.
    + eapply touches_mono; [|exact Ht]. intros p Hp.
      change (PtInRegion (rc :: r) p) with (PtInRect rc p || PtInRegion r p).
      rewrite Hp. apply orb_true_r.
  - destruct (rgn_box r) as [bx'|] eqn:Er; intros [= <-].
    + destruct (IH bx' eq_refl) as [Hin Ht]. split.
      * intros p. rewrite orb_true_iff. intros [Hp|Hp].
        -- now apply PtInRect_Union_l.
        -- now apply PtInRect_Union_r, Hin.
      * apply touches_union.
        -- eapply touches_mono; [|apply touches_rect, E].
           intros p Hp. simpl. now rewrite Hp.
        -- eapply touches_mono; [|exact Ht].
           intros p Hp. simpl. rewrite Hp. apply orb_true_r.
    + apply rgn_box_None in Er.
      pose proof (proj1 (region_is_empty_iff r) Er) as Hr. split.
      * intros p. change (PtInRegion r p) with (existsb (fun rc => PtInRect rc p) r).
        fold (PtInRegion r p). rewrite Hr, orb_false_r. auto.
      * eapply touches_mono; [|apply touches_rect, E].
        intros p Hp. simpl. now rewrite Hp.
Qed.

Lemma touches_bounds (S : POINT -> bool) bx rc :
  touches S bx -> (forall p, S p = true -> PtInRect rc p = true) ->
  left rc <= left bx /\ top rc <= top bx /\
  right bx <= right rc /\ bottom bx <= bottom rc.
Proof.
  intros ((p1 & S1 & E1) & (p2 & S2 & E2) & (p3 & S3 & E3) & (p4 & S4 & E4)) H.
  apply H, PtInRect_iff in S1, S2, S3, S4. lia.
Qed.

Lemma GetRgnBox_bounding r :
  region_is_empty r = false -> is_bounding_box (GetRgnBox r) (PtInRegion r).
Proof.
  intros Hne. unfold GetRgnBox. destruct (rgn_box r) as [bx|] eqn:E.
  - destruct (rgn_box_Some r bx E) as [Hin Ht]. split; [exact Hin|].
    intros rc Hrc. now apply (touches_bounds (PtInRegion r)).
  - apply rgn_box_None in E. congruence.
Qed.

(** ** Properties of [clip_box] *)

Lemma region_type_NULL r :
  region_type r = NULLREGION <-> region_is_empty r = true.
Proof.
  unfold region_type. destruct (region_is_empty r); [tauto|].
  destruct (EqualRgn _ _); split; discriminate.
Qed.

Lemma is_bounding_box_ext bx (S T : POINT -> bool) :
  (forall p, S p = T p) -> is_bounding_box bx S -> is_bounding_box bx T.
Proof.
  intros E [H1 H2]. split.
  - intros p Hp. apply H1. now rewrite E.
  - intros rc Hrc. apply H2. intros p Hp. apply Hrc. now rewrite <- E.
Qed.

Lemma XRectangleRegion_display s x y w h p :
  surface_is_display s = true -> 0 <= w -> 0 <= h ->
  PtInRegion (XRectangleRegion x y w h s) p = in_query x y w h p.
Proof.
  intros Hd Hw Hh. unfold XRectangleRegion, in_query. rewrite Hd.
  apply PtInRegion_CreateRectRgn; lia.
Qed.

Lemma in_query_corner x y w h :
  0 < w -> 0 < h -> in_query x y w h (x, y) = true.
Proof. intros. apply PtInRect_iff. simpl. lia. Qed.

Lemma clip_box_unclipped s x y w h :
  current_clip s = None -> clip_box x y w h s = (x, y, w, h, 0).
Proof. unfold clip_box, current_clip. now intros ->. Qed.

Lemma clip_box_disjoint s x y w h r :
  current_clip s = Some r ->
  region_is_empty (region_and (XRectangleRegion x y w h s) r) = true ->
  clip_box x y w h s = (x, y, 0, 0, 2).
Proof.
  unfold clip_box, current_clip. intros -> He. unfold CombineRgn_AND.
  now rewrite (proj2 (region_type_NULL _) He).
Qed.

Lemma clip_box_overlap s x y w h r :
  current_clip s = Some r ->
  region_is_empty (region_and (XRectangleRegion x y w h s) r) = false ->
  clip_box x y w h s =
    let rr := XRectangleRegion x y w h s in
    let temp := region_and rr r in
    if EqualRgn temp rr then (x, y, w, h, 0)
    else
      let rect := GetRgnBox temp in
      if negb (surface_is_display s) then
        let pt0 := DPtoLP (gc_ s) (left rect, top rect) in
        let pt1 := DPtoLP (gc_ s) (right rect, bottom rect) in
        (pt0.1, pt0.2, pt1.1 - pt0.1, pt1.2 - pt0.2, 1)
      else
        (left rect, top rect, right rect - left rect, bottom rect - top rect, 1).
Proof.
  unfold clip_box, current_clip. intros -> He. unfold CombineRgn_AND.
  destruct (region_type _) eqn:Et; try reflexivity.
  apply region_type_NULL in Et. congruence.
Qed.

Lemma query_pixels_display s x y w h p :
  surface_is_display s = true ->
  query_pixels s x y w h p = in_query x y w h p.
Proof.
  intros Hd. unfold query_pixels, to_device, in_query. now rewrite Hd.
Qed.

Lemma query_pixels_display_nonempty s x y w h :
  surface_is_display s = true ->
  (exists p, query_pixels s x y w h p = true) <-> 0 < w /\ 0 < h.
Proof.
  intros Hd. split.
  - intros [p Hp]. rewrite (query_pixels_display s x y w h p Hd) in Hp.
    apply PtInRect_iff in Hp. cbn [left top right bottom] in Hp. lia.
  - intros [Hw Hh]. exists (x, y).
    rewrite (query_pixels_display s x y w h (x, y) Hd).
    now apply in_query_corner.
Qed.

Lemma XRectangleRegion_pixels s x y w h :
  (exists p, query_pixels s x y w h p = true) ->
  forall p, PtInRegion (XRectangleRegion x y w h s) p = query_pixels s x y w h p.
Proof.
  intros [q Hq] p. unfold query_pixels, to_device in *.
  unfold XRectangleRegion. destruct (surface_is_display s);
    cbv zeta in *; apply PtInRect_iff in Hq; cbn [left top right bottom] in Hq;
    apply PtInRegion_CreateRectRgn; lia.
Qed.

Lemma clip_box_status_device s x y w h :
  (exists p, query_pixels s x y w h p = true) ->
  let res := clip_box x y w h s in
  (status res = 2 <-> forall p, device_shared s x y w h p = false) /\
  (status res = 2 -> out_rect res = (x, y, 0, 0)) /\
  (status res = 0 <->
     forall p, query_pixels s x y w h p = true ->
               in_clip (current_clip s) p = true) /\
  (status res = 0 -> out_rect res = (x, y, w, h)) /\
  (status res <> 2 -> status res <> 0 ->
     status res = 1 /\
     exists bx, is_bounding_box bx (device_shared s x y w h) /\
       let a := to_logical s (left bx, top bx) in
       let b := to_logical s (right bx, bottom bx) in
       out_rect res = (a.1, a.2, b.1 - a.1, b.2 - a.2)).
Proof.
  intros Hne res. subst res. pose proof (XRectangleRegion_pixels s x y w h Hne) as Hx.
  destruct Hne as [c Hc].
  unfold device_shared. destruct (current_clip s) as [r|] eqn:Ec.
  2:{ rewrite (clip_box_unclipped s x y w h Ec).
      cbn [status out_rect fst snd in_clip].
      split; [|split; [|split; [|split]]];
        try discriminate; try tauto.
      - split; [discriminate|].
        intros H. specialize (H c). rewrite Hc in H. discriminate. }
  cbn [in_clip].
  assert (Hq : forall p, PtInRegion (region_and (XRectangleRegion x y w h s) r) p
                         = query_pixels s x y w h p && PtInRegion r p).
  { intros p. now rewrite PtInRegion_and, Hx. }
  destruct (region_is_empty (region_and (XRectangleRegion x y w h s) r)) eqn:He.
  - rewrite (clip_box_disjoint s x y w h r Ec He).
    cbn [status out_rect fst snd].
    pose proof (proj1 (region_is_empty_iff _) He) as Hno.
    split; [|split; [|split; [|split]]];
      try discriminate; try tauto.
    + split; [|reflexivity]. intros _ p. rewrite <- Hq. apply Hno.
    + split; [discriminate|].
      intros Hsub. specialize (Hno c). rewrite Hq, Hc in Hno.
      rewrite (Hsub c Hc) in Hno. discriminate.
  - rewrite (clip_box_overlap s x y w h r Ec He). cbv zeta.
    assert (Hsome : ~ forall p, query_pixels s x y w h p && PtInRegion r p = false).
    { intros Hall. apply not_true_iff_false in He. apply He.
      apply region_is_empty_iff. intros p. rewrite Hq. apply Hall. }
    destruct (EqualRgn _ _) eqn:Eq.
    + cbn [status out_rect fst snd].
      pose proof (proj1 (EqualRgn_iff _ _) Eq) as Hsame.
      split; [|split; [|split; [|split]]];
        try discriminate; try tauto.
      * split; [discriminate|]. intros H. now destruct Hsome.
      * split; [|reflexivity]. intros _ p Hp. specialize (Hsame p).
        rewrite Hq, Hx, Hp in Hsame. exact Hsame.
    + assert (Hnsub : ~ forall p, query_pixels s x y w h p = true ->
                                  PtInRegion r p = true).
      { intros Hsub. apply not_true_iff_false in Eq. apply Eq.
        apply EqualRgn_iff. intros p. rewrite Hq, Hx.
        destruct (query_pixels s x y w h p) eqn:Ep; [|reflexivity].
        now rewrite (Hsub p Ep). }
      set (bx := GetRgnBox (region_and (XRectangleRegion x y w h s) r)).
      assert (Hbx : is_bounding_box bx
                (fun p => query_pixels s x y w h p && PtInRegion r p)).
      { apply (is_bounding_box_ext _
                 (PtInRegion (region_and (XRectangleRegion x y w h s) r)));
          [exact Hq|].
        now apply GetRgnBox_bounding. }
      unfold to_logical.
      destruct (surface_is_display s); cbn [negb status out_rect fst snd];
        (split; [|split; [|split; [|split]]]; try discriminate; try tauto;
         [ split; [discriminate|]; intros H; now destruct Hsome
         | split; [discriminate|]; intros H; now destruct Hnsub
         | intros _ _; split; [reflexivity|];
           exists bx; split; [exact Hbx | reflexivity] ]).
Qed.

(** C1 (as amended).  For a query rectangle that covers at least one
    device pixel (on the display: [w > 0] and [h > 0]) and any clip state,
    on the display and in a print context alike: [clip_box] returns
    status 2, with [W = H = 0], exactly when the rectangle's device pixels
    and the current clip share no pixel; status 0, with the output
    rectangle equal to the input, exactly when they all lie inside the
    current clip (the unclipped sentinel included); and status 1
    otherwise, with [(X, Y, W, H)] the bounding box of the shared pixels,
    its corners taken back to logical units in a print context. *)
Theorem clip_box_status s x y w h :
  (exists p, query_pixels s x y w h p = true) ->
  let res := clip_box x y w h s in
  (status res = 2 <-> forall p, device_shared s x y w h p = false) /\
  (status res = 2 -> out_rect res = (x, y, 0, 0)) /\
  (status res = 0 <->
     forall p, query_pixels s x y w h p = true ->
               in_clip (current_clip s) p = true) /\
  (status res = 0 -> out_rect res = (x, y, w, h)) /\
  (status res <> 2 -> status res <> 0 ->
     status res = 1 /\
     exists bx, is_bounding_box bx (device_shared s x y w h) /\
       let a := to_logical s (left bx, top bx) in
       let b := to_logical s (right bx, bottom bx) in
       out_rect res = (a.1, a.2, b.1 - a.1, b.2 - a.2)) /\
  (surface_is_display s = true ->
     0 < w /\ 0 < h /\
     forall p, query_pixels s x y w h p = in_query x y w h p /\
               device_shared s x y w h p = shared s x y w h p).
Proof.
  intros Hne res.
  destruct (clip_box_status_device s x y w h Hne) as (H1 & H2 & H3 & H4 & H5).
  split; [exact H1|]. split; [exact H2|]. split; [exact H3|].
  split; [exact H4|]. split; [exact H5|].
  intros Hd.
  destruct (proj1 (query_pixels_display_nonempty s x y w h Hd) Hne) as [Hw Hh].
  split; [exact Hw|]. split; [exact Hh|].
  intros p. unfold device_shared, shared.
  now rewrite (query_pixels_display s x y w h p Hd).
Qed.

(** ** [restore_clip] leaves the stack alone *)

Lemma rstack_at_Some s i r :
  rstack_at s i = Some r -> rstack s !! Z.to_nat i = Some (Some r).
Proof.
  unfold rstack_at. destruct (rstack s !! Z.to_nat i) as [o|]; simpl.
  - now intros ->.
  - discriminate.
Qed.

Lemma rstack_store_back s i r r' :
  rstack_at s i = Some r ->
  rstack (rstack_store i (Some r) (rstack_store i r' s)) = rstack s.
Proof.
  intros H. apply rstack_at_Some in H. unfold rstack_store. simpl.
  rewrite list_insert_insert_eq. now apply list_insert_id.
Qed.

(** What [restore_clip] changes: [fl_clip_state_number] and the clip
    region selected into the context. *)
Lemma restore_clip_effect s :
  restore_clip s =
    set_gc (option_map (SelectClipRgn
                          (match current_clip s with
                           | Some r =>
                               if Qeq_bool (scale s) 1 then Some r
                               else Some (scale_region s r)
                           | None => None
                           end)) (gc_ s))
           (set_fl_clip_state_number (fl_clip_state_number s + 1) s).
Proof.
  unfold restore_clip, current_clip.
  destruct s as [g objs st sp mx sc col rgb br n disp ws]. cbn.
  destruct g as [dc|]; [|reflexivity]. cbn.
  unfold rstack_at at 1. cbn.
  destruct (st !! Z.to_nat sp) as [[r|]|] eqn:E; cbn.
  - unfold scale_clip, rstack_at. cbn. rewrite E. cbn.
    destruct (Qeq_bool sc 1); cbn.
    + unfold on_gc, rstack_at, set_gc. cbn. now rewrite E.
    + unfold on_gc, rstack_at, set_gc, unscale_clip, rstack_store, set_rstack.
      cbn. rewrite list_lookup_insert_eq by (now apply lookup_lt_Some in E).
      cbn. rewrite list_insert_insert_eq, list_insert_id by exact E.
      reflexivity.
  - unfold on_gc, rstack_at, set_gc. cbn. now rewrite E.
  - unfold on_gc, rstack_at, set_gc. cbn. now rewrite E.
Qed.

Lemma restore_clip_rstack s : rstack (restore_clip s) = rstack s.
Proof. now rewrite restore_clip_effect. Qed.

Lemma restore_clip_rstackptr s : rstackptr (restore_clip s) = rstackptr s.
Proof. now rewrite restore_clip_effect. Qed.

Lemma restore_clip_current_clip s :
  current_clip (restore_clip s) = current_clip s.
Proof. now rewrite restore_clip_effect. Qed.

Lemma restore_clip_display s :
  surface_is_display (restore_clip s) = surface_is_display s.
Proof. now rewrite restore_clip_effect. Qed.

Lemma restore_clip_LPtoDP s p :
  LPtoDP (gc_ (restore_clip s)) p = LPtoDP (gc_ s) p.
Proof. rewrite restore_clip_effect. now destruct (gc_ s). Qed.

Lemma restore_clip_DPtoLP s p :
  DPtoLP (gc_ (restore_clip s)) p = DPtoLP (gc_ s) p.
Proof. rewrite restore_clip_effect. now destruct (gc_ s). Qed.

(** ** [push_clip] *)

Lemma push_clip_eq x y w h s :
  push_clip x y w h s =
    restore_clip
      (if rstackptr s <? region_stack_max s
       then rstack_store (rstackptr s + 1) (Some (new_clip_region x y w h s))
                         (set_rstackptr (rstackptr s + 1) s)
       else Fl_warning overflow_message s).
Proof.
  unfold push_clip, new_clip_region, current_clip, fl_restore_clip.
  destruct ((0 <? w) && (0 <? h)); [|reflexivity].
  destruct (rstack_at s (rstackptr s)); reflexivity.
Qed.

Lemma new_clip_region_pixels x y w h s p :
  0 < w -> 0 < h ->
  PtInRegion (new_clip_region x y w h s) p =
    PtInRegion (XRectangleRegion x y w h s) p && in_clip (current_clip s) p.
Proof.
  intros Hw Hh. unfold new_clip_region.
  replace ((0 <? w) && (0 <? h)) with true
    by (symmetry; apply andb_true_iff; lia).
  destruct (current_clip s) as [cur|]; simpl.
  - apply PtInRegion_and.
  - now rewrite andb_true_r.
Qed.

Lemma new_clip_region_degenerate x y w h s p :
  w <= 0 \/ h <= 0 -> PtInRegion (new_clip_region x y w h s) p = false.
Proof.
  intros Hd. unfold new_clip_region.
  replace ((0 <? w) && (0 <? h)) with false
    by (symmetry; apply andb_false_iff; lia).
  now apply (proj1 (region_is_empty_iff (CreateRectRgn 0 0 0 0))).
Qed.

Lemma new_clip_region_narrows x y w h s p :
  PtInRegion (new_clip_region x y w h s) p = true ->
  in_clip (current_clip s) p = true.
Proof.
  destruct (Z_lt_le_dec 0 w) as [Hw|Hw]; [destruct (Z_lt_le_dec 0 h) as [Hh|Hh]|].
  - rewrite new_clip_region_pixels by assumption.
    now intros [_ H]%andb_true_iff.
  - rewrite new_clip_region_degenerate by lia. discriminate.
  - rewrite new_clip_region_degenerate by lia. discriminate.
Qed.

Lemma rstack_at_store_eq s i r :
  0 <= i < Z.of_nat (length (rstack s)) ->
  rstack_at (rstack_store i r s) i = r.
Proof.
  intros Hi. unfold rstack_at, rstack_store. simpl.
  rewrite list_lookup_insert_eq by lia. reflexivity.
Qed.

Lemma rstack_at_store_ne s i j r :
  0 <= i -> 0 <= j -> i <> j ->
  rstack_at (rstack_store i r s) j = rstack_at s j.
Proof.
  intros Hi Hj Hne. unfold rstack_at, rstack_store. simpl.
  rewrite list_lookup_insert_ne by lia. reflexivity.
Qed.

Lemma rstack_at_restore_clip s i :
  rstack_at (restore_clip s) i = rstack_at s i.
Proof. unfold rstack_at. now rewrite restore_clip_rstack. Qed.

Lemma push_clip_room x y w h s :
  stack_wf s -> rstackptr s < region_stack_max s ->
  rstackptr (push_clip x y w h s) = rstackptr s + 1 /\
  current_clip (push_clip x y w h s) = Some (new_clip_region x y w h s) /\
  (forall i, 0 <= i <= rstackptr s ->
     rstack_at (push_clip x y w h s) i = rstack_at s i) /\
  stack_wf (push_clip x y w h s).
Proof.
  intros [Hp Hl] Hroom. rewrite push_clip_eq.
  replace (rstackptr s <? region_stack_max s) with true
    by (symmetry; apply Z.ltb_lt; lia).
  split; [now rewrite restore_clip_rstackptr|].
  split; [|split].
  - rewrite restore_clip_current_clip. unfold current_clip.
    change (rstackptr (rstack_store _ _ _)) with (rstackptr s + 1).
    apply rstack_at_store_eq. simpl. lia.
  - intros i Hi. rewrite rstack_at_restore_clip.
    rewrite rstack_at_store_ne by lia. reflexivity.
  - unfold stack_wf. rewrite restore_clip_rstackptr, restore_clip_rstack.
    rewrite restore_clip_effect. simpl. rewrite length_insert. lia.
Qed.

Lemma push_clip_full x y w h s :
  region_stack_max s <= rstackptr s ->
  push_clip x y w h s = restore_clip (Fl_warning overflow_message s).
Proof.
  intros Hfull. rewrite push_clip_eq.
  replace (rstackptr s <? region_stack_max s) with false
    by (symmetry; apply Z.ltb_ge; lia).
  reflexivity.
Qed.

(** C2.  With room on the stack, [push_clip] makes a new top entry.  For
    [w > 0] and [h > 0] its pixels are exactly those of the requested
    rectangle (as a region) that are also in the previous top, pixel by
    pixel; on the display the requested region is the rectangle
    [(x, y, w, h)] itself.  For [w <= 0] or [h <= 0] the new top is an empty
    region, pushed like any other, without a warning.  The entries below
    stay as they were. *)
Theorem push_clip_pushes_intersection s x y w h :
  stack_wf s -> rstackptr s < region_stack_max s ->
  let s' := push_clip x y w h s in
  rstackptr s' = rstackptr s + 1 /\
  warnings s' = warnings s /\
  (forall i, 0 <= i <= rstackptr s -> rstack_at s' i = rstack_at s i) /\
  exists r, current_clip s' = Some r /\
    (0 < w -> 0 < h ->
       (forall p, PtInRegion r p =
          PtInRegion (XRectangleRegion x y w h s) p && in_clip (current_clip s) p) /\
       (surface_is_display s = true ->
          forall p, PtInRegion r p =
            in_query x y w h p && in_clip (current_clip s) p)) /\
    (w <= 0 \/ h <= 0 -> forall p, PtInRegion r p = false).
Proof.
  intros Hwf Hroom s'.
  destruct (push_clip_room x y w h s Hwf Hroom) as (Hptr & Htop & Hbelow & _).
  split; [exact Hptr|]. split; [|split; [exact Hbelow|]].
  - subst s'. rewrite push_clip_eq, restore_clip_effect.
    replace (rstackptr s <? region_stack_max s) with true
      by (symmetry; apply Z.ltb_lt; lia).
    reflexivity.
  - exists (new_clip_region x y w h s). split; [exact Htop|]. split.
    + intros Hw Hh. split.
      * intros p. now apply new_clip_region_pixels.
      * intros Hd p. rewrite new_clip_region_pixels by assumption.
        now rewrite XRectangleRegion_display by (assumption || lia).
    + intros Hdeg p. now apply new_clip_region_degenerate.
Qed.

Lemma XRectangleRegion_frame s s' x y w h :
  same_clip_view s s' ->
  XRectangleRegion x y w h s' = XRectangleRegion x y w h s.
Proof.
  intros (_ & Hd & HL & _). unfold XRectangleRegion. now rewrite Hd, !HL.
Qed.

Lemma clip_box_frame s s' x y w h :
  same_clip_view s s' -> clip_box x y w h s' = clip_box x y w h s.
Proof.
  intros Hv. pose proof (XRectangleRegion_frame s s' x y w h Hv) as HX.
  destruct Hv as (Hc & Hd & HL & HD). unfold current_clip in Hc.
  unfold clip_box, CombineRgn_AND. rewrite Hc, HX, Hd.
  destruct (rstack_at s (rstackptr s)) as [r|]; [|reflexivity].
  cbv beta iota zeta.
  destruct (region_type _); try reflexivity;
    (destruct (EqualRgn _ _); [reflexivity|]);
    (destruct (surface_is_display s); cbn [negb]; [reflexivity|]);
    now rewrite !HD.
Qed.

Lemma not_clipped_frame s s' x y w h :
  same_clip_view s s' -> not_clipped x y w h s' = not_clipped x y w h s.
Proof.
  intros (Hc & Hd & HL & HD). unfold current_clip in Hc.
  unfold not_clipped. now rewrite Hc, Hd, !HL.
Qed.

Lemma restore_clip_view s : same_clip_view s (restore_clip s).
Proof.
  repeat split.
  - apply restore_clip_current_clip.
  - apply restore_clip_display.
  - apply restore_clip_LPtoDP.
  - apply restore_clip_DPtoLP.
Qed.

(** C4.  When the stack is at its maximum depth, [push_clip] hands one
    warning to [Fl::warning] and returns (the model is a total function);
    the stack pointer, the whole stack and so the effective clip region
    are what they were, [clip_box] and [not_clipped] answer as before, and
    the context gets the unchanged top selected again. *)
Theorem push_clip_overflow s x y w h :
  region_stack_max s <= rstackptr s ->
  let s' := push_clip x y w h s in
  warnings s' = warnings s ++ [overflow_message] /\
  rstackptr s' = rstackptr s /\
  rstack s' = rstack s /\
  current_clip s' = current_clip s /\
  (forall a b c d, clip_box a b c d s' = clip_box a b c d s) /\
  (forall a b c d, not_clipped a b c d s' = not_clipped a b c d s) /\
  gc_ s' = gc_ (restore_clip s).
Proof.
  intros Hfull s'. subst s'. rewrite (push_clip_full x y w h s Hfull).
  assert (Hv : same_clip_view s (restore_clip (Fl_warning overflow_message s))).
  { destruct (restore_clip_view (Fl_warning overflow_message s))
      as (Hc & Hd & HL & HD).
    repeat split; [exact Hc | exact Hd | exact HL | exact HD]. }
  split; [now rewrite restore_clip_effect|].
  split; [now rewrite restore_clip_rstackptr|].
  split; [now rewrite restore_clip_rstack|].
  split; [apply Hv|].
  split; [intros; now apply clip_box_frame|].
  split; [intros; now apply not_clipped_frame|].
  now rewrite !restore_clip_effect.
Qed.

(** ** [not_clipped] against [clip_box] *)

Lemma not_clipped_guard s x y w h :
  x + w <= 0 \/ y + h <= 0 -> not_clipped x y w h s = 0.
Proof.
  intros H. unfold not_clipped.
  replace ((x + w <=? 0) || (y + h <=? 0)) with true
    by (symmetry; apply orb_true_iff; lia).
  reflexivity.
Qed.

(** C3 (as amended).  For a rectangle with [x + w > 0] and [y + h > 0] and
    any clip state, [not_clipped] returns 0 exactly when [clip_box] reports
    status 2, and returns 1 whenever [clip_box] reports status 0 or 1. *)
Theorem not_clipped_iff_status s x y w h :
  0 < x + w -> 0 < y + h ->
  (not_clipped x y w h s = 0 <-> status (clip_box x y w h s) = 2) /\
  (status (clip_box x y w h s) = 0 \/ status (clip_box x y w h s) = 1 ->
   not_clipped x y w h s = 1).
Proof.
  intros Hx Hy.
  assert (Hnc : not_clipped x y w h s =
                match current_clip s with
                | None => 1
                | Some r =>
                    if region_is_empty (region_and (XRectangleRegion x y w h s) r)
                    then 0 else 1
                end).
  { unfold not_clipped, current_clip.
    replace ((x + w <=? 0) || (y + h <=? 0)) with false
      by (symmetry; apply orb_false_iff; lia).
    destruct (rstack_at s (rstackptr s)) as [r|]; [|reflexivity].
    unfold RectInRegion, XRectangleRegion, CreateRectRgn.
    destruct (surface_is_display s); simpl negb; cbv iota;
      now destruct (region_is_empty _). }
  rewrite Hnc. destruct (current_clip s) as [r|] eqn:Ec.
  - destruct (region_is_empty _) eqn:He.
    + rewrite (clip_box_disjoint s x y w h r Ec He). cbn.
      split; [tauto|]. intros [H|H]; discriminate.
    + rewrite (clip_box_overlap s x y w h r Ec He). cbn zeta.
      destruct (EqualRgn _ _); [|destruct (negb _)]; cbn;
        (split; [split; discriminate | reflexivity]).
  - rewrite (clip_box_unclipped s x y w h Ec). cbn.
    split; [split; discriminate | reflexivity].
Qed.

(** ** The clip stack only narrows *)

Lemma pop_clip_Some s s' :
  pop_clip s = Some s' ->
  0 < rstackptr s /\ rstackptr s' = rstackptr s - 1 /\ rstack s' = rstack s /\
  region_stack_max s' = region_stack_max s.
Proof.
  unfold pop_clip, fl_restore_clip. destruct (0 <? rstackptr s) eqn:E;
    [|discriminate].
  intros [= <-]. apply Z.ltb_lt in E.
  rewrite restore_clip_rstackptr, restore_clip_rstack, restore_clip_effect.
  simpl. auto.
Qed.

(** The invariant kept by [push_clip] and [pop_clip]. *)
Lemma reachable_invariant s :
  reachable s ->
  stack_wf s /\
  forall N p, 1 <= N <= rstackptr s ->
    in_clip (rstack_at s N) p = true -> in_clip (rstack_at s (N - 1)) p = true.
Proof.
  induction 1 as [s Hwf Hp Hb | s x y w h Hr [Hwf IH] | s s' Hr [Hwf IH] Hpop].
  - split; [exact Hwf|]. intros N p HN. lia.
  - destruct (Z_lt_le_dec (rstackptr s) (region_stack_max s)) as [Hroom|Hfull].
    + destruct (push_clip_room x y w h s Hwf Hroom)
        as (Hptr & Htop & Hbelow & Hwf').
      split; [exact Hwf'|]. intros N p HN. rewrite Hptr in HN.
      destruct Hwf as [Hp Hl].
      destruct (Z.eq_dec N (rstackptr s + 1)) as [->|Hne].
      * unfold current_clip in Htop. rewrite Hptr in Htop. rewrite Htop.
        replace (rstackptr s + 1 - 1) with (rstackptr s) by lia.
        rewrite Hbelow by lia. simpl. apply new_clip_region_narrows.
      * rewrite !Hbelow by lia. apply IH. lia.
    + pose proof (push_clip_full x y w h s Hfull) as Heq.
      assert (Hst : rstack (push_clip x y w h s) = rstack s)
        by (rewrite Heq; now rewrite restore_clip_rstack).
      assert (Hpt : rstackptr (push_clip x y w h s) = rstackptr s)
        by (rewrite Heq; now rewrite restore_clip_rstackptr).
      assert (Hmx : region_stack_max (push_clip x y w h s) = region_stack_max s)
        by (rewrite Heq; now rewrite restore_clip_effect).
      split.
      * unfold stack_wf. now rewrite Hst, Hpt, Hmx.
      * intros N p. unfold rstack_at. rewrite Hst, Hpt. apply IH.
  - destruct (pop_clip_Some s s' Hpop) as (Hpos & Hpt & Hst & Hmx).
    destruct Hwf as [Hp Hl]. split.
    + unfold stack_wf. rewrite Hst, Hpt, Hmx. lia.
    + intros N p HN. unfold rstack_at. rewrite Hst. apply IH. lia.
Qed.

(** C5.  In every state reached from the unclipped bottom sentinel by
    [push_clip] and [pop_clip], the region at depth [N] lies inside the
    region at depth [N - 1], for every depth [N >= 1] of the stack; and a
    further [push_clip] gives an effective clip inside the one before it. *)
Theorem clip_stack_narrows s :
  reachable s ->
  (forall N p, 1 <= N <= rstackptr s ->
     in_clip (rstack_at s N) p = true ->
     in_clip (rstack_at s (N - 1)) p = true) /\
  (forall x y w h p,
     in_clip (current_clip (push_clip x y w h s)) p = true ->
     in_clip (current_clip s) p = true).
Proof.
  intros Hr. destruct (reachable_invariant s Hr) as [Hwf IH].
  split; [exact IH|]. intros x y w h p.
  destruct (Z_lt_le_dec (rstackptr s) (region_stack_max s)) as [Hroom|Hfull].
  - destruct (push_clip_room x y w h s Hwf Hroom) as (_ & Htop & _).
    rewrite Htop. simpl. apply new_clip_region_narrows.
  - rewrite (push_clip_full x y w h s Hfull), restore_clip_current_clip.
    auto.
Qed.

(** ** Pen width *)

Lemma fresh_handle_unused (m : gmap N GDIOBJ) :
  m !! fresh ({[NULL]} ∪ dom m) = None.
Proof.
  apply not_elem_of_dom. intros Hin.
  apply (is_fresh ({[NULL]} ∪ dom m)). set_solver.
Qed.

(** C6.  Whatever pen is selected (any colour, any width),
    [change_pen_width] returns its handle and selects a new pen of the
    requested width; [reset_pen_width] with that handle puts the driver
    back in the state before the change: the same pen is selected, it has
    the colour and width it had, and the wide pen is gone from the table
    of live objects. *)
Theorem pen_width_roundtrip s dc pen width :
  gc_ s = Some dc ->
  gdi_objects s !! dc_pen dc = Some (Pen pen) ->
  let hs := change_pen_width width s in
  hs.1 = dc_pen dc /\
  (exists dc1, gc_ hs.2 = Some dc1 /\
     gdi_objects s !! dc_pen dc1 = None /\
     exists wide, gdi_objects hs.2 !! dc_pen dc1 = Some (Pen wide) /\
       elpWidth wide = width /\ lbColor (elpBrush wide) = fl_RGB s) /\
  reset_pen_width hs.1 hs.2 = s.
Proof.
  intros Hgc Hpen. destruct s as [g objs st sp mx sc col rgb br n disp ws].
  simpl in Hgc, Hpen. subst g.
  pose proof (fresh_handle_unused objs) as Hfresh.
  assert (Hne : fresh ({[NULL]} ∪ dom objs) ≠ dc_pen dc).
  { intros E. rewrite E in Hfresh. rewrite Hfresh in Hpen. discriminate. }
  unfold change_pen_width, ExtCreatePen, SelectObject. cbn.
  rewrite lookup_insert_eq. cbn. split; [reflexivity|]. split.
  - eexists. split; [reflexivity|]. cbn. split; [exact Hfresh|].
    eexists. rewrite lookup_insert_eq. split; [reflexivity|]. now cbn.
  - unfold reset_pen_width, SelectObject. cbn.
    rewrite lookup_insert_ne by exact Hne. rewrite Hpen.
    unfold DeleteObject, set_gdi_objects. cbn.
    rewrite delete_insert_id by exact Hfresh.
    destruct dc; reflexivity.
Qed.

(** ** The floor rule *)

Lemma floor_scale_1 s n : (scale s == 1)%Q -> floor s n = n.
Proof.
  intros H. unfold floor. rewrite H, Qmult_1_l. apply Qfloor_Z.
Qed.

Lemma floor_step s n : (1 <= scale s)%Q -> floor s (n - 1) < floor s n.
Proof.
  intros H. unfold floor.
  pose proof (Qfloor_le (scale s * inject_Z (n - 1))) as Hlo.
  set (a := Qfloor (scale s * inject_Z (n - 1))) in *.
  assert (Hstep : (scale s * inject_Z (n - 1) + 1 <= scale s * inject_Z n)%Q).
  { unfold Z.sub. rewrite inject_Z_plus, inject_Z_opp.
    change (inject_Z 1) with 1%Q. nra. }
  assert (Ha : (inject_Z (a + 1) <= scale s * inject_Z n)%Q).
  { rewrite inject_Z_plus. change (inject_Z 1) with 1%Q.
    eapply Qle_trans; [|exact Hstep]. now apply Qplus_le_l. }
  apply Qfloor_resp_le in Ha. rewrite Qfloor_Z in Ha. lia.
Qed.

Lemma line_style_unscaled_gc style width s dc :
  gc_ s = Some dc ->
  exists h, gc_ (line_style_unscaled style width s) = Some (select_pen h dc) /\
            scale (line_style_unscaled style width s) = scale s.
Proof.
  intros Hgc. destruct s as [g objs st sp mx sc col rgb br n disp ws].
  simpl in Hgc. subst g.
  unfold line_style_unscaled, ExtCreatePen, SelectObject. cbn.
  rewrite lookup_insert_eq. cbn. eexists. split; reflexivity.
Qed.

(** C7 (as amended).  [overlay_rect] maps the edges of its rectangle by the
    floor rule: the outline runs through the corners made of [floor(x)],
    [floor(y)], [floor(x + w - 1)] and [floor(y + h - 1)].  At scale factor
    1 two extents that share a boundary (the second one starts at [x + w])
    get device spans that are exactly adjacent; at any scale factor of at
    least 1 the two spans do not overlap. *)
Theorem floor_rule_adjacency s x y w h w2 :
  (forall dc, gc_ s = Some dc ->
     exists pen,
       drawn (overlay_rect x y w h s) =
         dc_ops dc ++
         [ OpLine ((device_span s x w).1, (device_span s y h).1)
                  ((device_span s x w).2, (device_span s y h).1) pen;
           OpLine ((device_span s x w).2, (device_span s y h).1)
                  ((device_span s x w).2, (device_span s y h).2) pen;
           OpLine ((device_span s x w).2, (device_span s y h).2)
                  ((device_span s x w).1, (device_span s y h).2) pen;
           OpLine ((device_span s x w).1, (device_span s y h).2)
                  ((device_span s x w).1, (device_span s y h).1) pen ]) /\
  ((scale s == 1)%Q ->
     (device_span s x w).2 + 1 = (device_span s (x + w) w2).1) /\
  ((1 <= scale s)%Q ->
     (device_span s x w).2 < (device_span s (x + w) w2).1).
Proof.
  split; [|split].
  - intros dc Hgc. unfold overlay_rect.
    destruct (line_style_unscaled_gc
                (if color s =? FL_WHITE then FL_SOLID else FL_DOT) 1 s dc Hgc)
      as (pen & Hgc1 & Hsc).
    set (s1 := line_style_unscaled _ _ s) in *.
    assert (Hf : forall n, floor s1 n = floor s n)
      by (intros n; unfold floor; now rewrite Hsc).
    exists pen. cbv zeta. rewrite !Hf.
    unfold drawn, on_gc. rewrite Hgc1. cbn -[floor].
    rewrite <- !app_assoc. reflexivity.
  - intros H1. unfold device_span. cbn -[floor].
    rewrite !floor_scale_1 by exact H1. lia.
  - intros H1. unfold device_span. cbn -[floor].
    exact (floor_step s (x + w) H1).
Qed.

(** ** [point] *)

(** C10.  [point(x, y)] is [rectf(x, y, 1, 1)]: the context receives one
    fill request, for a box one pixel wide and high at the device position
    of [(x, y)], painted with the brush [fl_brush()]; the selected pen and
    the table of objects are not touched. *)
Theorem point_is_rectf x y s :
  point x y s = rectf x y 1 1 s /\
  gc_ (point x y s) =
    option_map (FillRect (mkRECT (floor s x) (floor s y)
                                 (floor s x + 1) (floor s y + 1))
                         (fl_brush s)) (gc_ s) /\
  option_map dc_pen (gc_ (point x y s)) = option_map dc_pen (gc_ s) /\
  gdi_objects (point x y s) = gdi_objects s.
Proof.
  split; [reflexivity|].
  unfold point, rectf, rectf_unscaled, on_gc.
  replace (x + 1 - 1) with x by lia. replace (y + 1 - 1) with y by lia.
  replace (floor s x + (floor s x - floor s x + 1)) with (floor s x + 1) by lia.
  replace (floor s y + (floor s y - floor s y + 1)) with (floor s y + 1) by lia.
  destruct (gc_ s) as [dc|] eqn:Hgc; cbn.
  - repeat split; reflexivity.
  - rewrite Hgc. repeat split; reflexivity.
Qed.

(** ** Terminal pixels of lines *)

Lemma round_major_pos i n : 0 < n -> (2 * i * n + n) / (2 * n) = i.
Proof.
  intros Hn. symmetry. apply (Z.div_unique_pos _ _ i n); lia.
Qed.

Lemma round_major_neg i n : 0 < n -> (2 * i * (- n) + n) / (2 * n) = - i.
Proof.
  intros Hn. symmetry. apply (Z.div_unique_pos _ _ (- i) n); lia.
Qed.

Lemma round_minor_zero n : 0 < n -> (2 * 0 * 0 + n) / (2 * n) = 0.
Proof. intros Hn. apply Z.div_small. lia. Qed.

Lemma In_seqZ (i m n : Z) : In i (seqZ m n) <-> m <= i < m + n.
Proof. rewrite <- list_elem_of_In. apply elem_of_seqZ. Qed.

(** The stroke of [LineTo] leaves out its end point. *)
Lemma line_pixels_open a b : ~ In b (line_pixels a b).
Proof.
  unfold line_pixels. rewrite in_map_iff. intros (i & E & Hi).
  apply In_seqZ in Hi. destruct a as [ax ay], b as [bx b_y]. simpl in *.
  injection E as Ex Ey.
  set (n := Z.max (Z.abs (bx - ax)) (Z.abs (b_y - ay))) in *.
  assert (Hn : 0 < n) by lia.
  destruct (Z.eq_dec (Z.abs (bx - ax)) n) as [Hx|Hx].
  - destruct (Z.abs_spec (bx - ax)) as [[_ Ha]|[_ Ha]].
    + replace (bx - ax) with n in Ex by lia.
      rewrite round_major_pos in Ex by lia. lia.
    + replace (bx - ax) with (- n) in Ex by lia.
      rewrite round_major_neg in Ex by lia. lia.
  - assert (Hy : Z.abs (b_y - ay) = n) by lia.
    destruct (Z.abs_spec (b_y - ay)) as [[_ Ha]|[_ Ha]].
    + replace (b_y - ay) with n in Ey by lia.
      rewrite round_major_pos in Ey by lia. lia.
    + replace (b_y - ay) with (- n) in Ey by lia.
      rewrite round_major_neg in Ey by lia. lia.
Qed.

Lemma line_pixels_rightward x y x1 :
  x <= x1 -> In (x1, y) (line_pixels (x, y) (x1 + 1, y)).
Proof.
  intros H. unfold line_pixels. apply in_map_iff. simpl.
  exists (x1 - x). split.
  - replace (y - y) with 0 by lia.
    replace (Z.max (Z.abs (x1 + 1 - x)) (Z.abs 0)) with (x1 + 1 - x) by lia.
    rewrite round_major_pos by lia.
    replace (2 * (x1 - x) * 0) with (2 * 0 * 0) by lia.
    rewrite round_minor_zero by lia. f_equal; lia.
  - apply In_seqZ. lia.
Qed.

Lemma line_pixels_downward x y y1 :
  y <= y1 -> In (x, y1) (line_pixels (x, y) (x, y1 + 1)).
Proof.
  intros H. unfold line_pixels. apply in_map_iff. simpl.
  exists (y1 - y). split.
  - replace (x - x) with 0 by lia.
    replace (Z.max (Z.abs 0) (Z.abs (y1 + 1 - y))) with (y1 + 1 - y) by lia.
    rewrite round_major_pos by lia.
    replace (2 * (y1 - y) * 0) with (2 * 0 * 0) by lia.
    rewrite round_minor_zero by lia. f_equal; lia.
  - apply In_seqZ. lia.
Qed.

Lemma pixels_app ops1 ops2 : pixels (ops1 ++ ops2) = pixels ops1 ++ pixels ops2.
Proof. unfold pixels. apply flat_map_app. Qed.

(** C8 (as amended).  [line_unscaled], in its two- and three-point forms,
    draws its final end point with a pixel request of its own after the
    strokes, since a stroke leaves out its end point.  [xyline_unscaled]
    and [yxline_unscaled] have no such request: they run the stroke one
    pixel past the end point, which covers the end point when the line
    runs rightwards ([x <= x1]), respectively downwards ([y <= y1]). *)
Theorem terminal_pixel_drawn s dc x y x1 y1 x2 y2 :
  gc_ s = Some dc ->
  (forall a b, ~ In b (op_pixels (OpLine a b (dc_pen dc)))) /\
  drawn (line_unscaled x y x1 y1 s) =
    dc_ops dc ++ [OpLine (x, y) (x1, y1) (dc_pen dc);
                  OpPixel (x1, y1) (fl_RGB s)] /\
  In (x1, y1) (pixels (drawn (line_unscaled x y x1 y1 s))) /\
  drawn (line_unscaled3 x y x1 y1 x2 y2 s) =
    dc_ops dc ++ [OpLine (x, y) (x1, y1) (dc_pen dc);
                  OpLine (x1, y1) (x2, y2) (dc_pen dc);
                  OpPixel (x2, y2) (fl_RGB s)] /\
  In (x2, y2) (pixels (drawn (line_unscaled3 x y x1 y1 x2 y2 s))) /\
  drawn (xyline_unscaled x y x1 s) =
    dc_ops dc ++ [OpLine (x, y) (x1 + 1, y) (dc_pen dc)] /\
  (x <= x1 -> In (x1, y) (pixels (drawn (xyline_unscaled x y x1 s)))) /\
  drawn (yxline_unscaled x y y1 s) =
    dc_ops dc ++ [OpLine (x, y) (x, y1 + 1) (dc_pen dc)] /\
  (y <= y1 -> In (x, y1) (pixels (drawn (yxline_unscaled x y y1 s)))).
Proof.
  intros Hgc.
  assert (E2 : drawn (line_unscaled x y x1 y1 s) =
               dc_ops dc ++ [OpLine (x, y) (x1, y1) (dc_pen dc);
                             OpPixel (x1, y1) (fl_RGB s)]).
  { unfold line_unscaled, drawn, on_gc. rewrite Hgc. cbn.
    now rewrite <- app_assoc. }
  assert (E3 : drawn (line_unscaled3 x y x1 y1 x2 y2 s) =
               dc_ops dc ++ [OpLine (x, y) (x1, y1) (dc_pen dc);
                             OpLine (x1, y1) (x2, y2) (dc_pen dc);
                             OpPixel (x2, y2) (fl_RGB s)]).
  { unfold line_unscaled3, drawn, on_gc. rewrite Hgc. cbn.
    now rewrite <- !app_assoc. }
  assert (Ex : drawn (xyline_unscaled x y x1 s) =
               dc_ops dc ++ [OpLine (x, y) (x1 + 1, y) (dc_pen dc)]).
  { unfold xyline_unscaled, drawn, on_gc. rewrite Hgc. reflexivity. }
  assert (Ey : drawn (yxline_unscaled x y y1 s) =
               dc_ops dc ++ [OpLine (x, y) (x, y1 + 1) (dc_pen dc)]).
  { unfold yxline_unscaled, drawn, on_gc. rewrite Hgc. reflexivity. }
  split; [intros a b; apply line_pixels_open|].
  split; [exact E2|]. split.
  { rewrite E2, pixels_app. apply in_or_app. right.
    unfold pixels. simpl. apply in_or_app. right. now left. }
  split; [exact E3|]. split.
  { rewrite E3, pixels_app. apply in_or_app. right.
    unfold pixels. simpl. apply in_or_app. right.
    apply in_or_app. right. now left. }
  split; [exact Ex|]. split.
  { intros H. rewrite Ex, pixels_app. apply in_or_app. right.
    unfold pixels. simpl. rewrite app_nil_r. now apply line_pixels_rightward. }
  split; [exact Ey|].
  intros H. rewrite Ey, pixels_app. apply in_or_app. right.
  unfold pixels. simpl. rewrite app_nil_r. now apply line_pixels_downward.
Qed.

(** ** [focus_rect] *)

(** C9 (the code at the failing input).  At scale factor 1,
    [focus_rect(0, 0, 3, 3)] has the device bounds [0 .. 2] in both
    directions by the floor rule, and plots the pixel [(3, 1)], which is
    not on the outline of that rectangle: the right and the bottom edge
    are drawn one pixel beyond the upper bounds. *)
Theorem focus_rect_beyond_bounds :
  device_span example_driver 0 3 = (0, 2) /\
  drawn (focus_rect 0 0 3 3 example_driver) =
    [OpPixel (0, 0) 0; OpPixel (2, 0) 0; OpPixel (3, 1) 0;
     OpPixel (3, 3) 0; OpPixel (1, 3) 0; OpPixel (0, 2) 0] /\
  In (3, 1) (pixels (drawn (focus_rect 0 0 3 3 example_driver))) /\
  on_perimeter 0 0 2 2 (3, 1) = false.
Proof.
  split; [reflexivity|]. split; [reflexivity|]. split; [|reflexivity].
  vm_compute. tauto.
Qed.

(** ** Concrete runs *)

(** Closes a comparison between integers that evaluate to numerals. *)
Ltac by_evaluation :=
  lazymatch goal with
  | |- stack_wf _ => unfold stack_wf; by_evaluation
  | |- _ /\ _ => split; by_evaluation
  | |- (_ <= _)%Z => apply Z.leb_le; reflexivity
  | |- (_ < _)%Z => apply Z.ltb_lt; reflexivity
  | |- _ => reflexivity
  end.

(** C1: the claim as stated fails for an empty query rectangle.  With
    nothing pushed, [clip_box(0, 0, 0, 0)] reports status 0 although the
    rectangle shares no pixel with the clip. *)
Lemma clip_box_degenerate_counterexample :
  ~ (status (clip_box 0 0 0 0 example_driver) = 2 <->
     forall p, shared example_driver 0 0 0 0 p = false).
Proof.
  intros [_ H]. assert (Hs : status (clip_box 0 0 0 0 example_driver) = 2).
  { apply H. intros p. unfold shared, in_query.
    apply andb_false_iff. left. apply not_true_is_false.
    rewrite PtInRect_iff. simpl. lia. }
  discriminate Hs.
Qed.

Lemma clip_box_status_witness :
  (status (clip_box 5 5 10 10 example_clipped) = 1 /\
   exists bx, is_bounding_box bx (device_shared example_clipped 5 5 10 10) /\
     let a := to_logical example_clipped (left bx, top bx) in
     let b := to_logical example_clipped (right bx, bottom bx) in
     out_rect (clip_box 5 5 10 10 example_clipped) =
       (a.1, a.2, b.1 - a.1, b.2 - a.2)) /\
  (status (clip_box 5 5 10 10 example_print_clipped) = 1 /\
   exists bx, is_bounding_box bx (device_shared example_print_clipped 5 5 10 10) /\
     let a := to_logical example_print_clipped (left bx, top bx) in
     let b := to_logical example_print_clipped (right bx, bottom bx) in
     out_rect (clip_box 5 5 10 10 example_print_clipped) =
       (a.1, a.2, b.1 - a.1, b.2 - a.2)) /\
  (status (clip_box 5 5 10 10 example_print_2x_clipped) = 1 /\
   exists bx, is_bounding_box bx (device_shared example_print_2x_clipped 5 5 10 10) /\
     let a := to_logical example_print_2x_clipped (left bx, top bx) in
     let b := to_logical example_print_2x_clipped (right bx, bottom bx) in
     out_rect (clip_box 5 5 10 10 example_print_2x_clipped) =
       (a.1, a.2, b.1 - a.1, b.2 - a.2)).
Proof.
  split; [|split].
  - destruct (clip_box_status example_clipped 5 5 10 10) as (_ & _ & _ & _ & H & _).
    + exists (5, 5). reflexivity.
    + apply H; vm_compute; discriminate.
  - destruct (clip_box_status example_print_clipped 5 5 10 10)
      as (_ & _ & _ & _ & H & _).
    + exists (5, 5). reflexivity.
    + apply H; vm_compute; discriminate.
  - destruct (clip_box_status example_print_2x_clipped 5 5 10 10)
      as (_ & _ & _ & _ & H & _).
    + exists (10, 10). reflexivity.
    + apply H; vm_compute; discriminate.
Defined.

Lemma push_clip_pushes_intersection_witness :
  rstackptr (push_clip 2 3 4 5 example_clipped) = rstackptr example_clipped + 1.
Proof.
  refine (proj1 (push_clip_pushes_intersection example_clipped 2 3 4 5 _ _)).
  - by_evaluation.
  - by_evaluation.
Defined.

(** C3: the claim as stated fails left of and above the origin.  With
    nothing pushed, [not_clipped(-10, -10, 5, 5)] returns 0 while
    [clip_box] reports status 0. *)
Lemma not_clipped_guard_counterexample :
  ~ (not_clipped (-10) (-10) 5 5 example_driver = 0 <->
     status (clip_box (-10) (-10) 5 5 example_driver) = 2).
Proof. intros [H _]. specialize (H eq_refl). discriminate H. Qed.

Lemma not_clipped_iff_status_witness :
  (not_clipped 5 5 10 10 example_clipped = 0 <->
   status (clip_box 5 5 10 10 example_clipped) = 2) /\
  (status (clip_box 5 5 10 10 example_clipped) = 0 \/
   status (clip_box 5 5 10 10 example_clipped) = 1 ->
   not_clipped 5 5 10 10 example_clipped = 1).
Proof.
  apply (not_clipped_iff_status example_clipped 5 5 10 10); lia.
Defined.

Lemma push_clip_overflow_witness :
  warnings (push_clip 1 1 2 2 example_full) =
    warnings example_full ++ [overflow_message] /\
  rstackptr (push_clip 1 1 2 2 example_full) = rstackptr example_full.
Proof.
  assert (H : region_stack_max example_full <= rstackptr example_full)
    by by_evaluation.
  destruct (push_clip_overflow example_full 1 1 2 2 H) as (Hw & Hp & _).
  split; [exact Hw | exact Hp].
Defined.

Lemma example_driver_reachable : reachable example_driver.
Proof.
  apply reach_init; by_evaluation.
Defined.

Lemma clip_stack_narrows_witness :
  in_clip (rstack_at example_full (2 - 1)) (3, 3) = true.
Proof.
  refine (proj1 (clip_stack_narrows example_full _) 2 (3, 3) _ _).
  - apply reach_push, reach_push, example_driver_reachable.
  - by_evaluation.
  - reflexivity.
Defined.

Lemma pen_width_roundtrip_witness :
  reset_pen_width (change_pen_width 3 example_driver).1
                  (change_pen_width 3 example_driver).2 = example_driver.
Proof.
  refine (proj2 (proj2 (pen_width_roundtrip example_driver example_dc
                          (mkPEN PS_SOLID 1 (mkLOGBRUSH BS_SOLID 0 0)) 3 _ _))).
  - reflexivity.
  - reflexivity.
Defined.

(** C7: the claim as stated fails at scale factor 2.  The extent
    [(0, 2)] ends at device pixel 2 and its neighbour [(2, 2)] starts at
    device pixel 4: device pixel 3 is left out. *)
Lemma floor_rule_gap_counterexample :
  ~ ((device_span example_driver_2x 0 2).2 + 1 =
     (device_span example_driver_2x (0 + 2) 2).1).
Proof. vm_compute. discriminate. Qed.

Lemma floor_rule_adjacency_witness :
  (device_span example_driver 0 2).2 + 1 = (device_span example_driver (0 + 2) 2).1 /\
  (device_span example_driver_2x 0 2).2 < (device_span example_driver_2x (0 + 2) 2).1.
Proof.
  split.
  - apply (proj1 (proj2 (floor_rule_adjacency example_driver 0 0 2 2 2))).
    reflexivity.
  - apply (proj2 (proj2 (floor_rule_adjacency example_driver_2x 0 0 2 2 2))).
    discriminate.
Defined.

(** C8: the claim as stated fails for a line that runs leftwards.
    [xyline_unscaled(5, 0, 2)] covers the pixels [(5, 0)] and [(4, 0)];
    its end point [(2, 0)] is not among them. *)
Lemma xyline_leftward_counterexample :
  ~ In (2, 0) (pixels (drawn (xyline_unscaled 5 0 2 example_driver))).
Proof. vm_compute. intros [H|[H|[]]]; discriminate H. Qed.

Lemma terminal_pixel_drawn_witness :
  In (5, 2) (pixels (drawn (line_unscaled 0 0 5 2 example_driver))) /\
  In (5, 0) (pixels (drawn (xyline_unscaled 2 0 5 example_driver))).
Proof.
  destruct (terminal_pixel_drawn example_driver example_dc 0 0 5 2 0 0 eq_refl)
    as (_ & _ & H2 & _).
  destruct (terminal_pixel_drawn example_driver example_dc 2 0 5 0 0 0 eq_refl)
    as (_ & _ & _ & _ & _ & _ & Hx & _).
  split; [exact H2 | apply Hx; lia].
Defined.

(** * Further properties of the clipping routines *)

Lemma in_query_degenerate x y w h p :
  w <= 0 \/ h <= 0 -> in_query x y w h p = false.
Proof.
  intros H. apply not_true_is_false. unfold in_query.
  rewrite PtInRect_iff. simpl. lia.
Qed.

(** On the display the region built by [push_clip] has the pixels of the
    rectangle that are in the current clip, for every [w] and [h]. *)
Lemma new_clip_region_display x y w h s p :
  surface_is_display s = true ->
  PtInRegion (new_clip_region x y w h s) p =
    in_query x y w h p && in_clip (current_clip s) p.
Proof.
  intros Hd.
  destruct (Z_lt_le_dec 0 w) as [Hw|Hw]; [destruct (Z_lt_le_dec 0 h) as [Hh|Hh]|].
  - rewrite new_clip_region_pixels by assumption.
    now rewrite XRectangleRegion_display by (assumption || lia).
  - rewrite new_clip_region_degenerate, in_query_degenerate by lia. reflexivity.
  - rewrite new_clip_region_degenerate, in_query_degenerate by lia. reflexivity.
Qed.

Lemma push_clip_keeps x y w h s :
  surface_is_display (push_clip x y w h s) = surface_is_display s /\
  region_stack_max (push_clip x y w h s) = region_stack_max s /\
  scale (push_clip x y w h s) = scale s /\
  gdi_objects (push_clip x y w h s) = gdi_objects s /\
  length (rstack (push_clip x y w h s)) = length (rstack s).
Proof.
  rewrite push_clip_eq, restore_clip_effect.
  destruct (rstackptr s <? region_stack_max s); cbn;
    rewrite ?length_insert; repeat split; reflexivity.
Qed.

(** The stack pointer stays inside the array: [push_clip] moves it up by
    exactly one slot when there is room ([rstackptr < region_stack_max])
    and leaves it where it is otherwise; the array keeps its size and the
    stack stays well formed. *)
Theorem push_clip_in_bounds s x y w h :
  stack_wf s ->
  stack_wf (push_clip x y w h s) /\
  (rstackptr s < region_stack_max s ->
   rstackptr (push_clip x y w h s) = rstackptr s + 1) /\
  (region_stack_max s <= rstackptr s ->
   rstackptr (push_clip x y w h s) = rstackptr s) /\
  length (rstack (push_clip x y w h s)) = length (rstack s).
Proof.
  intros Hwf.
  destruct (push_clip_keeps x y w h s) as (_ & Hmx & _ & _ & Hlen).
  assert (Hfullptr : region_stack_max s <= rstackptr s ->
                     rstackptr (push_clip x y w h s) = rstackptr s).
  { intros Hfull. rewrite (push_clip_full x y w h s Hfull).
    now rewrite restore_clip_rstackptr. }
  assert (Hroomptr : rstackptr s < region_stack_max s ->
                     rstackptr (push_clip x y w h s) = rstackptr s + 1).
  { intros Hroom. now destruct (push_clip_room x y w h s Hwf Hroom). }
  split; [|split; [exact Hroomptr | split; [exact Hfullptr | exact Hlen]]].
  destruct (Z_lt_le_dec (rstackptr s) (region_stack_max s)) as [Hroom|Hfull].
  - now destruct (push_clip_room x y w h s Hwf Hroom) as (_ & _ & _ & Hwf').
  - destruct Hwf as [Hb Hl]. unfold stack_wf.
    rewrite (Hfullptr Hfull), Hmx, Hlen. split; [exact Hb | exact Hl].
Qed.

(** Two pushes on the display leave exactly the pixels that are in both
    rectangles and in the clip that was in force before. *)
Theorem push_clip_twice s xa ya wa ha xb yb wb hb p :
  stack_wf s -> rstackptr s + 1 < region_stack_max s ->
  surface_is_display s = true ->
  in_clip (current_clip (push_clip xb yb wb hb (push_clip xa ya wa ha s))) p =
    in_query xa ya wa ha p && in_query xb yb wb hb p && in_clip (current_clip s) p.
Proof.
  intros Hwf Hroom Hd.
  destruct (push_clip_room xa ya wa ha s Hwf ltac:(lia))
    as (Hptr & Htop & _ & Hwf1).
  destruct (push_clip_keeps xa ya wa ha s) as (Hd1 & Hmx1 & _).
  set (s1 := push_clip xa ya wa ha s) in *.
  destruct (push_clip_room xb yb wb hb s1 Hwf1 ltac:(lia)) as (_ & Htop2 & _).
  rewrite Htop2. simpl.
  rewrite new_clip_region_display by congruence.
  rewrite Htop. simpl. rewrite new_clip_region_display by assumption.
  destruct (in_query xa ya wa ha p), (in_query xb yb wb hb p); reflexivity.
Qed.

(** Pushing a rectangle and then one inside it gives the same effective
    clip as pushing the inner rectangle alone. *)
Theorem push_clip_inner_alone s xa ya wa ha xb yb wb hb p :
  stack_wf s -> rstackptr s + 1 < region_stack_max s ->
  surface_is_display s = true ->
  (forall q, in_query xb yb wb hb q = true -> in_query xa ya wa ha q = true) ->
  in_clip (current_clip (push_clip xb yb wb hb (push_clip xa ya wa ha s))) p =
    in_clip (current_clip (push_clip xb yb wb hb s)) p.
Proof.
  intros Hwf Hroom Hd Hin.
  destruct (push_clip_room xa ya wa ha s Hwf ltac:(lia))
    as (Hptr & Htop & _ & Hwf1).
  destruct (push_clip_keeps xa ya wa ha s) as (Hd1 & Hmx1 & _).
  set (s1 := push_clip xa ya wa ha s) in *.
  destruct (push_clip_room xb yb wb hb s1 Hwf1 ltac:(lia)) as (_ & Htop2 & _).
  destruct (push_clip_room xb yb wb hb s Hwf ltac:(lia)) as (_ & Htopb & _).
  rewrite Htop2, Htopb. simpl.
  rewrite new_clip_region_display by congruence.
  rewrite Htop. simpl. rewrite !new_clip_region_display by assumption.
  destruct (in_query xb yb wb hb p) eqn:Eb; [|reflexivity].
  now rewrite (Hin p Eb).
Qed.

(** After a push with [w <= 0] or [h <= 0] nothing is visible: [clip_box]
    reports status 2 with an empty output and [not_clipped] returns 0, for
    every query rectangle and on every surface. *)
Theorem degenerate_push_hides_all s x y w h a b c d :
  stack_wf s -> rstackptr s < region_stack_max s ->
  w <= 0 \/ h <= 0 ->
  clip_box a b c d (push_clip x y w h s) = (a, b, 0, 0, 2) /\
  not_clipped a b c d (push_clip x y w h s) = 0.
Proof.
  intros Hwf Hroom Hdeg.
  destruct (push_clip_room x y w h s Hwf Hroom) as (_ & Htop & _).
  set (s' := push_clip x y w h s) in *.
  assert (Hempty : forall r, region_is_empty (region_and r (new_clip_region x y w h s)) = true).
  { intros r. apply region_is_empty_iff. intros p.
    rewrite PtInRegion_and, new_clip_region_degenerate by assumption.
    apply andb_false_r. }
  split.
  - apply (clip_box_disjoint s' a b c d _ Htop). apply Hempty.
  - unfold not_clipped. destruct ((a + c <=? 0) || (b + d <=? 0)); [reflexivity|].
    unfold current_clip in Htop. rewrite Htop. unfold RectInRegion.
    now rewrite Hempty.
Qed.

Lemma GetRgnBox_nonempty r :
  region_is_empty r = false -> IsRectEmpty (GetRgnBox r) = false.
Proof.
  intros Hne. unfold GetRgnBox. destruct (rgn_box r) as [bx|] eqn:E.
  - destruct (rgn_box_Some r bx E) as [Hin ((p & Hp & _) & _)]. simpl.
    apply Hin, PtInRect_iff in Hp. unfold IsRectEmpty.
    apply orb_false_iff. split; apply Z.leb_gt; lia.
  - apply rgn_box_None in E. congruence.
Qed.

(** Two regions with the same pixels have the same bounding box. *)
Lemma GetRgnBox_ext r1 r2 :
  (forall p, PtInRegion r1 p = PtInRegion r2 p) -> GetRgnBox r1 = GetRgnBox r2.
Proof.
  intros E. destruct (region_is_empty r1) eqn:E1.
  - assert (E2 : region_is_empty r2 = true).
    { apply region_is_empty_iff. intros p. rewrite <- E.
      now apply region_is_empty_iff. }
    unfold GetRgnBox. apply rgn_box_None in E1, E2. now rewrite E1, E2.
  - assert (E2 : region_is_empty r2 = false).
    { apply not_true_is_false. intros H. apply not_true_iff_false in E1.
      apply E1, region_is_empty_iff. intros p. rewrite E.
      now apply region_is_empty_iff. }
    destruct (GetRgnBox_bounding r1 E1) as [Hin1 Hmin1].
    destruct (GetRgnBox_bounding r2 E2) as [Hin2 Hmin2].
    assert (H12 : forall p, PtInRegion r1 p = true -> PtInRect (GetRgnBox r2) p = true)
      by (intros p Hp; apply Hin2; now rewrite <- E).
    assert (H21 : forall p, PtInRegion r2 p = true -> PtInRect (GetRgnBox r1) p = true)
      by (intros p Hp; apply Hin1; now rewrite E).
    apply Hmin1 in H12. apply Hmin2 in H21.
    destruct (GetRgnBox r1), (GetRgnBox r2). simpl in *. f_equal; lia.
Qed.

(** The rectangle [clip_box] hands back never reaches outside the query
    rectangle, and with status 1 it is not empty. *)
Theorem clip_box_inside_query s x y w h :
  0 < w -> 0 < h -> surface_is_display s = true ->
  exists X Y W H,
    out_rect (clip_box x y w h s) = (X, Y, W, H) /\
    x <= X /\ y <= Y /\ X + W <= x + w /\ Y + H <= y + h /\ 0 <= W /\ 0 <= H /\
    (status (clip_box x y w h s) = 1 -> 0 < W /\ 0 < H).
Proof.
  intros Hw Hh Hd. destruct (current_clip s) as [r|] eqn:Ec.
  2:{ rewrite (clip_box_unclipped s x y w h Ec). exists x, y, w, h. cbn.
      repeat split; try lia; discriminate. }
  destruct (region_is_empty (region_and (XRectangleRegion x y w h s) r)) eqn:He.
  { rewrite (clip_box_disjoint s x y w h r Ec He). exists x, y, 0, 0. cbn.
    repeat split; try lia; discriminate. }
  rewrite (clip_box_overlap s x y w h r Ec He). cbn zeta.
  destruct (EqualRgn _ _).
  { exists x, y, w, h. cbn. repeat split; try lia; discriminate. }
  rewrite Hd. cbn [negb].
  pose proof (GetRgnBox_nonempty _ He) as Hne.
  destruct (GetRgnBox_bounding _ He) as [_ Hmin].
  specialize (Hmin (mkRECT x y (x + w) (y + h))).
  assert (Hin : forall p,
             PtInRegion (region_and (XRectangleRegion x y w h s) r) p = true ->
             PtInRect (mkRECT x y (x + w) (y + h)) p = true).
  { intros p. rewrite PtInRegion_and, XRectangleRegion_display
      by (assumption || lia).
    now intros [H _]%andb_true_iff. }
  apply Hmin in Hin. clear Hmin.
  destruct (GetRgnBox _) as [l t rt b]. cbn in *.
  unfold IsRectEmpty in Hne. cbn in Hne. apply orb_false_iff in Hne.
  destruct Hne as [H1%Z.leb_gt H2%Z.leb_gt].
  exists l, t, (rt - l), (b - t). repeat split; lia.
Qed.

(** Asking [clip_box] again about the rectangle it handed back gives that
    rectangle once more. *)
Theorem clip_box_again s x y w h X Y Wo Ho :
  0 < w -> 0 < h -> surface_is_display s = true ->
  status (clip_box x y w h s) <> 2 ->
  out_rect (clip_box x y w h s) = (X, Y, Wo, Ho) ->
  out_rect (clip_box X Y Wo Ho s) = (X, Y, Wo, Ho).
Proof.
  intros Hw Hh Hd. destruct (current_clip s) as [r|] eqn:Ec.
  2:{ now rewrite (clip_box_unclipped s X Y Wo Ho Ec). }
  destruct (region_is_empty (region_and (XRectangleRegion x y w h s) r)) eqn:He.
  { rewrite (clip_box_disjoint s x y w h r Ec He). cbn. congruence. }
  rewrite (clip_box_overlap s x y w h r Ec He). cbn zeta.
  destruct (EqualRgn _ _) eqn:Eq.
  { intros _ E. cbn in E. injection E as -> -> -> ->.
    rewrite (clip_box_overlap s X Y Wo Ho r Ec He). cbn zeta. now rewrite Eq. }
  rewrite Hd. cbn [negb]. intros _ E.
  set (temp := region_and (XRectangleRegion x y w h s) r) in *.
  pose proof (GetRgnBox_nonempty _ He) as Hne.
  destruct (GetRgnBox_bounding _ He) as [Hcov Hmin].
  assert (Hq : forall p, PtInRegion temp p = in_query x y w h p && PtInRegion r p).
  { intros p. subst temp.
    now rewrite PtInRegion_and, XRectangleRegion_display by (assumption || lia). }
  assert (Hin : forall p, PtInRegion temp p = true ->
                          PtInRect (mkRECT x y (x + w) (y + h)) p = true).
  { intros p. rewrite Hq. now intros [H _]%andb_true_iff. }
  apply Hmin in Hin. clear Hmin.
  destruct (GetRgnBox temp) as [l t rt b] eqn:Ebox.
  cbn in Hne, Hcov, Hin, E.
  unfold IsRectEmpty in Hne. cbn in Hne. apply orb_false_iff in Hne.
  destruct Hne as [H1%Z.leb_gt H2%Z.leb_gt].
  injection E as <- <- <- <-.
  assert (Hsame : forall p,
             PtInRegion (region_and (XRectangleRegion l t (rt - l) (b - t) s) r) p
             = PtInRegion temp p).
  { intros p.
    rewrite PtInRegion_and, XRectangleRegion_display by (assumption || lia).
    unfold in_query.
    replace (l + (rt - l)) with rt by lia. replace (t + (b - t)) with b by lia.
    destruct (PtInRegion temp p) eqn:Et.
    - rewrite (Hcov p Et). rewrite Hq in Et.
      now apply andb_true_iff in Et as [_ ->].
    - destruct (PtInRect (mkRECT l t rt b) p) eqn:Eb; [|reflexivity].
      rewrite Hq in Et. simpl.
      assert (Hx : in_query x y w h p = true).
      { apply PtInRect_iff in Eb. apply PtInRect_iff. simpl in *. lia. }
      now rewrite Hx in Et. }
  assert (He' : region_is_empty
                  (region_and (XRectangleRegion l t (rt - l) (b - t) s) r) = false).
  { apply not_true_is_false. intros H. apply not_true_iff_false in He.
    apply He, region_is_empty_iff. intros p. rewrite <- Hsame.
    now apply region_is_empty_iff. }
  rewrite (clip_box_overlap s l t (rt - l) (b - t) r Ec He'). cbn zeta.
  destruct (EqualRgn (region_and (XRectangleRegion l t (rt - l) (b - t) s) r) _);
    [reflexivity|].
  rewrite Hd. cbn [negb]. rewrite (GetRgnBox_ext _ temp Hsame), Ebox.
  reflexivity.
Qed.

(** ** [restore_clip] *)

(** [restore_clip] counts one change of the clip state and selects the top
    of the stack into the context (the scaled copy unless the scale factor
    is 1, no clipping for the [NULL] sentinel).  The stack, the stack
    pointer, the objects, the warnings and what the context has drawn are
    left alone; without a context only the counter moves. *)
Theorem restore_clip_selects_top s :
  fl_clip_state_number (restore_clip s) = fl_clip_state_number s + 1 /\
  rstack (restore_clip s) = rstack s /\
  rstackptr (restore_clip s) = rstackptr s /\
  gdi_objects (restore_clip s) = gdi_objects s /\
  warnings (restore_clip s) = warnings s /\
  drawn (restore_clip s) = drawn s /\
  (gc_ s = None -> gc_ (restore_clip s) = None) /\
  (forall dc, gc_ s = Some dc ->
     exists dc', gc_ (restore_clip s) = Some dc' /\
       dc_pen dc' = dc_pen dc /\ dc_pos dc' = dc_pos dc /\
       dc_clip dc' =
         match current_clip s with
         | Some r => if Qeq_bool (scale s) 1 then Some r
                     else Some (scale_region s r)
         | None => None
         end).
Proof.
  rewrite restore_clip_effect. cbn. repeat split.
  - unfold drawn. cbn. now destruct (gc_ s).
  - now intros ->.
  - intros dc ->. cbn. eexists. repeat split.
Qed.

(** * Further properties of the drawing routines *)

Lemma on_gc_emit_all_app ops1 ops2 s :
  on_gc (emit_all ops2) (on_gc (emit_all ops1) s) = on_gc (emit_all (ops1 ++ ops2)) s.
Proof.
  unfold on_gc. destruct (gc_ s) as [dc|] eqn:E; cbn.
  - unfold emit_all, set_gc. cbn. now rewrite <- app_assoc.
  - now rewrite E.
Qed.

Lemma on_gc_emit_nil s : on_gc (emit_all []) s = s.
Proof.
  unfold on_gc. destruct (gc_ s) as [dc|] eqn:E; [|reflexivity].
  unfold emit_all, set_gc. rewrite app_nil_r.
  destruct s; simpl in *; subst; now destruct dc.
Qed.

Lemma land_1_odd i : (Z.land i 1 =? 0) = negb (Z.odd i).
Proof.
  change 1 with (Z.ones 1). rewrite Z.land_ones by lia.
  change (2 ^ 1) with 2. rewrite Zodd_mod.
  pose proof (Z.mod_pos_bound i 2 ltac:(lia)) as Hb.
  destruct (Z.eqb_spec (i mod 2) 0) as [->|Hne]; [reflexivity|].
  replace (i mod 2) with 1 by lia. reflexivity.
Qed.

(** One loop of [focus_rect]: the points met on an odd count are plotted
    and the counter moves on by the number of points. *)
Lemma for_each_dot c (f : Z -> POINT) vals s i :
  for_each vals (fun v => dot c (f v)) (s, i) =
    (on_gc (emit_all (map (fun p => OpPixel p c) (odd_from i (map f vals)))) s,
     i + Z.of_nat (length vals)).
Proof.
  unfold for_each. revert s i.
  induction vals as [|v vals IH]; intros s i; cbn [fold_left map odd_from length].
  - rewrite on_gc_emit_nil. f_equal. lia.
  - unfold dot at 2. rewrite land_1_odd. destruct (Z.odd i); cbn [negb].
    + rewrite IH. f_equal; [|lia]. cbn [map].
      change (on_gc (SetPixel (f v) c) s)
        with (on_gc (emit_all [OpPixel (f v) c]) s).
      now rewrite on_gc_emit_all_app.
    + rewrite IH. f_equal. lia.
Qed.

Lemma odd_from_app i l1 l2 :
  odd_from i (l1 ++ l2) = odd_from i l1 ++ odd_from (i + Z.of_nat (length l1)) l2.
Proof.
  revert i. induction l1 as [|p l1 IH]; intros i; cbn [app odd_from length].
  - f_equal. lia.
  - rewrite IH. replace (i + 1 + Z.of_nat (length l1))
      with (i + Z.of_nat (S (length l1))) by lia.
    now destruct (Z.odd i).
Qed.

Lemma odd_from_In i l p : In p (odd_from i l) -> In p l.
Proof.
  revert i. induction l as [|q l IH]; intros i; cbn [odd_from]; [tauto|].
  destruct (Z.odd i); simpl; intros H; [destruct H as [H|H]|]; eauto.
Qed.

Lemma odd_from_length_even k : forall i l,
  length l = (2 * k)%nat -> length (odd_from i l) = k.
Proof.
  induction k as [|k IH]; intros i l Hl.
  - destruct l; [reflexivity | discriminate].
  - destruct l as [|a [|b l]]; try (simpl in Hl; lia).
    cbn [odd_from].
    assert (Hr : length (odd_from (i + 1 + 1) l) = k)
      by (apply IH; simpl in Hl; lia).
    replace (Z.odd (i + 1)) with (negb (Z.odd i))
      by (rewrite Z.add_1_r, Z.odd_succ; apply Z.negb_odd).
    destruct (Z.odd i); simpl; now rewrite Hr.
Qed.

Lemma In_upto v lo n : In v (upto lo n) <-> lo <= v < lo + n.
Proof. apply In_seqZ. Qed.

Lemma In_downto v n : In v (downto n) <-> 1 <= v <= n.
Proof.
  unfold downto. rewrite <- list_elem_of_In, elem_of_reverse, list_elem_of_In.
  rewrite In_seqZ. lia.
Qed.

Lemma length_upto lo n : length (upto lo n) = Z.to_nat n.
Proof. apply length_seqZ. Qed.

Lemma length_downto n : length (downto n) = Z.to_nat n.
Proof. unfold downto. rewrite length_reverse. apply length_seqZ. Qed.

Lemma focus_rect_trace x y w h s :
  focus_rect x y w h s =
    on_gc (emit_all
             (map (fun p => OpPixel p (fl_RGB s))
                  (odd_from 1
                     (outline_walk (floor s x) (floor s y)
                        (floor s (x + w - 1) - floor s x + 1)
                        (floor s (y + h - 1) - floor s y + 1))))) s.
Proof.
  unfold focus_rect. cbv zeta. rewrite !for_each_dot. cbn [fst].
  rewrite !on_gc_emit_all_app, <- !map_app. unfold outline_walk.
  rewrite !odd_from_app, !length_map. reflexivity.
Qed.

(** [focus_rect] plots every other point of the walk around the box from
    [(floor x, floor y)] to that corner plus [(W, H)], where
    [W = floor(x + w - 1) - floor(x) + 1] and likewise [H], in the colour
    [fl_RGB()], starting with the first point of the walk.  For [W >= 0]
    and [H >= 0] these are [W + H] pixels, all on the outline of that box,
    and the walk passes through every pixel of the outline. *)
Theorem focus_rect_outline s dc x y w h :
  let X := floor s x in
  let Y := floor s y in
  let W := floor s (x + w - 1) - floor s x + 1 in
  let H := floor s (y + h - 1) - floor s y + 1 in
  gc_ s = Some dc -> 0 <= W -> 0 <= H ->
  drawn (focus_rect x y w h s) =
    dc_ops dc ++ map (fun p => OpPixel p (fl_RGB s))
                     (odd_from 1 (outline_walk X Y W H)) /\
  length (odd_from 1 (outline_walk X Y W H)) = Z.to_nat (W + H) /\
  (forall p, In p (outline_walk X Y W H) ->
             on_perimeter X Y (X + W) (Y + H) p = true) /\
  (1 <= W + H ->
   forall p, on_perimeter X Y (X + W) (Y + H) p = true ->
             In p (outline_walk X Y W H)).
Proof.
  intros X Y W H Hgc HW HH. split; [|split; [|split]].
  - rewrite focus_rect_trace. unfold drawn, on_gc. rewrite Hgc. reflexivity.
  - apply odd_from_length_even. unfold outline_walk.
    rewrite !length_app, !length_map, !length_upto, !length_downto. lia.
  - intros p. unfold outline_walk. rewrite !in_app_iff, !in_map_iff.
    unfold on_perimeter.
    intros [(v & <- & Hv)|[(v & <- & Hv)|[(v & <- & Hv)|(v & <- & Hv)]]];
      rewrite ?In_upto, ?In_downto in Hv; cbn [fst snd];
      rewrite !andb_true_iff, !orb_true_iff, !Z.leb_le, !Z.eqb_eq; lia.
  - intros Hpos p. unfold on_perimeter.
    rewrite !andb_true_iff, !orb_true_iff, !Z.leb_le, !Z.eqb_eq.
    destruct p as [p1 p2]. cbn [fst snd]. intros Hp.
    unfold outline_walk. rewrite !in_app_iff, !in_map_iff.
    destruct (Z.eq_dec p2 Y) as [E1|N1];
      [destruct (Z_lt_le_dec p1 (X + W)) as [L1|G1]|].
    { left. exists (p1 - X). rewrite In_upto. split; [f_equal; lia | lia]. }
    all: destruct (Z.eq_dec p1 (X + W)) as [E2|N2];
      [destruct (Z_lt_le_dec p2 (Y + H)) as [L2|G2]|].
    all: try (right; left; exists (p2 - Y); rewrite In_upto;
              split; [f_equal; lia | lia]).
    all: destruct (Z.eq_dec p2 (Y + H)) as [E3|N3];
      [destruct (Z_lt_le_dec X p1) as [L3|G3]|].
    all: try (right; right; left; exists (p1 - X); rewrite In_downto;
              split; [f_equal; lia | lia]).
    all: try (right; right; right; exists (p2 - Y); rewrite In_downto;
              split; [f_equal; lia | lia]).
Qed.

(** A stroke that moves at all covers its start point. *)
Lemma line_pixels_start a b : a <> b -> In a (line_pixels a b).
Proof.
  intros Hne. unfold line_pixels. apply in_map_iff.
  destruct a as [ax ay], b as [bx b_y]. cbn [fst snd].
  set (n := Z.max (Z.abs (bx - ax)) (Z.abs (b_y - ay))).
  assert (Hn : 0 < n).
  { destruct (Z.eq_dec bx ax) as [->|]; [|lia].
    destruct (Z.eq_dec b_y ay) as [->|]; [congruence | lia]. }
  exists 0. split.
  - rewrite !Z.mul_0_r, !Z.mul_0_l, !Z.add_0_l.
    rewrite (Z.div_small n (2 * n)) by lia. f_equal; lia.
  - apply In_seqZ. lia.
Qed.

(** [loop_unscaled] strokes a closed chain: each stroke starts where the
    one before ended and the last one ends on the first start point, where
    the current position is left.  No pixel request closes the loop: the
    closing point is covered as the start of the first stroke, like every
    vertex whose outgoing stroke moves at all. *)
Theorem loop_unscaled_closed s dc x y x1 y1 x2 y2 :
  gc_ s = Some dc ->
  drawn (loop_unscaled x y x1 y1 x2 y2 s) =
    dc_ops dc ++ [OpLine (x, y) (x1, y1) (dc_pen dc);
                  OpLine (x1, y1) (x2, y2) (dc_pen dc);
                  OpLine (x2, y2) (x, y) (dc_pen dc)] /\
  option_map dc_pos (gc_ (loop_unscaled x y x1 y1 x2 y2 s)) = Some (x, y) /\
  ((x, y) <> (x1, y1) ->
   In (x, y) (pixels (drawn (loop_unscaled x y x1 y1 x2 y2 s)))) /\
  ((x1, y1) <> (x2, y2) ->
   In (x1, y1) (pixels (drawn (loop_unscaled x y x1 y1 x2 y2 s)))) /\
  ((x2, y2) <> (x, y) ->
   In (x2, y2) (pixels (drawn (loop_unscaled x y x1 y1 x2 y2 s)))).
Proof.
  intros Hgc.
  assert (E : drawn (loop_unscaled x y x1 y1 x2 y2 s) =
              dc_ops dc ++ [OpLine (x, y) (x1, y1) (dc_pen dc);
                            OpLine (x1, y1) (x2, y2) (dc_pen dc);
                            OpLine (x2, y2) (x, y) (dc_pen dc)]).
  { unfold loop_unscaled, drawn, on_gc. rewrite Hgc. cbn.
    now rewrite <- !app_assoc. }
  split; [exact E|]. split.
  { unfold loop_unscaled, on_gc. rewrite Hgc. reflexivity. }
  rewrite E, pixels_app. unfold pixels at 2 4 6. cbn [flat_map op_pixels].
  rewrite app_nil_r. repeat split; intros Hne; apply in_or_app; right.
  - apply in_or_app. left. now apply line_pixels_start.
  - apply in_or_app. right. apply in_or_app. left. now apply line_pixels_start.
  - apply in_or_app. right. apply in_or_app. right. now apply line_pixels_start.
Qed.

(** The four-point form of [loop_unscaled] is closed in the same way. *)
Theorem loop_unscaled4_closed s dc x y x1 y1 x2 y2 x3 y3 :
  gc_ s = Some dc ->
  drawn (loop_unscaled4 x y x1 y1 x2 y2 x3 y3 s) =
    dc_ops dc ++ [OpLine (x, y) (x1, y1) (dc_pen dc);
                  OpLine (x1, y1) (x2, y2) (dc_pen dc);
                  OpLine (x2, y2) (x3, y3) (dc_pen dc);
                  OpLine (x3, y3) (x, y) (dc_pen dc)] /\
  option_map dc_pos (gc_ (loop_unscaled4 x y x1 y1 x2 y2 x3 y3 s)) = Some (x, y) /\
  ((x, y) <> (x1, y1) ->
   In (x, y) (pixels (drawn (loop_unscaled4 x y x1 y1 x2 y2 x3 y3 s)))) /\
  ((x3, y3) <> (x, y) ->
   In (x3, y3) (pixels (drawn (loop_unscaled4 x y x1 y1 x2 y2 x3 y3 s)))).
Proof.
  intros Hgc.
  assert (E : drawn (loop_unscaled4 x y x1 y1 x2 y2 x3 y3 s) =
              dc_ops dc ++ [OpLine (x, y) (x1, y1) (dc_pen dc);
                            OpLine (x1, y1) (x2, y2) (dc_pen dc);
                            OpLine (x2, y2) (x3, y3) (dc_pen dc);
                            OpLine (x3, y3) (x, y) (dc_pen dc)]).
  { unfold loop_unscaled4, drawn, on_gc. rewrite Hgc. cbn.
    now rewrite <- !app_assoc. }
  split; [exact E|]. split.
  { unfold loop_unscaled4, on_gc. rewrite Hgc. reflexivity. }
  rewrite E, pixels_app. unfold pixels at 2 4. cbn [flat_map op_pixels].
  rewrite app_nil_r. split; intros Hne; apply in_or_app; right.
  - apply in_or_app. left. now apply line_pixels_start.
  - do 3 (apply in_or_app; right). now apply line_pixels_start.
Qed.

Lemma In_rect_pixels rc p :
  In p (rect_pixels rc) <-> PtInRect rc p = true.
Proof.
  unfold rect_pixels. rewrite in_flat_map, PtInRect_iff. split.
  - intros (py & Hy & Hp). apply in_map_iff in Hp as (px & <- & Hx).
    apply In_seqZ in Hy, Hx. simpl. lia.
  - intros H. exists p.2. split; [apply In_seqZ; lia|].
    apply in_map_iff. exists p.1. split; [now destruct p | apply In_seqZ; lia].
Qed.

Lemma length_rect_pixels rc :
  left rc <= right rc -> top rc <= bottom rc ->
  Z.of_nat (length (rect_pixels rc)) =
    (right rc - left rc) * (bottom rc - top rc).
Proof.
  intros Hx Hy. unfold rect_pixels.
  assert (Hrow : forall rows : list Z,
             length (flat_map (fun py => map (fun px => (px, py))
                                 (seqZ (left rc) (right rc - left rc))) rows)
             = (length rows * Z.to_nat (right rc - left rc))%nat).
  { induction rows as [|r rows IH]; [reflexivity|].
    cbn [flat_map length]. rewrite length_app, length_map, length_seqZ, IH.
    lia. }
  rewrite Hrow, length_seqZ. nia.
Qed.

(** [rectf_unscaled(x, y, w, h)] asks for one fill with the brush
    [fl_brush()]; for [w >= 0] and [h >= 0] the fill covers the [w * h]
    pixels with [x <= px < x + w] and [y <= py < y + h] and no other.  The
    pen and the current position are not used and stay as they are. *)
Theorem rectf_unscaled_covers s dc x y w h :
  gc_ s = Some dc -> 0 <= w -> 0 <= h ->
  gc_ (rectf_unscaled x y w h s) =
    Some (emit_all [OpFill (mkRECT x y (x + w) (y + h)) (fl_brush s)] dc) /\
  (forall p, In p (op_pixels (OpFill (mkRECT x y (x + w) (y + h)) (fl_brush s)))
             <-> x <= p.1 < x + w /\ y <= p.2 < y + h) /\
  Z.of_nat (length (op_pixels (OpFill (mkRECT x y (x + w) (y + h)) (fl_brush s))))
    = w * h.
Proof.
  intros Hgc Hw Hh. split; [|split].
  - unfold rectf_unscaled, on_gc. rewrite Hgc. reflexivity.
  - intros p. cbn [op_pixels]. rewrite In_rect_pixels, PtInRect_iff. reflexivity.
  - cbn [op_pixels]. rewrite length_rect_pixels by (simpl; lia). simpl. nia.
Qed.

(** ** Nested pen changes *)

Lemma change_pen_width_state s dc pen width :
  gc_ s = Some dc ->
  gdi_objects s !! dc_pen dc = Some (Pen pen) ->
  exists h wide,
    change_pen_width width s =
      (dc_pen dc,
       set_gc (Some (select_pen h dc))
              (set_gdi_objects (<[h := Pen wide]> (gdi_objects s)) s)) /\
    gdi_objects s !! h = None /\ h <> dc_pen dc /\ elpWidth wide = width.
Proof.
  intros Hgc Hpen. destruct s as [g objs st sp mx sc col rgb br n disp ws].
  simpl in Hgc, Hpen. subst g.
  pose proof (fresh_handle_unused objs) as Hfresh.
  assert (Hne : fresh ({[NULL]} ∪ dom objs) ≠ dc_pen dc).
  { intros E. rewrite E in Hfresh. rewrite Hfresh in Hpen. discriminate. }
  unfold change_pen_width, ExtCreatePen, SelectObject. cbn.
  rewrite lookup_insert_eq. cbn.
  eexists _, _. split; [reflexivity|]. repeat split; assumption.
Qed.

Lemma change_reset_pen s dc pen width :
  gc_ s = Some dc ->
  gdi_objects s !! dc_pen dc = Some (Pen pen) ->
  reset_pen_width (change_pen_width width s).1 (change_pen_width width s).2 = s.
Proof.
  intros Hgc Hpen.
  destruct (change_pen_width_state s dc pen width Hgc Hpen)
    as (h & wide & -> & Hfresh & Hne & _).
  destruct s as [g objs st sp mx sc col rgb br n disp ws].
  simpl in Hgc, Hpen, Hfresh. subst g. cbn.
  unfold reset_pen_width, SelectObject. cbn.
  rewrite lookup_insert_ne by exact Hne. rewrite Hpen.
  unfold DeleteObject, set_gdi_objects. cbn.
  rewrite delete_insert_id by exact Hfresh.
  destruct dc; reflexivity.
Qed.

(** Pen changes nest: a second [change_pen_width] inside the first, each
    undone by [reset_pen_width] with its own handle, inner one first,
    leaves the driver in the state before the first change.  The handle
    the inner change returns is the pen of the outer change, a different
    one from the handle the outer change returned. *)
Theorem pen_changes_nest s dc pen w1 w2 :
  gc_ s = Some dc ->
  gdi_objects s !! dc_pen dc = Some (Pen pen) ->
  let c1 := change_pen_width w1 s in
  let c2 := change_pen_width w2 c1.2 in
  c1.1 = dc_pen dc /\ c2.1 <> c1.1 /\
  (exists wide, gdi_objects c1.2 !! c2.1 = Some (Pen wide) /\ elpWidth wide = w1) /\
  reset_pen_width c1.1 (reset_pen_width c2.1 c2.2) = s.
Proof.
  intros Hgc Hpen c1 c2.
  pose proof (change_reset_pen s dc pen w1 Hgc Hpen) as Hback.
  destruct (change_pen_width_state s dc pen w1 Hgc Hpen)
    as (h & wide & E1 & Hfresh & Hne & Hwd).
  fold c1 in Hback, E1.
  assert (Hgc1 : gc_ c1.2 = Some (select_pen h dc)) by now rewrite E1.
  assert (Hpen1 : gdi_objects c1.2 !! dc_pen (select_pen h dc) = Some (Pen wide)).
  { rewrite E1. cbn. apply lookup_insert_eq. }
  pose proof (change_reset_pen c1.2 _ wide w2 Hgc1 Hpen1) as Hback2.
  fold c2 in Hback2.
  destruct (change_pen_width_state c1.2 _ wide w2 Hgc1 Hpen1)
    as (h2 & wide2 & E2 & _).
  fold c2 in E2.
  assert (Hc1 : c1.1 = dc_pen dc) by now rewrite E1.
  assert (Hc2 : c2.1 = h) by now rewrite E2.
  split; [exact Hc1|]. split; [congruence|]. split.
  - exists wide. now rewrite Hc2.
  - now rewrite Hback2.
Qed.

(** * File names *)

Lemma filename_ext_loop_app_sep pre c rest q :
  isdirsep c = true ->
  filename_ext_loop (pre ++ c :: rest) q = filename_ext_loop rest None.
Proof.
  intros Hc. revert q. induction pre as [|a pre IH]; intros q; cbn.
  - now rewrite Hc.
  - destruct (isdirsep a); [apply IH|].
    destruct (Ascii.eqb a "."); apply IH.
Qed.

Lemma filename_ext_loop_plain name q :
  Forall (fun c => isdirsep c = false /\ c <> "."%char) name ->
  filename_ext_loop name q = match q with Some e => e | None => [] end.
Proof.
  intros H. revert q. induction H as [|c name [Hs Hd] _ IH]; intros q; cbn.
  - now destruct q.
  - rewrite Hs. apply Ascii.eqb_neq in Hd. rewrite Hd. apply IH.
Qed.

(** [filename_ext] looks at the last path component only: what stands
    before a directory separator, dots included, makes no difference. *)
Theorem filename_ext_ignores_directory dir c name :
  isdirsep c = true ->
  filename_ext (dir ++ c :: name) = filename_ext name.
Proof. intros Hc. now apply filename_ext_loop_app_sep. Qed.

(** The extension is the part from the last dot on: when neither a dot nor
    a directory separator follows the dot, [filename_ext] returns the dot
    with what follows it; a name without a dot and without a separator has
    the empty extension (the result points at the end of the string). *)
Theorem filename_ext_last_dot pre e :
  Forall (fun c => isdirsep c = false /\ c <> "."%char) e ->
  filename_ext (pre ++ "."%char :: e) = "."%char :: e /\
  filename_ext e = [].
Proof.
  intros He. split.
  - unfold filename_ext. generalize (@None (list ascii)).
    induction pre as [|a pre IH]; intros q; cbn.
    + now rewrite filename_ext_loop_plain.
    + destruct (isdirsep a); [apply IH|].
      destruct (Ascii.eqb a "."); apply IH.
  - unfold filename_ext. now rewrite filename_ext_loop_plain.
Qed.

Lemma filename_ext_loop_shape p q :
  match q with
  | Some e => exists t, e = "."%char :: t /\ exists m, t = m ++ p /\
                Forall (fun c => isdirsep c = false /\ c <> "."%char) m
  | None => True
  end ->
  let r := filename_ext_loop p q in
  (exists pre, match q with Some e => e | None => p end = pre ++ r) /\
  (r = [] \/ exists t, r = "."%char :: t /\
     Forall (fun c => isdirsep c = false /\ c <> "."%char) t).
Proof.
  revert q. induction p as [|c p IH]; intros q Hq; cbn.
  - destruct q as [e|].
    + destruct Hq as (t & -> & m & -> & Hm). rewrite app_nil_r. split.
      * now exists [].
      * right. eauto.
    + split; [now exists [] | now left].
  - destruct (isdirsep c) eqn:Hs.
    + destruct (IH None I) as [(pre & Hpre) Hshape]. split; [|exact Hshape].
      destruct q as [e|].
      * destruct Hq as (t & -> & m & -> & Hm).
        exists ("."%char :: m ++ c :: pre). cbn. rewrite <- app_assoc. cbn.
        now rewrite <- Hpre.
      * exists (c :: pre). cbn. now rewrite <- Hpre.
    + destruct (Ascii.eqb c ".") eqn:Hd.
      * apply Ascii.eqb_eq in Hd. subst c.
        assert (Hq' : exists t, "."%char :: p = "."%char :: t /\
                        exists m, t = m ++ p /\
                          Forall (fun c => isdirsep c = false /\ c <> "."%char) m).
        { exists p. split; [reflexivity|]. exists []. split; [reflexivity|].
          constructor. }
        destruct (IH (Some ("."%char :: p)) Hq') as [(pre & Hpre) Hshape].
        split; [|exact Hshape].
        destruct q as [e|].
        -- destruct Hq as (t & -> & m & -> & Hm).
           exists ("."%char :: m ++ pre). cbn. rewrite <- app_assoc.
           now rewrite <- Hpre.
        -- exists pre. exact Hpre.
      * apply Ascii.eqb_neq in Hd.
        assert (Hq' : match q with
                      | Some e => exists t, e = "."%char :: t /\ exists m, t = m ++ p /\
                          Forall (fun c => isdirsep c = false /\ c <> "."%char) m
                      | None => True
                      end).
        { destruct q as [e|]; [|exact I].
          destruct Hq as (t & -> & m & -> & Hm).
          exists (m ++ c :: p). split; [reflexivity|].
          exists (m ++ [c]). split; [now rewrite <- app_assoc|].
          apply Forall_app. split; [exact Hm|]. constructor; [|constructor].
          split; assumption. }
        destruct (IH q Hq') as [(pre & Hpre) Hshape]. split; [|exact Hshape].
        destruct q as [e|].
        -- exists pre. exact Hpre.
        -- exists (c :: pre). cbn. now rewrite <- Hpre.
Qed.

(** The result of [filename_ext] is a tail of its argument; it is empty or
    a dot followed by characters that are neither dots nor directory
    separators; applying [filename_ext] to it gives it back. *)
Theorem filename_ext_shape buf :
  (exists pre, buf = pre ++ filename_ext buf) /\
  (filename_ext buf = [] \/
   exists t, filename_ext buf = "."%char :: t /\
     Forall (fun c => isdirsep c = false /\ c <> "."%char) t) /\
  filename_ext (filename_ext buf) = filename_ext buf.
Proof.
  destruct (filename_ext_loop_shape buf None I) as [Hpre Hshape].
  fold (filename_ext buf) in Hpre, Hshape.
  split; [exact Hpre|]. split; [exact Hshape|].
  destruct Hshape as [->|(t & -> & Ht)]; [reflexivity|].
  unfold filename_ext. cbn.
  now rewrite filename_ext_loop_plain.
Qed.

Lemma strchr_Some s c r :
  c <> Ascii.zero -> strchr s c = Some r ->
  exists pre t, s = pre ++ r /\ r = c :: t /\ ~ In c pre.
Proof.
  intros Hc. induction s as [|a s IH]; cbn.
  - apply Ascii.eqb_neq in Hc. rewrite Hc. discriminate.
  - destruct (Ascii.eqb a c) eqn:E.
    + apply Ascii.eqb_eq in E. subst a. intros [= <-].
      exists [], s. repeat split. auto.
    + apply Ascii.eqb_neq in E. intros H.
      destruct (IH H) as (pre & t & -> & -> & Hn).
      exists (a :: pre), t. repeat split. intros [Ha|Hin]; auto.
Qed.

Lemma strchr_None s c : strchr s c = None -> ~ In c s.
Proof.
  induction s as [|a s IH]; cbn; [auto|].
  destruct (Ascii.eqb a c) eqn:E; [discriminate|].
  apply Ascii.eqb_neq in E. intros H [Ha|Hin]; [auto | now apply IH].
Qed.

(** [next_dir_sep] finds the first slash; only a string without any slash
    is searched for a backslash, so an earlier backslash is passed over
    when a slash follows.  The result is the null pointer exactly when the
    string has no directory separator. *)
Theorem next_dir_sep_finds start :
  match next_dir_sep start with
  | Some r =>
      exists pre c t, start = pre ++ r /\ r = c :: t /\ isdirsep c = true /\
        ~ In "/"%char pre /\
        (c = "\"%char -> ~ In "/"%char start /\ ~ In "\"%char pre)
  | None => forall c, In c start -> isdirsep c = false
  end.
Proof.
  unfold next_dir_sep. destruct (strchr start "/") as [r|] eqn:E1.
  - destruct (strchr_Some start "/" r ltac:(discriminate) E1)
      as (pre & t & Hs & Hr & Hn).
    exists pre, "/"%char, t. repeat split; try assumption; discriminate.
  - apply strchr_None in E1.
    destruct (strchr start "\") as [r|] eqn:E2.
    + destruct (strchr_Some start "\" r ltac:(discriminate) E2)
        as (pre & t & Hs & Hr & Hn).
      exists pre, "\"%char, t. repeat split; try assumption.
      intros Hin. apply E1. rewrite Hs. apply in_or_app. now left.
    + apply strchr_None in E2. intros c Hc. unfold isdirsep.
      apply orb_false_iff. split; apply Ascii.eqb_neq; intros ->; auto.
Qed.

(** * PNG post-processing *)

Lemma png_pixel_length off buf : length (png_pixel off buf) = length buf.
Proof.
  unfold png_pixel. destruct (buf !! (off + 3)%nat) as [[| |]|]; try reflexivity.
  now rewrite !length_insert.
Qed.

Lemma png_pixel_outside off buf j :
  (j < off \/ off + 3 <= j)%nat -> png_pixel off buf !! j = buf !! j.
Proof.
  intros Hj. unfold png_pixel.
  destruct (buf !! (off + 3)%nat) as [[| |]|]; try reflexivity.
  rewrite !list_lookup_insert_ne by lia. reflexivity.
Qed.

Lemma png_pixel_inside off buf c :
  (c < 3)%nat -> (off + 3 < length buf)%nat ->
  png_pixel off buf !! (off + c)%nat =
    match buf !! (off + 3)%nat with
    | Some 0 => Some 0
    | _ => buf !! (off + c)%nat
    end.
Proof.
  intros Hc Hlen. unfold png_pixel.
  destruct (buf !! (off + 3)%nat) as [[| |]|]; try reflexivity.
  destruct c as [|[|[|c]]]; try lia.
  - rewrite Nat.add_0_r, list_lookup_insert_eq; [reflexivity|].
    rewrite !length_insert. lia.
  - rewrite list_lookup_insert_ne by lia.
    rewrite list_lookup_insert_eq; [reflexivity|]. rewrite !length_insert. lia.
  - rewrite !list_lookup_insert_ne by lia.
    rewrite list_lookup_insert_eq; [reflexivity|]. lia.
Qed.

Lemma png_loop_length i : forall off buf,
  length (png_loop i off buf) = length buf.
Proof.
  induction i as [|i IH]; intros off buf; cbn; [reflexivity|].
  now rewrite IH, png_pixel_length.
Qed.

Lemma png_loop_outside i : forall off buf j,
  (j < off \/ off + 4 * i <= j)%nat -> png_loop i off buf !! j = buf !! j.
Proof.
  induction i as [|i IH]; intros off buf j Hj; cbn; [reflexivity|].
  rewrite IH by lia. apply png_pixel_outside. lia.
Qed.

Lemma png_loop_pixel i : forall off buf k c,
  (k < i)%nat -> (c < 4)%nat -> (off + 4 * i <= length buf)%nat ->
  png_loop i off buf !! (off + 4 * k + c)%nat =
    match c, buf !! (off + 4 * k + 3)%nat with
    | 3%nat, _ => buf !! (off + 4 * k + 3)%nat
    | _, Some 0 => Some 0
    | _, _ => buf !! (off + 4 * k + c)%nat
    end.
Proof.
  induction i as [|i IH]; intros off buf k c Hk Hc Hlen; [lia|]. cbn [png_loop].
  destruct k as [|k].
  - rewrite png_loop_outside by lia.
    replace (off + 4 * 0 + c)%nat with (off + c)%nat by lia.
    replace (off + 4 * 0 + 3)%nat with (off + 3)%nat by lia.
    destruct (Nat.eq_dec c 3%nat) as [->|Hne].
    + apply png_pixel_outside. lia.
    + rewrite png_pixel_inside by lia.
      destruct c as [|[|[|c]]]; try lia; reflexivity.
  - replace (off + 4 * S k + c)%nat with (off + 4 + 4 * k + c)%nat by lia.
    replace (off + 4 * S k + 3)%nat with (off + 4 + 4 * k + 3)%nat by lia.
    rewrite IH by (rewrite ?png_pixel_length; lia).
    rewrite !png_pixel_outside by lia. reflexivity.
Qed.

(** [png_extra_rgba_processing] on a buffer that holds the [w * h] pixels:
    the buffer keeps its length, every alpha byte stays, a pixel whose
    alpha is 0 gets red, green and blue set to 0, every other pixel and
    every byte after the image stay as they were. *)
Theorem png_clears_transparent ptr w h :
  4 * (w * h) <= Z.of_nat (length ptr) ->
  let out := png_extra_rgba_processing ptr w h in
  length out = length ptr /\
  (forall k c, (Z.of_nat k < w * h) -> (c < 4)%nat ->
     out !! (4 * k + c)%nat =
       if (c =? 3)%nat then ptr !! (4 * k + 3)%nat
       else match ptr !! (4 * k + 3)%nat with
            | Some 0 => Some 0
            | _ => ptr !! (4 * k + c)%nat
            end) /\
  (forall j, 4 * (w * h) <= Z.of_nat j -> out !! j = ptr !! j).
Proof.
  intros Hlen out. subst out. unfold png_extra_rgba_processing.
  split; [apply png_loop_length|]. split.
  - intros k c Hk Hc.
    pose proof (png_loop_pixel (Z.to_nat (w * h)) 0%nat ptr k c) as H.
    cbn [Nat.add] in H. rewrite H by lia.
    destruct c as [|[|[|[|c]]]]; try lia; reflexivity.
  - intros j Hj. apply png_loop_outside. lia.
Qed.

(** With no pixel to process ([w * h <= 0]) the buffer is returned as it
    is, and processing a buffer a second time changes nothing. *)
Theorem png_processing_idempotent ptr w h :
  4 * (w * h) <= Z.of_nat (length ptr) ->
  (w * h <= 0 -> png_extra_rgba_processing ptr w h = ptr) /\
  png_extra_rgba_processing (png_extra_rgba_processing ptr w h) w h =
    png_extra_rgba_processing ptr w h.
Proof.
  intros Hlen. split.
  - intros Hz. unfold png_extra_rgba_processing.
    replace (Z.to_nat (w * h)) with 0%nat by lia. reflexivity.
  - unfold png_extra_rgba_processing. set (n := Z.to_nat (w * h)).
    assert (Hn : (4 * n <= length ptr)%nat) by lia.
    apply list_eq. intros j.
    destruct (Nat.lt_ge_cases j (4 * n)) as [Hin|Hout].
    + pose proof (Nat.div_mod_eq j 4%nat) as Hj.
      pose proof (Nat.mod_upper_bound j 4%nat ltac:(lia)) as Hc.
      set (k := (j / 4)%nat) in *. set (c := (j mod 4)%nat) in *.
      assert (Hk : (k < n)%nat) by lia.
      replace j with (0 + 4 * k + c)%nat by lia.
      rewrite (png_loop_pixel n 0%nat _ k c Hk Hc)
        by (rewrite png_loop_length; lia).
      rewrite (png_loop_pixel n 0%nat ptr k 3%nat Hk) by lia.
      rewrite (png_loop_pixel n 0%nat ptr k c Hk Hc) by lia.
      destruct c as [|[|[|[|c]]]]; try lia; try reflexivity;
        destruct (ptr !! (0 + 4 * k + 3)%nat) as [[| |]|]; reflexivity.
    + rewrite !png_loop_outside by lia. reflexivity.
Qed.

(** * UTF-16 to UTF-8 *)

Lemma u32_small z : 0 <= z < 2 ^ 32 -> u32 z = z.
Proof. intros H. unfold u32. now apply Z.mod_small. Qed.

Lemma poke_inside dst i v :
  0 <= i < Z.of_nat (length dst) ->
  poke dst i v = Some (<[Z.to_nat i := to_char v]> dst).
Proof.
  intros H. unfold poke.
  replace ((0 <=? i) && (i <? Z.of_nat (length dst))) with true; [reflexivity|].
  symmetry. apply andb_true_iff. split; [apply Z.leb_le | apply Z.ltb_lt]; lia.
Qed.

Lemma kept_beyond_refl n dst : kept_beyond n dst dst.
Proof. split; auto. Qed.

Lemma kept_beyond_trans n a b c :
  kept_beyond n a b -> kept_beyond n b c -> kept_beyond n a c.
Proof.
  intros [L1 H1] [L2 H2]. split; [congruence|].
  intros j Hj. now rewrite H2, H1.
Qed.

Lemma kept_beyond_insert n dst i v :
  Z.of_nat i < n -> kept_beyond n dst (<[i := v]> dst).
Proof.
  intros Hi. split; [apply length_insert|].
  intros j Hj. apply list_lookup_insert_ne. lia.
Qed.

Lemma put_bytes_safe dstlen : forall bytes dst count,
  0 <= count -> count + Z.of_nat (length bytes) <= dstlen ->
  dstlen <= Z.of_nat (length dst) -> dstlen + 4 <= 2 ^ 32 ->
  exists d, put_bytes dst count bytes = Some d /\ kept_beyond dstlen dst d.
Proof.
  induction bytes as [|b bytes IH]; intros dst count Hc Hfit Hlen Hmax.
  - exists dst. split; [reflexivity | apply kept_beyond_refl].
  - cbn [put_bytes]. cbn [length] in Hfit.
    rewrite poke_inside by lia. rewrite u32_small by lia.
    destruct (IH (<[Z.to_nat count := to_char b]> dst) (count + 1))
      as (d & Hd & Hk); try lia.
    { rewrite length_insert. lia. }
    exists d. split; [exact Hd|].
    eapply kept_beyond_trans; [|exact Hk]. apply kept_beyond_insert. lia.
Qed.

Lemma put_or_break_safe dst dstlen count bytes :
  0 <= count < dstlen -> (length bytes <= 4)%nat ->
  dstlen <= Z.of_nat (length dst) -> dstlen + 4 <= 2 ^ 32 ->
  exists b c d,
    put_or_break dst dstlen count bytes = Some (b, c, d) /\
    kept_beyond dstlen dst d /\
    (b = true -> d !! Z.to_nat count = Some 0) /\
    (b = false -> count <= c < dstlen).
Proof.
  intros Hc Hn Hlen Hmax. unfold put_or_break.
  rewrite u32_small by lia.
  destruct (dstlen <=? count + Z.of_nat (length bytes)) eqn:E.
  - rewrite poke_inside by lia. eexists _, _, _. split; [reflexivity|].
    split; [apply kept_beyond_insert; lia|]. split; [|discriminate].
    intros _. apply list_lookup_insert_eq. lia.
  - apply Z.leb_gt in E.
    destruct (put_bytes_safe dstlen bytes dst count) as (d & Hd & Hk); try lia.
    rewrite Hd. eexists _, _, _. split; [reflexivity|].
    split; [exact Hk|]. split; [discriminate|]. intros _. lia.
Qed.

Lemma utf8_fill_safe dstlen : forall n src, (length src <= n)%nat ->
  forall count dst,
  0 <= count < dstlen -> dstlen <= Z.of_nat (length dst) -> dstlen + 4 <= 2 ^ 32 ->
  exists r d,
    utf8_fill src count dst dstlen = Some (r, d) /\
    kept_beyond dstlen dst d /\
    exists k, count <= k < dstlen /\ d !! Z.to_nat k = Some 0.
Proof.
  induction n as [|n IH]; intros src Hn count dst Hc Hlen Hmax.
  - destruct src; [|simpl in Hn; lia]. cbn [utf8_fill].
    rewrite poke_inside by lia. eexists _, _. split; [reflexivity|].
    split; [apply kept_beyond_insert; lia|].
    exists count. split; [lia|]. apply list_lookup_insert_eq. lia.
  - destruct src as [|ucs rest].
    { cbn [utf8_fill]. rewrite poke_inside by lia. eexists _, _.
      split; [reflexivity|]. split; [apply kept_beyond_insert; lia|].
      exists count. split; [lia|]. apply list_lookup_insert_eq. lia. }
    cbn [length] in Hn.
    assert (Hmulti : forall bytes rest',
      (length bytes <= 4)%nat -> (length rest' <= n)%nat ->
      exists r d,
        match put_or_break dst dstlen count bytes with
        | Some (true, count, dst') => Some (utf8_measure rest' count, dst')
        | Some (false, count, dst') => utf8_fill rest' count dst' dstlen
        | None => None
        end = Some (r, d) /\
        kept_beyond dstlen dst d /\
        exists k, count <= k < dstlen /\ d !! Z.to_nat k = Some 0).
    { intros bytes rest' Hb Hr.
      destruct (put_or_break_safe dst dstlen count bytes Hc Hb Hlen Hmax)
        as (b & c & d1 & -> & Hk & Ht & Hf).
      destruct b.
      - eexists _, _. split; [reflexivity|]. split; [exact Hk|].
        exists count. split; [lia | now apply Ht].
      - specialize (Hf eq_refl).
        destruct (IH rest' Hr c d1) as (r & d & Hfill & Hk2 & k & Hkr & Hz);
          try lia.
        { destruct Hk as [-> _]. lia. }
        exists r, d. split; [exact Hfill|].
        split; [eapply kept_beyond_trans; eassumption|].
        exists k. split; [lia | exact Hz]. }
    cbn [utf8_fill].
    destruct (ucs <? 0x80).
    + rewrite poke_inside by lia. rewrite u32_small by lia.
      destruct (dstlen <=? count + 1) eqn:E.
      * rewrite u32_small by lia. rewrite poke_inside
          by (rewrite length_insert; lia).
        eexists _, _. split; [reflexivity|]. split.
        -- eapply kept_beyond_trans; apply kept_beyond_insert; lia.
        -- exists count. split; [lia|].
           replace (count + 1 - 1) with count by lia.
           apply list_lookup_insert_eq. rewrite length_insert. lia.
      * apply Z.leb_gt in E.
        destruct (IH rest ltac:(lia) (count + 1)
                    (<[Z.to_nat count := to_char ucs]> dst))
          as (r & d & Hfill & Hk2 & k & Hkr & Hz); try lia.
        { rewrite length_insert. lia. }
        exists r, d. split; [exact Hfill|]. split.
        -- eapply kept_beyond_trans; [|exact Hk2]. apply kept_beyond_insert. lia.
        -- exists k. split; [lia | exact Hz].
    + destruct (ucs <? 0x800); [apply Hmulti; simpl; lia|].
      destruct rest as [|ucs2 rest2]; [apply Hmulti; simpl; lia|].
      destruct (is_high ucs && is_low ucs2); apply Hmulti; simpl in *; lia.
Qed.

(** [utf8fromwc] stays inside its buffer: when [dst] has at least the
    [dstlen] bytes the caller states, every store hits [dst[0 .. dstlen)],
    the function returns, the buffer keeps its size and its bytes from
    [dstlen] on, and for [dstlen > 0] the part before holds a terminating
    0.  With [dstlen = 0] nothing is stored at all. *)
Theorem utf8fromwc_in_bounds dst dstlen src :
  0 <= dstlen <= Z.of_nat (length dst) -> dstlen + 4 <= 2 ^ 32 ->
  exists r d,
    utf8fromwc dst dstlen src = Some (r, d) /\
    kept_beyond dstlen dst d /\
    (dstlen = 0 -> d = dst /\ r = utf8_measure src 0) /\
    (0 < dstlen -> exists k, 0 <= k < dstlen /\ d !! Z.to_nat k = Some 0).
Proof.
  intros Hlen Hmax. unfold utf8fromwc.
  destruct (Z.eqb_spec dstlen 0) as [->|Hne].
  - exists (utf8_measure src 0), dst. split; [reflexivity|].
    split; [apply kept_beyond_refl|]. split; [auto | lia].
  - destruct (utf8_fill_safe dstlen (length src) src (le_n _) 0 dst)
      as (r & d & Hfill & Hk & k & Hkr & Hz); try lia.
    exists r, d. split; [exact Hfill|]. split; [exact Hk|].
    split; [lia|]. intros _. exists k. split; [lia | exact Hz].
Qed.

Lemma put_or_break_count dst dstlen count bytes b c d :
  put_or_break dst dstlen count bytes = Some (b, c, d) ->
  c = u32 (count + Z.of_nat (length bytes)).
Proof.
  unfold put_or_break. destruct (dstlen <=? _).
  - destruct (poke dst count 0); [|discriminate]. now intros [= <- <- <-].
  - destruct (put_bytes dst count bytes); [|discriminate]. now intros [= <- <- <-].
Qed.

Lemma utf8_fill_measure dstlen : forall src,
  Forall (fun u => is_high u = false) src ->
  forall count dst r d,
  utf8_fill src count dst dstlen = Some (r, d) -> r = utf8_measure src count.
Proof.
  induction src as [|ucs rest IH]; intros Hs count dst r d; cbn [utf8_fill].
  - destruct (poke dst count 0); [|discriminate]. now intros [= <- <-].
  - inversion Hs as [|? ? Hu Hrest]; subst.
    assert (Hmulti : forall bytes,
      match put_or_break dst dstlen count bytes with
      | Some (true, count, dst') => Some (utf8_measure rest count, dst')
      | Some (false, count, dst') => utf8_fill rest count dst' dstlen
      | None => None
      end = Some (r, d) ->
      r = utf8_measure rest (u32 (count + Z.of_nat (length bytes)))).
    { intros bytes.
      destruct (put_or_break dst dstlen count bytes) as [[[b c] d1]|] eqn:E;
        [|discriminate].
      apply put_or_break_count in E. subst c. destruct b.
      - now intros [= <- <-].
      - apply IH. exact Hrest. }
    cbn [utf8_measure]. destruct (ucs <? 0x80).
    + destruct (poke dst count ucs) as [dst1|]; [|discriminate].
      destruct (dstlen <=? u32 (count + 1)).
      * destruct (poke dst1 _ 0); [|discriminate]. now intros [= <- <-].
      * apply IH. exact Hrest.
    + destruct (ucs <? 0x800); [apply (Hmulti (enc2 ucs))|].
      rewrite Hu. cbn [andb].
      destruct rest as [|ucs2 rest2]; [apply (Hmulti (enc3 ucs))|].
      intros H. apply (Hmulti (enc3 ucs)) in H. rewrite H.
      now destruct rest2.
Qed.

Lemma utf8_measure_bytes : forall src count,
  Forall (fun u => is_high u = false) src ->
  0 <= count -> count + Z.of_nat (length (utf8_bytes src)) < 2 ^ 32 ->
  utf8_measure src count = count + Z.of_nat (length (utf8_bytes src)).
Proof.
  induction src as [|ucs rest IH]; intros count Hs Hc Hmax;
    cbn [utf8_measure utf8_bytes] in *.
  - simpl. lia.
  - inversion Hs as [|? ? Hu Hrest]; subst. rewrite Hu in *. cbn [andb] in *.
    destruct (ucs <? 0x80).
    + cbn [length] in *. rewrite u32_small by lia. rewrite IH by (auto; lia). lia.
    + destruct (ucs <? 0x800).
      * rewrite length_app in *. cbn [enc2 length] in *.
        rewrite u32_small by lia. rewrite IH by (auto; lia). lia.
      * assert (E : utf8_measure rest (u32 (count + 3)) =
                    count + Z.of_nat (length (enc3 ucs ++ utf8_bytes rest))).
        { assert (Hl : Z.of_nat (length (enc3 ucs ++ utf8_bytes rest)) =
                       3 + Z.of_nat (length (utf8_bytes rest)))
            by (rewrite length_app; cbn [enc3 length]; lia).
          destruct rest as [|ucs2 rest2]; rewrite Hl in *;
            rewrite u32_small by lia; rewrite IH by (auto; lia); lia. }
        destruct rest as [|ucs2 [|next rest3]]; exact E.
Qed.

(** For input without high surrogates the count [utf8fromwc] returns does
    not depend on the buffer: it is the number of bytes the whole
    conversion takes, also when the buffer is too small or [dstlen] is 0. *)
Theorem utf8fromwc_count dst dstlen src r d :
  Forall (fun u => is_high u = false) src ->
  Z.of_nat (length (utf8_bytes src)) < 2 ^ 32 ->
  utf8fromwc dst dstlen src = Some (r, d) ->
  r = Z.of_nat (length (utf8_bytes src)).
Proof.
  intros Hs Hmax. unfold utf8fromwc.
  rewrite <- (Z.add_0_l (Z.of_nat _)).
  rewrite <- (utf8_measure_bytes src 0 Hs) by lia.
  destruct (dstlen =? 0).
  - now intros [= <- <-].
  - now apply utf8_fill_measure.
Qed.

Lemma poke_app pre x post v :
  poke (pre ++ x :: post) (Z.of_nat (length pre)) v =
    Some (pre ++ to_char v :: post).
Proof.
  rewrite poke_inside by (rewrite length_app; simpl; lia).
  rewrite Nat2Z.id. f_equal.
  rewrite insert_app_r_alt by lia. now rewrite Nat.sub_diag.
Qed.

Lemma put_bytes_app : forall bytes pre mid post,
  length mid = length bytes ->
  Z.of_nat (length pre + length bytes) < 2 ^ 32 ->
  put_bytes (pre ++ mid ++ post) (Z.of_nat (length pre)) bytes =
    Some (pre ++ map to_char bytes ++ post).
Proof.
  induction bytes as [|b bytes IH]; intros pre mid post Hm Hmax.
  - destruct mid; [reflexivity | discriminate].
  - destruct mid as [|x mid]; [discriminate|]. cbn [put_bytes length] in *.
    change ((x :: mid) ++ post) with (x :: mid ++ post).
    rewrite poke_app. rewrite u32_small by lia.
    replace (Z.of_nat (length pre) + 1)
      with (Z.of_nat (length (pre ++ [to_char b])))
      by (rewrite length_app; simpl; lia).
    replace (pre ++ to_char b :: mid ++ post)
      with ((pre ++ [to_char b]) ++ mid ++ post)
      by now rewrite <- app_assoc.
    rewrite IH by (rewrite ?length_app; simpl; lia).
    now rewrite <- app_assoc.
Qed.

Lemma utf8_fill_fits dstlen : forall n src, (length src <= n)%nat ->
  forall pre mid post,
  length mid = S (length (utf8_bytes src)) ->
  Z.of_nat (length pre + length mid) <= dstlen -> dstlen + 4 <= 2 ^ 32 ->
  utf8_fill src (Z.of_nat (length pre)) (pre ++ mid ++ post) dstlen =
    Some (Z.of_nat (length pre + length (utf8_bytes src)),
          pre ++ map to_char (utf8_bytes src) ++ 0 :: post).
Proof.
  induction n as [|n IH]; intros src Hn pre mid post Hm Hfit Hmax.
  - destruct src; [|simpl in Hn; lia]. cbn in *.
    destruct mid as [|x [|? ?]]; try discriminate. cbn.
    rewrite poke_app. now rewrite Nat.add_0_r.
  - destruct src as [|ucs rest].
    { cbn in *. destruct mid as [|x [|? ?]]; try discriminate. cbn.
      rewrite poke_app. now rewrite Nat.add_0_r. }
    cbn [length] in Hn.
    assert (Hmulti : forall bytes rest',
      (length rest' <= n)%nat -> (0 < length bytes <= 4)%nat ->
      length mid = S (length (bytes ++ utf8_bytes rest')) ->
      match put_or_break (pre ++ mid ++ post) dstlen
              (Z.of_nat (length pre)) bytes with
      | Some (true, count, dst') => Some (utf8_measure rest' count, dst')
      | Some (false, count, dst') => utf8_fill rest' count dst' dstlen
      | None => None
      end =
      Some (Z.of_nat (length pre + length (bytes ++ utf8_bytes rest')),
            pre ++ map to_char (bytes ++ utf8_bytes rest') ++ 0 :: post)).
    { intros bytes rest' Hr Hb Hm'. rewrite length_app in Hm'.
      unfold put_or_break. rewrite u32_small by lia.
      replace (dstlen <=? Z.of_nat (length pre) + Z.of_nat (length bytes))
        with false by (symmetry; apply Z.leb_gt; lia).
      rewrite <- (take_drop (length bytes) mid), <- app_assoc.
      rewrite put_bytes_app
        by (rewrite ?length_take; lia).
      replace (Z.of_nat (length pre) + Z.of_nat (length bytes))
        with (Z.of_nat (length (pre ++ map to_char bytes)))
        by (rewrite length_app, length_map; lia).
      replace (pre ++ map to_char bytes ++ drop (length bytes) mid ++ post)
        with ((pre ++ map to_char bytes) ++ drop (length bytes) mid ++ post)
        by now rewrite <- app_assoc.
      rewrite IH; try assumption.
      - rewrite !length_app, length_map, map_app, <- !app_assoc.
        f_equal. f_equal. lia.
      - rewrite length_drop. lia.
      - rewrite length_app, length_map, length_drop. lia. }
    cbn [utf8_fill utf8_bytes] in *.
    destruct (ucs <? 0x80).
    + cbn [length] in Hm. destruct mid as [|x mid]; [discriminate|].
      change ((x :: mid) ++ post) with (x :: mid ++ post).
      rewrite poke_app. cbn [length] in Hfit. rewrite u32_small by lia.
      replace (dstlen <=? Z.of_nat (length pre) + 1)
        with false by (symmetry; apply Z.leb_gt; cbn [length] in *; lia).
      replace (Z.of_nat (length pre) + 1)
        with (Z.of_nat (length (pre ++ [to_char ucs])))
        by (rewrite length_app; simpl; lia).
      replace (pre ++ to_char ucs :: mid ++ post)
        with ((pre ++ [to_char ucs]) ++ mid ++ post)
        by now rewrite <- app_assoc.
      rewrite IH; try assumption; try lia.
      * rewrite length_app, <- app_assoc. cbn [length map app].
        f_equal. f_equal. lia.
      * cbn [length] in Hm. lia.
      * rewrite length_app. cbn [length] in *. lia.
    + destruct (ucs <? 0x800).
      { apply Hmulti; [lia | cbn; lia | exact Hm]. }
      destruct rest as [|ucs2 rest2].
      { apply Hmulti; [simpl; lia | cbn; lia | exact Hm]. }
      destruct (is_high ucs && is_low ucs2).
      * apply Hmulti; [simpl in *; lia | cbn; lia | exact Hm].
      * apply Hmulti; [simpl in *; lia | cbn; lia | exact Hm].
Qed.

(** When the converted bytes and the terminating 0 fit into [dstlen],
    [utf8fromwc] returns their number and leaves them at the start of the
    buffer, followed by the 0 and the rest of the buffer as it was. *)
Theorem utf8fromwc_fits dst dstlen src :
  Z.of_nat (length (utf8_bytes src)) < dstlen ->
  dstlen <= Z.of_nat (length dst) -> dstlen + 4 <= 2 ^ 32 ->
  utf8fromwc dst dstlen src =
    Some (Z.of_nat (length (utf8_bytes src)),
          map to_char (utf8_bytes src) ++
          0 :: drop (S (length (utf8_bytes src))) dst).
Proof.
  intros Hfit Hlen Hmax. unfold utf8fromwc.
  replace (dstlen =? 0) with false by (symmetry; apply Z.eqb_neq; lia).
  set (m := S (length (utf8_bytes src))).
  rewrite <- (take_drop m dst) at 1.
  apply (utf8_fill_fits dstlen (length src) src (le_n _) []
           (take m dst) (drop m dst)).
  - rewrite length_take. subst m. apply Nat.min_l. lia.
  - rewrite length_take. subst m. rewrite Nat.min_l by lia. simpl. lia.
  - exact Hmax.
Qed.

Lemma lor_lead (lead limit y : Z) :
  forallb (fun v => Z.lor lead v =? lead + v) (seqZ 0 limit) = true ->
  0 <= y < limit -> Z.lor lead y = lead + y.
Proof.
  intros H Hy. rewrite forallb_forall in H. apply Z.eqb_eq, H, In_seqZ. lia.
Qed.

Lemma lor_0x80 y : 0 <= y < 64 -> Z.lor 0x80 y = 0x80 + y.
Proof. apply lor_lead. vm_compute. reflexivity. Qed.

Lemma lor_0xc0 y : 0 <= y < 32 -> Z.lor 0xc0 y = 0xc0 + y.
Proof. apply lor_lead. vm_compute. reflexivity. Qed.

Lemma lor_0xe0 y : 0 <= y < 16 -> Z.lor 0xe0 y = 0xe0 + y.
Proof. apply lor_lead. vm_compute. reflexivity. Qed.

Lemma lor_0xf0 y : 0 <= y < 8 -> Z.lor 0xf0 y = 0xf0 + y.
Proof. apply lor_lead. vm_compute. reflexivity. Qed.

Lemma land_0x3F u : Z.land u 0x3F = u mod 64.
Proof. change 0x3F with (Z.ones 6). now rewrite Z.land_ones by lia. Qed.

Lemma land_0x3ff u : Z.land u 0x3ff = u mod 1024.
Proof. change 0x3ff with (Z.ones 10). now rewrite Z.land_ones by lia. Qed.

Lemma shiftr_6 u : Z.shiftr u 6 = u / 64.
Proof. now rewrite Z.shiftr_div_pow2 by lia. Qed.

Lemma shiftr_12 u : Z.shiftr u 12 = u / 64 / 64.
Proof.
  rewrite Z.shiftr_div_pow2 by lia. rewrite Z.div_div by lia. reflexivity.
Qed.

Lemma shiftr_18 u : Z.shiftr u 18 = u / 64 / 64 / 64.
Proof.
  rewrite Z.shiftr_div_pow2 by lia. rewrite !Z.div_div by lia. reflexivity.
Qed.

Lemma surrogate_pair_value hi lo :
  is_high hi = true -> is_low lo = true ->
  surrogate_pair hi lo = 0x10000 + (hi - 0xd800) * 1024 + (lo - 0xdc00).
Proof.
  unfold is_high, is_low, surrogate_pair.
  rewrite !andb_true_iff, !Z.leb_le. intros [H1 H2] [L1 L2].
  rewrite !land_0x3ff, Z.shiftl_mul_pow2 by lia. change (2 ^ 10) with 1024.
  pose proof (Z.div_mod hi 1024 ltac:(lia)) as Eh.
  pose proof (Z.mod_pos_bound hi 1024 ltac:(lia)) as Bh.
  pose proof (Z.div_mod lo 1024 ltac:(lia)) as El.
  pose proof (Z.mod_pos_bound lo 1024 ltac:(lia)) as Bl.
  assert (Hh : hi mod 1024 = hi - 0xd800) by lia.
  assert (Hl : lo mod 1024 = lo - 0xdc00) by lia.
  rewrite Hh, Hl.
  rewrite (u32_small (0x10000 + (hi - 0xd800) * 1024)) by lia.
  rewrite u32_small by lia. lia.
Qed.

Lemma enc2_bytes u :
  0x80 <= u < 0x800 -> enc2 u = [0xc0 + u / 64; 0x80 + u mod 64].
Proof.
  intros Hu. unfold enc2. rewrite shiftr_6, land_0x3F.
  pose proof (Z.div_mod u 64 ltac:(lia)) as E.
  pose proof (Z.mod_pos_bound u 64 ltac:(lia)) as B.
  now rewrite lor_0xc0, lor_0x80 by lia.
Qed.

Lemma enc3_bytes u :
  0x800 <= u < 0x10000 ->
  enc3 u = [0xe0 + u / 64 / 64; 0x80 + (u / 64) mod 64; 0x80 + u mod 64].
Proof.
  intros Hu. unfold enc3. rewrite shiftr_12, shiftr_6, !land_0x3F.
  pose proof (Z.div_mod u 64 ltac:(lia)) as E1.
  pose proof (Z.mod_pos_bound u 64 ltac:(lia)) as B1.
  pose proof (Z.div_mod (u / 64) 64 ltac:(lia)) as E2.
  pose proof (Z.mod_pos_bound (u / 64) 64 ltac:(lia)) as B2.
  now rewrite lor_0xe0, !lor_0x80 by lia.
Qed.

Lemma enc4_bytes hi lo :
  is_high hi = true -> is_low lo = true ->
  let u := 0x10000 + (hi - 0xd800) * 1024 + (lo - 0xdc00) in
  enc4 hi lo = [0xf0 + u / 64 / 64 / 64; 0x80 + (u / 64 / 64) mod 64;
                0x80 + (u / 64) mod 64; 0x80 + u mod 64].
Proof.
  intros Hh Hl u. unfold enc4. cbv zeta.
  rewrite (surrogate_pair_value hi lo Hh Hl). fold u.
  unfold is_high, is_low in Hh, Hl.
  rewrite !andb_true_iff, !Z.leb_le in Hh, Hl.
  rewrite shiftr_18, shiftr_12, shiftr_6, !land_0x3F.
  pose proof (Z.div_mod u 64 ltac:(lia)) as E1.
  pose proof (Z.mod_pos_bound u 64 ltac:(lia)) as B1.
  pose proof (Z.div_mod (u / 64) 64 ltac:(lia)) as E2.
  pose proof (Z.mod_pos_bound (u / 64) 64 ltac:(lia)) as B2.
  pose proof (Z.div_mod (u / 64 / 64) 64 ltac:(lia)) as E3.
  pose proof (Z.mod_pos_bound (u / 64 / 64) 64 ltac:(lia)) as B3.
  now rewrite lor_0xf0, !lor_0x80 by lia.
Qed.

Lemma utf8_bytes_one u :
  utf8_bytes [u] =
    if u <? 0x80 then [u] else if u <? 0x800 then enc2 u else enc3 u.
Proof.
  cbn [utf8_bytes]. destruct (u <? 0x80); [reflexivity|].
  destruct (u <? 0x800); now rewrite app_nil_r.
Qed.

Lemma utf8_bytes_pair hi lo :
  is_high hi = true -> is_low lo = true -> utf8_bytes [hi; lo] = enc4 hi lo.
Proof.
  intros Hh Hl. cbn [utf8_bytes]. rewrite Hh, Hl. cbn [andb].
  unfold is_high in Hh. rewrite andb_true_iff, !Z.leb_le in Hh.
  replace (hi <? 0x80) with false by (symmetry; apply Z.ltb_ge; lia).
  replace (hi <? 0x800) with false by (symmetry; apply Z.ltb_ge; lia).
  now rewrite app_nil_r.
Qed.

Ltac bool_to_Z :=
  unfold in_range;
  rewrite ?andb_true_iff, ?orb_true_iff, ?Z.leb_le, ?Z.eqb_eq.

(** The bytes [utf8fromwc] stores for one character that is not a lone
    surrogate are well-formed UTF-8 and stand for the character: one byte
    below [0x80], two bytes below [0x800], three bytes for the other
    units outside [0xD800 .. 0xDFFF], and four bytes for a surrogate pair,
    which stand for [0x10000 + (hi - 0xD800) * 0x400 + (lo - 0xDC00)].  A
    surrogate without its partner is not rejected: it is stored as three
    bytes, [0xED] followed by a byte in [0xA0 .. 0xBF], which is not
    well-formed UTF-8. *)
Theorem utf8_encoding_decodes :
  (forall u, 0 <= u < 0x80 ->
     utf8_bytes [u] = [u] /\ well_formed_utf8 (utf8_bytes [u]) = true) /\
  (forall u, 0x80 <= u < 0x800 ->
     length (utf8_bytes [u]) = 2%nat /\
     well_formed_utf8 (utf8_bytes [u]) = true /\
     utf8_value (utf8_bytes [u]) = u) /\
  (forall u, 0x800 <= u < 0x10000 -> is_high u = false -> is_low u = false ->
     length (utf8_bytes [u]) = 3%nat /\
     well_formed_utf8 (utf8_bytes [u]) = true /\
     utf8_value (utf8_bytes [u]) = u) /\
  (forall hi lo, is_high hi = true -> is_low lo = true ->
     length (utf8_bytes [hi; lo]) = 4%nat /\
     well_formed_utf8 (utf8_bytes [hi; lo]) = true /\
     utf8_value (utf8_bytes [hi; lo]) =
       0x10000 + (hi - 0xd800) * 1024 + (lo - 0xdc00)) /\
  (forall u, is_high u || is_low u = true ->
     exists b2 b3, utf8_bytes [u] = [0xed; b2; b3] /\ 0xa0 <= b2 <= 0xbf /\
       well_formed_utf8 (utf8_bytes [u]) = false).
Proof.
  split; [|split; [|split; [|split]]].
  - intros u Hu. rewrite utf8_bytes_one.
    replace (u <? 0x80) with true by (symmetry; apply Z.ltb_lt; lia).
    split; [reflexivity|]. cbn [well_formed_utf8]. bool_to_Z. lia.
  - intros u Hu. rewrite utf8_bytes_one.
    replace (u <? 0x80) with false by (symmetry; apply Z.ltb_ge; lia).
    replace (u <? 0x800) with true by (symmetry; apply Z.ltb_lt; lia).
    rewrite (enc2_bytes u Hu).
    pose proof (Z.div_mod u 64 ltac:(lia)) as E.
    pose proof (Z.mod_pos_bound u 64 ltac:(lia)) as B.
    split; [reflexivity|]. split.
    + cbn [well_formed_utf8]. bool_to_Z. lia.
    + cbn [utf8_value]. lia.
  - intros u Hu Hh Hl. rewrite utf8_bytes_one.
    replace (u <? 0x80) with false by (symmetry; apply Z.ltb_ge; lia).
    replace (u <? 0x800) with false by (symmetry; apply Z.ltb_ge; lia).
    rewrite (enc3_bytes u Hu).
    unfold is_high, is_low in Hh, Hl.
    rewrite andb_false_iff, !Z.leb_gt in Hh, Hl.
    pose proof (Z.div_mod u 64 ltac:(lia)) as E1.
    pose proof (Z.mod_pos_bound u 64 ltac:(lia)) as B1.
    pose proof (Z.div_mod (u / 64) 64 ltac:(lia)) as E2.
    pose proof (Z.mod_pos_bound (u / 64) 64 ltac:(lia)) as B2.
    split; [reflexivity|]. split.
    + cbn [well_formed_utf8]. bool_to_Z. lia.
    + cbn [utf8_value]. lia.
  - intros hi lo Hh Hl. rewrite (utf8_bytes_pair hi lo Hh Hl).
    rewrite (enc4_bytes hi lo Hh Hl). cbv zeta.
    unfold is_high, is_low in Hh, Hl.
    rewrite !andb_true_iff, !Z.leb_le in Hh, Hl.
    set (u := 0x10000 + (hi - 0xd800) * 1024 + (lo - 0xdc00)) in *.
    pose proof (Z.div_mod u 64 ltac:(lia)) as E1.
    pose proof (Z.mod_pos_bound u 64 ltac:(lia)) as B1.
    pose proof (Z.div_mod (u / 64) 64 ltac:(lia)) as E2.
    pose proof (Z.mod_pos_bound (u / 64) 64 ltac:(lia)) as B2.
    pose proof (Z.div_mod (u / 64 / 64) 64 ltac:(lia)) as E3.
    pose proof (Z.mod_pos_bound (u / 64 / 64) 64 ltac:(lia)) as B3.
    split; [reflexivity|]. split.
    + cbn [well_formed_utf8]. bool_to_Z. lia.
    + cbn [utf8_value]. lia.
  - intros u Hs. unfold is_high, is_low in Hs.
    rewrite orb_true_iff, !andb_true_iff, !Z.leb_le in Hs.
    rewrite utf8_bytes_one.
    replace (u <? 0x80) with false by (symmetry; apply Z.ltb_ge; lia).
    replace (u <? 0x800) with false by (symmetry; apply Z.ltb_ge; lia).
    rewrite (enc3_bytes u) by lia.
    pose proof (Z.div_mod u 64 ltac:(lia)) as E1.
    pose proof (Z.mod_pos_bound u 64 ltac:(lia)) as B1.
    pose proof (Z.div_mod (u / 64) 64 ltac:(lia)) as E2.
    pose proof (Z.mod_pos_bound (u / 64) 64 ltac:(lia)) as B2.
    assert (H1 : u / 64 / 64 = 13) by lia.
    exists (0x80 + (u / 64) mod 64), (0x80 + u mod 64).
    split; [now rewrite H1|]. split; [lia|].
    apply not_true_iff_false. cbn [well_formed_utf8]. bool_to_Z. lia.
Qed.

Lemma utf8_fill_whole_chars dstlen : forall n src, (length src <= n)%nat ->
  forall pre mid post,
  mid <> [] -> Z.of_nat (length pre + length mid) = dstlen ->
  dstlen + 4 <= 2 ^ 32 ->
  exists r s1 s2 m2,
    utf8_fill src (Z.of_nat (length pre)) (pre ++ mid ++ post) dstlen =
      Some (r, pre ++ map to_char (utf8_bytes s1) ++ 0 :: m2 ++ post) /\
    src = s1 ++ s2 /\
    utf8_bytes src = utf8_bytes s1 ++ utf8_bytes s2 /\
    length mid = S (length (utf8_bytes s1) + length m2).
Proof.
  induction n as [|n IH]; intros src Hn pre mid post Hmid Hfit Hmax.
  - destruct src; [|simpl in Hn; lia]. destruct mid as [|x mid]; [congruence|].
    cbn [utf8_fill]. change ((x :: mid) ++ post) with (x :: mid ++ post).
    rewrite poke_app. exists (Z.of_nat (length pre)), [], [], mid.
    repeat split.
  - destruct mid as [|x mid]; [congruence|]. clear Hmid.
    change ((x :: mid) ++ post) with (x :: mid ++ post).
    destruct src as [|ucs rest].
    { cbn [utf8_fill]. rewrite poke_app.
      exists (Z.of_nat (length pre)), [], [], mid. repeat split. }
    cbn [length] in Hn, Hfit.
    assert (Hmulti : forall bytes rest',
      (length rest' <= n)%nat -> (0 < length bytes <= 4)%nat ->
      exists r s1' s2 m2,
        match put_or_break (pre ++ x :: mid ++ post) dstlen
                (Z.of_nat (length pre)) bytes with
        | Some (true, count, dst') => Some (utf8_measure rest' count, dst')
        | Some (false, count, dst') => utf8_fill rest' count dst' dstlen
        | None => None
        end = Some (r, pre ++ map to_char s1' ++ 0 :: m2 ++ post) /\
        S (length mid) = S (length s1' + length m2) /\
        (s1' = [] \/
         exists t, rest' = t ++ s2 /\ s1' = bytes ++ utf8_bytes t /\
                   utf8_bytes rest' = utf8_bytes t ++ utf8_bytes s2)).
    { intros bytes rest' Hr Hb. unfold put_or_break.
      rewrite u32_small by lia.
      destruct (dstlen <=? Z.of_nat (length pre) + Z.of_nat (length bytes)) eqn:E.
      - rewrite poke_app. eexists _, [], rest', mid. cbn. repeat split. now left.
      - apply Z.leb_gt in E.
        change (x :: mid ++ post) with ((x :: mid) ++ post).
        rewrite <- (take_drop (length bytes) (x :: mid)), <- app_assoc.
        rewrite put_bytes_app
          by (rewrite ?length_take; cbn [length]; lia).
        replace (Z.of_nat (length pre) + Z.of_nat (length bytes))
          with (Z.of_nat (length (pre ++ map to_char bytes)))
          by (rewrite length_app, length_map; lia).
        replace (pre ++ map to_char bytes ++
                 drop (length bytes) (x :: mid) ++ post)
          with ((pre ++ map to_char bytes) ++
                drop (length bytes) (x :: mid) ++ post)
          by now rewrite <- app_assoc.
        assert (Hd : length (drop (length bytes) (x :: mid)) =
                     (S (length mid) - length bytes)%nat)
          by (rewrite length_drop; reflexivity).
        destruct (IH rest' Hr (pre ++ map to_char bytes)
                    (drop (length bytes) (x :: mid)) post)
          as (r & t & s2 & m2 & Hfill & Hsplit & Hbytes & Hlen); try assumption.
        + intros Hnil. rewrite Hnil in Hd. simpl in Hd. lia.
        + rewrite length_app, length_map, Hd. lia.
        + exists r, (bytes ++ utf8_bytes t), s2, m2. split; [|split].
          * rewrite Hfill. rewrite map_app, <- !app_assoc. reflexivity.
          * rewrite length_app. lia.
          * right. exists t. auto. }
    cbn [utf8_fill].
    destruct (ucs <? 0x80) eqn:E1.
    + rewrite poke_app. rewrite u32_small by lia.
      destruct (dstlen <=? Z.of_nat (length pre) + 1) eqn:E.
      * apply Z.leb_le in E. destruct mid as [|y mid]; [|cbn [length] in Hfit; lia].
        rewrite u32_small by lia.
        replace (Z.of_nat (length pre) + 1 - 1) with (Z.of_nat (length pre)) by lia.
        cbn [app]. rewrite poke_app.
        eexists _, [], (ucs :: rest), []. repeat split.
      * apply Z.leb_gt in E.
        replace (Z.of_nat (length pre) + 1)
          with (Z.of_nat (length (pre ++ [to_char ucs])))
          by (rewrite length_app; simpl; lia).
        replace (pre ++ to_char ucs :: mid ++ post)
          with ((pre ++ [to_char ucs]) ++ mid ++ post)
          by now rewrite <- app_assoc.
        destruct (IH rest ltac:(lia) (pre ++ [to_char ucs]) mid post)
          as (r & t & s2 & m2 & Hfill & Hsplit & Hbytes & Hlen); try assumption.
        -- intros ->. cbn [length] in *. lia.
        -- rewrite length_app. cbn [length]. lia.
        -- exists r, (ucs :: t), s2, m2. split; [|split; [|split]].
           ++ rewrite Hfill. cbn [utf8_bytes]. rewrite E1.
              cbn [map]. now rewrite <- app_assoc.
           ++ cbn. now rewrite Hsplit.
           ++ cbn [utf8_bytes app]. rewrite E1, Hbytes. reflexivity.
           ++ cbn [utf8_bytes]. rewrite E1. cbn [length]. lia.
    + destruct (ucs <? 0x800) eqn:E2.
      { destruct (Hmulti (enc2 ucs) rest ltac:(lia) ltac:(cbn; lia))
          as (r & s1' & s2 & m2 & Hfill & Hlen & [->|(t & Hr & -> & Hb)]).
        - exists r, [], (ucs :: rest), m2. cbn in *. repeat split; auto.
        - exists r, (ucs :: t), s2, m2. cbn [utf8_bytes app]. rewrite E1, E2.
          split; [exact Hfill|]. split; [now rewrite Hr|].
          split; [now rewrite Hb, <- app_assoc | cbn in Hlen |- *; lia]. }
      destruct rest as [|ucs2 rest2].
      { destruct (Hmulti (enc3 ucs) [] ltac:(simpl; lia) ltac:(cbn; lia))
          as (r & s1' & s2 & m2 & Hfill & Hlen & [->|(t & Hr & -> & Hb)]).
        - exists r, [], [ucs], m2. cbn in *. repeat split; auto.
        - symmetry in Hr. apply app_eq_nil in Hr as [-> ->].
          exists r, [ucs], [], m2. cbn [utf8_bytes app]. rewrite E1, E2.
          split; [exact Hfill|]. split; [reflexivity|].
          split; [now rewrite !app_nil_r | cbn in Hlen |- *; lia]. }
      destruct (is_high ucs && is_low ucs2) eqn:E3.
      * destruct (Hmulti (enc4 ucs ucs2) rest2 ltac:(simpl in *; lia)
                    ltac:(cbn; lia))
          as (r & s1' & s2 & m2 & Hfill & Hlen & [->|(t & Hr & -> & Hb)]).
        -- exists r, [], (ucs :: ucs2 :: rest2), m2. cbn in *. repeat split; auto.
        -- exists r, (ucs :: ucs2 :: t), s2, m2.
           cbn [utf8_bytes app]. rewrite E1, E2, E3.
           split; [exact Hfill|]. split; [now rewrite Hr|].
           split; [now rewrite Hb, <- app_assoc | cbn in Hlen |- *; lia].
      * destruct (Hmulti (enc3 ucs) (ucs2 :: rest2) ltac:(simpl in *; lia)
                    ltac:(cbn; lia))
          as (r & s1' & s2 & m2 & Hfill & Hlen & [->|(t & Hr & -> & Hb)]).
        -- exists r, [], (ucs :: ucs2 :: rest2), m2. cbn in *. repeat split; auto.
        -- exists r, (ucs :: t), s2, m2.
           assert (Ht : utf8_bytes (ucs :: t) = enc3 ucs ++ utf8_bytes t).
           { cbn [utf8_bytes]. rewrite E1, E2.
             destruct t as [|t0 t]; [reflexivity|].
             cbn [app] in Hr. injection Hr as <- _. now rewrite E3. }
           assert (Hw : utf8_bytes (ucs :: ucs2 :: rest2) =
                        enc3 ucs ++ utf8_bytes (ucs2 :: rest2))
             by (cbn [utf8_bytes]; now rewrite E1, E2, E3).
           rewrite Hw, Ht.
           split; [exact Hfill|]. split; [cbn [app]; now rewrite Hr|].
           split; [now rewrite Hb, <- app_assoc | cbn in Hlen |- *; lia].
Qed.

(** A buffer that is too small is cut at a character: after
    [utf8fromwc] the buffer starts with the bytes of a leading part of
    [src] made of whole characters (a surrogate pair is never split, no
    character is stored in part), followed by the terminating 0. *)
Theorem utf8fromwc_whole_chars dst dstlen src :
  0 < dstlen -> dstlen <= Z.of_nat (length dst) -> dstlen + 4 <= 2 ^ 32 ->
  exists r s1 s2 tail,
    utf8fromwc dst dstlen src =
      Some (r, map to_char (utf8_bytes s1) ++ 0 :: tail) /\
    src = s1 ++ s2 /\
    utf8_bytes src = utf8_bytes s1 ++ utf8_bytes s2 /\
    Z.of_nat (length (utf8_bytes s1)) < dstlen.
Proof.
  intros Hpos Hlen Hmax. unfold utf8fromwc.
  replace (dstlen =? 0) with false by (symmetry; apply Z.eqb_neq; lia).
  set (m := Z.to_nat dstlen).
  assert (Hm : length (take m dst) = m)
    by (rewrite length_take; apply Nat.min_l; lia).
  destruct (utf8_fill_whole_chars dstlen (length src) src (le_n _) []
              (take m dst) (drop m dst))
    as (r & s1 & s2 & m2 & Hfill & Hsplit & Hbytes & Hl); try assumption.
  - intros Hnil. rewrite Hnil in Hm. simpl in Hm. lia.
  - cbn [length]. lia.
  - cbn [app length] in Hfill. rewrite take_drop in Hfill.
    exists r, s1, s2, (m2 ++ drop m dst). repeat split; try assumption. lia.
Qed.

Lemma utf8_bytes_ascii src :
  Forall (fun u => 0 <= u < 0x80) src -> utf8_bytes src = src.
Proof.
  induction 1 as [|u src Hu _ IH]; cbn [utf8_bytes]; [reflexivity|].
  replace (u <? 0x80) with true by (symmetry; apply Z.ltb_lt; lia).
  now rewrite IH.
Qed.

(** Text in ASCII is copied unit by unit: with room for the text and the
    terminating 0, [utf8fromwc] returns the number of units and the buffer
    starts with the units themselves, then the 0. *)
Theorem utf8fromwc_ascii dst dstlen src :
  Forall (fun u => 0 <= u < 0x80) src ->
  Z.of_nat (length src) < dstlen ->
  dstlen <= Z.of_nat (length dst) -> dstlen + 4 <= 2 ^ 32 ->
  utf8fromwc dst dstlen src =
    Some (Z.of_nat (length src), src ++ 0 :: drop (S (length src)) dst).
Proof.
  intros Ha Hfit Hlen Hmax. unfold utf8fromwc.
  replace (dstlen =? 0) with false by (symmetry; apply Z.eqb_neq; lia).
  pose proof (utf8_bytes_ascii src Ha) as Hb.
  set (m := S (length src)).
  rewrite <- (take_drop m dst) at 1.
  assert (Hm : length (take m dst) = m)
    by (rewrite length_take; apply Nat.min_l; subst m; lia).
  pose proof (utf8_fill_fits dstlen (length src) src (le_n _) []
                (take m dst) (drop m dst)) as H.
  change (Z.of_nat (length [])) with 0 in H. cbn [app length Nat.add] in H.
  rewrite H by (rewrite ?Hb, ?Hm; subst m; lia).
  rewrite Hb. f_equal. f_equal. f_equal.
  clear -Ha. induction Ha as [|u src Hu _ IH]; cbn [map]; [reflexivity|].
  rewrite IH. f_equal. unfold to_char. apply Z.mod_small. lia.
Qed.

(** * Spans of the axis-aligned lines *)

Lemma line_pixels_horizontal x y x' p :
  In p (line_pixels (x, y) (x', y)) <->
  p.2 = y /\ (x <= p.1 < x' \/ x' < p.1 <= x).
Proof.
  unfold line_pixels. cbn [fst snd]. rewrite in_map_iff.
  replace (y - y) with 0 by lia.
  set (n := Z.max (Z.abs (x' - x)) (Z.abs 0)).
  assert (Hn : n = Z.abs (x' - x)) by lia.
  split.
  - intros (i & <- & Hi). apply In_seqZ in Hi. cbn [fst snd].
    rewrite Z.mul_0_r, Z.add_0_l, (Z.div_small n (2 * n)) by lia.
    split; [lia|].
    destruct (Z.abs_spec (x' - x)) as [[_ Ha]|[_ Ha]].
    + replace (x' - x) with n by lia. rewrite round_major_pos by lia. lia.
    + replace (x' - x) with (- n) by lia. rewrite round_major_neg by lia. lia.
  - intros [Hy Hx]. destruct p as [p1 p2]. cbn [fst snd] in *. subst p2.
    destruct Hx as [Hx|Hx].
    + exists (p1 - x). split; [|apply In_seqZ; lia].
      rewrite Z.mul_0_r, Z.add_0_l, (Z.div_small n (2 * n)) by lia.
      replace (x' - x) with n by lia. rewrite round_major_pos by lia.
      f_equal; lia.
    + exists (x - p1). split; [|apply In_seqZ; lia].
      rewrite Z.mul_0_r, Z.add_0_l, (Z.div_small n (2 * n)) by lia.
      replace (x' - x) with (- n) by lia. rewrite round_major_neg by lia.
      f_equal; lia.
Qed.

Lemma line_pixels_vertical x y y' p :
  In p (line_pixels (x, y) (x, y')) <->
  p.1 = x /\ (y <= p.2 < y' \/ y' < p.2 <= y).
Proof.
  unfold line_pixels. cbn [fst snd]. rewrite in_map_iff.
  replace (x - x) with 0 by lia.
  set (n := Z.max (Z.abs 0) (Z.abs (y' - y))).
  assert (Hn : n = Z.abs (y' - y)) by lia.
  split.
  - intros (i & <- & Hi). apply In_seqZ in Hi. cbn [fst snd].
    rewrite Z.mul_0_r, Z.add_0_l, (Z.div_small n (2 * n)) by lia.
    split; [lia|].
    destruct (Z.abs_spec (y' - y)) as [[_ Ha]|[_ Ha]].
    + replace (y' - y) with n by lia. rewrite round_major_pos by lia. lia.
    + replace (y' - y) with (- n) by lia. rewrite round_major_neg by lia. lia.
  - intros [Hx Hy]. destruct p as [p1 p2]. cbn [fst snd] in *. subst p1.
    destruct Hy as [Hy|Hy].
    + exists (p2 - y). split; [|apply In_seqZ; lia].
      rewrite Z.mul_0_r, Z.add_0_l, (Z.div_small n (2 * n)) by lia.
      replace (y' - y) with n by lia. rewrite round_major_pos by lia.
      f_equal; lia.
    + exists (y - p2). split; [|apply In_seqZ; lia].
      rewrite Z.mul_0_r, Z.add_0_l, (Z.div_small n (2 * n)) by lia.
      replace (y' - y) with (- n) by lia. rewrite round_major_neg by lia.
      f_equal; lia.
Qed.

(** The stroke of [xyline_unscaled(x, y, x1)] lies in row [y].  Running
    rightwards ([x <= x1]) it covers the columns [x .. x1], both ends
    included; running leftwards it covers the columns [x1 + 2 .. x], so the
    two columns at the far end, [x1] and [x1 + 1], stay undrawn. *)
Theorem xyline_unscaled_span s dc x y x1 p :
  gc_ s = Some dc ->
  let stroke := OpLine (x, y) (x1 + 1, y) (dc_pen dc) in
  drawn (xyline_unscaled x y x1 s) = dc_ops dc ++ [stroke] /\
  (x <= x1 -> (In p (op_pixels stroke) <-> p.2 = y /\ x <= p.1 <= x1)) /\
  (x1 < x -> (In p (op_pixels stroke) <-> p.2 = y /\ x1 + 2 <= p.1 <= x)).
Proof.
  intros Hgc stroke. split; [|split].
  - unfold xyline_unscaled, drawn, on_gc. rewrite Hgc. reflexivity.
  - intros H. subst stroke. cbn [op_pixels]. rewrite line_pixels_horizontal. lia.
  - intros H. subst stroke. cbn [op_pixels]. rewrite line_pixels_horizontal. lia.
Qed.

(** The stroke of [yxline_unscaled(x, y, y1)] lies in column [x].  Running
    downwards ([y <= y1]) it covers the rows [y .. y1], both ends
    included; running upwards it covers the rows [y1 + 2 .. y]. *)
Theorem yxline_unscaled_span s dc x y y1 p :
  gc_ s = Some dc ->
  let stroke := OpLine (x, y) (x, y1 + 1) (dc_pen dc) in
  drawn (yxline_unscaled x y y1 s) = dc_ops dc ++ [stroke] /\
  (y <= y1 -> (In p (op_pixels stroke) <-> p.1 = x /\ y <= p.2 <= y1)) /\
  (y1 < y -> (In p (op_pixels stroke) <-> p.1 = x /\ y1 + 2 <= p.2 <= y)).
Proof.
  intros Hgc stroke. split; [|split].
  - unfold yxline_unscaled, drawn, on_gc. rewrite Hgc. reflexivity.
  - intros H. subst stroke. cbn [op_pixels]. rewrite line_pixels_vertical. lia.
  - intros H. subst stroke. cbn [op_pixels]. rewrite line_pixels_vertical. lia.
Qed.

(** * The further properties at concrete inputs *)

Lemma push_clip_in_bounds_witness :
  (stack_wf (push_clip 0 0 10 10 example_clipped) /\
   rstackptr (push_clip 0 0 10 10 example_clipped) = rstackptr example_clipped + 1 /\
   length (rstack (push_clip 0 0 10 10 example_clipped)) =
     length (rstack example_clipped)) /\
  (stack_wf (push_clip 0 0 10 10 example_full) /\
   rstackptr (push_clip 0 0 10 10 example_full) = rstackptr example_full /\
   length (rstack (push_clip 0 0 10 10 example_full)) =
     length (rstack example_full)).
Proof.
  split.
  - destruct (push_clip_in_bounds example_clipped 0 0 10 10) as (H1 & H2 & _ & H3);
      [by_evaluation|].
    split; [exact H1 | split; [apply H2; by_evaluation | exact H3]].
  - destruct (push_clip_in_bounds example_full 0 0 10 10) as (H1 & _ & H2 & H3);
      [by_evaluation|].
    split; [exact H1 | split; [apply H2; by_evaluation | exact H3]].
Defined.

Lemma push_clip_twice_witness :
  in_clip (current_clip (push_clip 2 2 5 5 (push_clip 0 0 10 10 example_driver)))
          (3, 3) =
    in_query 0 0 10 10 (3, 3) && in_query 2 2 5 5 (3, 3) &&
    in_clip (current_clip example_driver) (3, 3).
Proof.
  apply (push_clip_twice example_driver 0 0 10 10 2 2 5 5 (3, 3)); by_evaluation.
Defined.

Lemma push_clip_inner_alone_witness :
  in_clip (current_clip (push_clip 2 2 5 5 (push_clip 0 0 10 10 example_driver)))
          (3, 3) =
    in_clip (current_clip (push_clip 2 2 5 5 example_driver)) (3, 3).
Proof.
  apply (push_clip_inner_alone example_driver 0 0 10 10 2 2 5 5 (3, 3));
    [by_evaluation | by_evaluation | by_evaluation |].
  intros q. unfold in_query. rewrite !PtInRect_iff. cbn [left top right bottom].
  lia.
Defined.

Lemma degenerate_push_hides_all_witness :
  clip_box 1 1 4 4 (push_clip 0 0 0 5 example_driver) = (1, 1, 0, 0, 2) /\
  not_clipped 1 1 4 4 (push_clip 0 0 0 5 example_driver) = 0.
Proof.
  apply (degenerate_push_hides_all example_driver 0 0 0 5 1 1 4 4);
    [by_evaluation | by_evaluation | left; by_evaluation].
Defined.

Lemma clip_box_inside_query_witness :
  exists X Y W H,
    out_rect (clip_box 5 5 10 10 example_clipped) = (X, Y, W, H) /\
    5 <= X /\ 5 <= Y /\ X + W <= 5 + 10 /\ Y + H <= 5 + 10 /\ 0 <= W /\ 0 <= H /\
    (status (clip_box 5 5 10 10 example_clipped) = 1 -> 0 < W /\ 0 < H).
Proof.
  apply (clip_box_inside_query example_clipped 5 5 10 10); by_evaluation.
Defined.

Lemma clip_box_again_witness :
  out_rect (clip_box 5 5 5 5 example_clipped) = (5, 5, 5, 5).
Proof.
  apply (clip_box_again example_clipped 5 5 10 10 5 5 5 5);
    [by_evaluation | by_evaluation | by_evaluation | | reflexivity].
  vm_compute. discriminate.
Defined.

Lemma restore_clip_selects_top_witness :
  fl_clip_state_number (restore_clip example_clipped) =
    fl_clip_state_number example_clipped + 1 /\
  rstack (restore_clip example_clipped) = rstack example_clipped /\
  drawn (restore_clip example_clipped) = drawn example_clipped.
Proof.
  destruct (restore_clip_selects_top example_clipped) as (H1 & H2 & _ & _ & _ & H3 & _).
  split; [exact H1 | split; [exact H2 | exact H3]].
Defined.

Lemma focus_rect_outline_witness :
  drawn (focus_rect 0 0 3 3 example_driver) =
    dc_ops example_dc ++
    map (fun p => OpPixel p (fl_RGB example_driver))
        (odd_from 1 (outline_walk (floor example_driver 0) (floor example_driver 0)
           (floor example_driver (0 + 3 - 1) - floor example_driver 0 + 1)
           (floor example_driver (0 + 3 - 1) - floor example_driver 0 + 1))) /\
  length (odd_from 1 (outline_walk (floor example_driver 0) (floor example_driver 0)
           (floor example_driver (0 + 3 - 1) - floor example_driver 0 + 1)
           (floor example_driver (0 + 3 - 1) - floor example_driver 0 + 1))) =
    Z.to_nat (floor example_driver (0 + 3 - 1) - floor example_driver 0 + 1 +
              (floor example_driver (0 + 3 - 1) - floor example_driver 0 + 1)).
Proof.
  destruct (focus_rect_outline example_driver example_dc 0 0 3 3 eq_refl
              ltac:(by_evaluation) ltac:(by_evaluation)) as (H1 & H2 & _).
  split; [exact H1 | exact H2].
Defined.

Lemma loop_unscaled_closed_witness :
  In (0, 0) (pixels (drawn (loop_unscaled 0 0 4 0 0 4 example_driver))) /\
  In (4, 0) (pixels (drawn (loop_unscaled 0 0 4 0 0 4 example_driver))) /\
  In (0, 4) (pixels (drawn (loop_unscaled 0 0 4 0 0 4 example_driver))).
Proof.
  destruct (loop_unscaled_closed example_driver example_dc 0 0 4 0 0 4 eq_refl)
    as (_ & _ & H1 & H2 & H3).
  split; [apply H1; discriminate | split; [apply H2 | apply H3]; discriminate].
Defined.

Lemma loop_unscaled4_closed_witness :
  In (0, 0) (pixels (drawn (loop_unscaled4 0 0 4 0 4 4 0 4 example_driver))) /\
  In (0, 4) (pixels (drawn (loop_unscaled4 0 0 4 0 4 4 0 4 example_driver))).
Proof.
  destruct (loop_unscaled4_closed example_driver example_dc 0 0 4 0 4 4 0 4 eq_refl)
    as (_ & _ & H1 & H2).
  split; [apply H1 | apply H2]; discriminate.
Defined.

Lemma rectf_unscaled_covers_witness :
  gc_ (rectf_unscaled 1 1 3 2 example_driver) =
    Some (emit_all [OpFill (mkRECT 1 1 (1 + 3) (1 + 2)) (fl_brush example_driver)]
                   example_dc) /\
  Z.of_nat (length (op_pixels (OpFill (mkRECT 1 1 (1 + 3) (1 + 2))
                                      (fl_brush example_driver)))) = 3 * 2.
Proof.
  destruct (rectf_unscaled_covers example_driver example_dc 1 1 3 2 eq_refl
              ltac:(by_evaluation) ltac:(by_evaluation)) as (H1 & _ & H2).
  split; [exact H1 | exact H2].
Defined.

Lemma pen_changes_nest_witness :
  (change_pen_width 3 example_driver).1 = dc_pen example_dc /\
  reset_pen_width (change_pen_width 3 example_driver).1
    (reset_pen_width
       (change_pen_width 5 (change_pen_width 3 example_driver).2).1
       (change_pen_width 5 (change_pen_width 3 example_driver).2).2)
    = example_driver.
Proof.
  destruct (pen_changes_nest example_driver example_dc
              (mkPEN PS_SOLID 1 (mkLOGBRUSH BS_SOLID 0 0)) 3 5 eq_refl eq_refl)
    as (H1 & _ & _ & H2).
  split; [exact H1 | exact H2].
Defined.

Lemma xyline_unscaled_span_witness :
  In (5, 0) (op_pixels (OpLine (2, 0) (5 + 1, 0) (dc_pen example_dc))) /\
  In (4, 0) (op_pixels (OpLine (5, 0) (2 + 1, 0) (dc_pen example_dc))).
Proof.
  split.
  - destruct (xyline_unscaled_span example_driver example_dc 2 0 5 (5, 0) eq_refl)
      as (_ & H & _).
    apply H; cbn [fst snd]; lia.
  - destruct (xyline_unscaled_span example_driver example_dc 5 0 2 (4, 0) eq_refl)
      as (_ & _ & H).
    apply H; cbn [fst snd]; lia.
Defined.

Lemma yxline_unscaled_span_witness :
  In (0, 5) (op_pixels (OpLine (0, 2) (0, 5 + 1) (dc_pen example_dc))) /\
  In (0, 4) (op_pixels (OpLine (0, 5) (0, 2 + 1) (dc_pen example_dc))).
Proof.
  split.
  - destruct (yxline_unscaled_span example_driver example_dc 0 2 5 (0, 5) eq_refl)
      as (_ & H & _).
    apply H; cbn [fst snd]; lia.
  - destruct (yxline_unscaled_span example_driver example_dc 0 5 2 (0, 4) eq_refl)
      as (_ & _ & H).
    apply H; cbn [fst snd]; lia.
Defined.

Lemma filename_ext_ignores_directory_witness :
  filename_ext (["a"; "."; "b"] ++ "/" :: ["c"; "."; "t"; "x"; "t"])%char =
  filename_ext ["c"; "."; "t"; "x"; "t"]%char.
Proof.
  apply (filename_ext_ignores_directory ["a"; "."; "b"]%char "/"%char
           ["c"; "."; "t"; "x"; "t"]%char).
  reflexivity.
Defined.

Lemma filename_ext_last_dot_witness :
  filename_ext (["a"; "."; "b"] ++ "." :: ["t"; "x"; "t"])%char =
    ("." :: ["t"; "x"; "t"])%char /\
  filename_ext ["t"; "x"; "t"]%char = [].
Proof.
  apply (filename_ext_last_dot ["a"; "."; "b"]%char ["t"; "x"; "t"]%char).
  repeat constructor; discriminate.
Defined.

Lemma next_dir_sep_finds_witness :
  isdirsep "a" = false /\ isdirsep "b" = false.
Proof.
  pose proof (next_dir_sep_finds ["a"; "b"]%char) as H.
  change (next_dir_sep ["a"; "b"]%char) with (@None (list ascii)) in H.
  split; apply H; [left | right; left]; reflexivity.
Defined.

Lemma png_clears_transparent_witness :
  length (png_extra_rgba_processing [1; 2; 3; 0; 5; 6; 7; 8] 2 1) =
    length [1; 2; 3; 0; 5; 6; 7; 8] /\
  png_extra_rgba_processing [1; 2; 3; 0; 5; 6; 7; 8] 2 1 !! 0%nat = Some 0 /\
  png_extra_rgba_processing [1; 2; 3; 0; 5; 6; 7; 8] 2 1 !! 4%nat = Some 5.
Proof.
  destruct (png_clears_transparent [1; 2; 3; 0; 5; 6; 7; 8] 2 1 ltac:(by_evaluation))
    as (H1 & H2 & _).
  split; [exact H1|]. split.
  - exact (H2 0%nat 0%nat ltac:(by_evaluation) ltac:(repeat constructor)).
  - exact (H2 1%nat 0%nat ltac:(by_evaluation) ltac:(repeat constructor)).
Defined.

Lemma png_processing_idempotent_witness :
  png_extra_rgba_processing
    (png_extra_rgba_processing [1; 2; 3; 0; 5; 6; 7; 8] 2 1) 2 1 =
  png_extra_rgba_processing [1; 2; 3; 0; 5; 6; 7; 8] 2 1.
Proof.
  apply (png_processing_idempotent [1; 2; 3; 0; 5; 6; 7; 8] 2 1). by_evaluation.
Defined.

Lemma utf8fromwc_in_bounds_witness :
  exists r d,
    utf8fromwc [9; 9] 2 [0x41; 0xe9; 0x20ac] = Some (r, d) /\
    kept_beyond 2 [9; 9] d.
Proof.
  destruct (utf8fromwc_in_bounds [9; 9] 2 [0x41; 0xe9; 0x20ac]
              ltac:(by_evaluation) ltac:(by_evaluation))
    as (r & d & H1 & H2 & _).
  exists r, d. split; [exact H1 | exact H2].
Defined.

Lemma utf8fromwc_count_witness :
  6 = Z.of_nat (length (utf8_bytes [0x41; 0xe9; 0x20ac])).
Proof.
  apply (utf8fromwc_count [9; 9] 2 [0x41; 0xe9; 0x20ac] 6 [65; 0]);
    [repeat constructor | by_evaluation | reflexivity].
Defined.

Lemma utf8fromwc_fits_witness :
  utf8fromwc [255; 255; 255; 255; 255; 255; 255; 255] 8 [0x41; 0xe9; 0x20ac] =
    Some (Z.of_nat (length (utf8_bytes [0x41; 0xe9; 0x20ac])),
          map to_char (utf8_bytes [0x41; 0xe9; 0x20ac]) ++
          0 :: drop (S (length (utf8_bytes [0x41; 0xe9; 0x20ac])))
                    [255; 255; 255; 255; 255; 255; 255; 255]).
Proof.
  apply (utf8fromwc_fits [255; 255; 255; 255; 255; 255; 255; 255] 8
           [0x41; 0xe9; 0x20ac]); by_evaluation.
Defined.

Lemma utf8_encoding_decodes_witness :
  (length (utf8_bytes [0x20ac]) = 3%nat /\
   well_formed_utf8 (utf8_bytes [0x20ac]) = true /\
   utf8_value (utf8_bytes [0x20ac]) = 0x20ac) /\
  (length (utf8_bytes [0xd83d; 0xde00]) = 4%nat /\
   well_formed_utf8 (utf8_bytes [0xd83d; 0xde00]) = true /\
   utf8_value (utf8_bytes [0xd83d; 0xde00]) =
     0x10000 + (0xd83d - 0xd800) * 1024 + (0xde00 - 0xdc00)) /\
  (exists b2 b3, utf8_bytes [0xd800] = [0xed; b2; b3] /\ 0xa0 <= b2 <= 0xbf /\
     well_formed_utf8 (utf8_bytes [0xd800]) = false).
Proof.
  destruct utf8_encoding_decodes as (_ & _ & H3 & H4 & H5).
  split; [|split].
  - apply (H3 0x20ac); by_evaluation.
  - apply (H4 0xd83d 0xde00); by_evaluation.
  - apply (H5 0xd800). by_evaluation.
Defined.

Lemma utf8fromwc_whole_chars_witness :
  exists r s1 s2 tail,
    utf8fromwc [7; 7; 7; 7] 4 [0x41; 0x20ac; 0x42] =
      Some (r, map to_char (utf8_bytes s1) ++ 0 :: tail) /\
    [0x41; 0x20ac; 0x42] = s1 ++ s2 /\
    utf8_bytes [0x41; 0x20ac; 0x42] = utf8_bytes s1 ++ utf8_bytes s2 /\
    Z.of_nat (length (utf8_bytes s1)) < 4.
Proof.
  apply (utf8fromwc_whole_chars [7; 7; 7; 7] 4 [0x41; 0x20ac; 0x42]);
    by_evaluation.
Defined.

Lemma utf8fromwc_ascii_witness :
  utf8fromwc [7; 7; 7; 7] 4 [0x41; 0x42] =
    Some (Z.of_nat (length [0x41; 0x42]),
          [0x41; 0x42] ++ 0 :: drop (S (length [0x41; 0x42])) [7; 7; 7; 7]).
Proof.
  apply (utf8fromwc_ascii [7; 7; 7; 7] 4 [0x41; 0x42]);
    [repeat constructor; lia | by_evaluation | by_evaluation | by_evaluation].
Defined.
